(** * create_parquet: the row-group synthesizer and the size-convergence writer

    A shallow embedding of [scripts/create_parquet.py].  Python integers are
    [Z]; numpy [int64]/[int16] arrays are lists of [Z] with their wrap-around
    written out; Python floats that steer control flow (the overshoot
    fraction, byte counts in [human_bytes]) are exact rationals [Q]; the
    sampled floating-point columns, the random generator and the Parquet
    writer are interfaces (type classes), with small executable instances
    used to run the model on concrete inputs.

    Covered: [parse_size], [human_bytes], [compression_arg],
    [make_writer_kwargs], [make_rowgroup], [write_to_target] and, of [main],
    the parsing of the targets and the loop over them.  [argparse],
    [ensure_dir] and the two header lines [main] prints come before that loop
    and are left out. *)

From Stdlib Require Import ZArith QArith Qround Qabs Qpower String Ascii List Lia Lqa.
From stdpp Require Import base tactics option list list_numbers strings pretty gmap.

Local Open Scope string_scope.
Local Open Scope Z_scope.

(** ** Exceptions and results *)

Inductive Exception :=
| ValueError (msg : string)
| OverflowError
| IndexError
| ArrowInvalid
| FileNotFoundError
| RuntimeError (msg : string)
| SinkFailure (msg : string).

Definition is_RuntimeError (e : Exception) : bool :=
  match e with
  | RuntimeError _ => true
  | _ => false
  end.

Inductive result (A : Type) :=
| Ok (a : A)
| Raise (e : Exception).
Arguments Ok {A} a.
Arguments Raise {A} e.

Definition is_ok {A} (r : result A) : bool :=
  match r with
  | Ok _ => true
  | Raise _ => false
  end.

Definition result_bind {A B} (r : result A) (k : A -> result B) : result B :=
  match r with
  | Ok a => k a
  | Raise e => Raise e
  end.

(** ** Fixed-width integers *)

Definition in_int64 (z : Z) : bool := (- 2 ^ 63 <=? z) && (z <? 2 ^ 63).
Definition in_int16 (z : Z) : bool := (- 2 ^ 15 <=? z) && (z <? 2 ^ 15).

(** Two's-complement wrap-around of a signed [w]-bit integer. *)
Definition wrap (w : Z) (z : Z) : Z := (z + 2 ^ (w - 1)) mod 2 ^ w - 2 ^ (w - 1).
Definition wrap64 : Z -> Z := wrap 64.
Definition wrap16 : Z -> Z := wrap 16.

(** ** Floating-point values

    The sampled measures are IEEE doubles and singles; the model keeps them
    behind an interface, since no property below depends on their bits. *)

Class FloatOps := {
  float64 : Type;
  float32 : Type;
  f64_of_Q : Q -> float64;               (* a float literal *)
  f64_round : Z -> float64 -> float64;   (* np.round(x, decimals) *)
  f64_mul : float64 -> float64 -> float64;
  f64_add : float64 -> float64 -> float64;
  f64_ltb : float64 -> float64 -> bool;
  f64_to_f32 : float64 -> float32;       (* .astype(np.float32) *)
}.

(** ** numpy.random.Generator

    Every draw takes the array size and the generator state and returns the
    sampled array and the advanced state. *)

Class Generator `{FloatOps} := {
  G : Type;
  default_rng : Z -> G;
  rng_zipf : Q -> nat -> G -> list Z * G;
  rng_integers : Z -> Z -> nat -> G -> list Z * G;
  rng_lognormal : Q -> Q -> nat -> G -> list float64 * G;
  rng_geometric : Q -> nat -> G -> list Z * G;
  rng_standard_normal : nat -> G -> list float64 * G;
  rng_exponential : Q -> nat -> G -> list float64 * G;
  rng_beta : Q -> Q -> nat -> G -> list float64 * G;
  rng_random : nat -> G -> list float64 * G;
  rng_choice : list string -> nat -> nat -> G -> list (list string) * G;
}.

(** What numpy guarantees of the draws: an array of the requested shape, and
    [integers(low, high)] within [low, high). *)
Class GeneratorLaws `{Generator} : Prop := {
  zipf_length : forall a n g, length (rng_zipf a n g).1 = n;
  integers_length : forall lo hi n g, length (rng_integers lo hi n g).1 = n;
  integers_range : forall lo hi n g,
    lo < hi -> Forall (fun x => lo <= x < hi) (rng_integers lo hi n g).1;
  lognormal_length : forall m s n g, length (rng_lognormal m s n g).1 = n;
  geometric_length : forall p n g, length (rng_geometric p n g).1 = n;
  standard_normal_length : forall n g, length (rng_standard_normal n g).1 = n;
  exponential_length : forall s n g, length (rng_exponential s n g).1 = n;
  beta_length : forall a b n g, length (rng_beta a b n g).1 = n;
  random_length : forall n g, length (rng_random n g).1 = n;
  choice_length : forall l r c g, length (rng_choice l r c g).1 = r;
}.

(** ** Arrow tables *)

Inductive DataType :=
| pa_int64 | pa_int16 | pa_float32 | pa_float64
| pa_bool | pa_string | pa_timestamp_ms.

Global Instance DataType_eq_dec : EqDecision DataType.
Proof. solve_decision. Defined.

Section Tables.
Context `{FloatOps}.

Inductive Scalar :=
| SInt (z : Z)
| SF64 (x : float64)
| SF32 (x : float32)
| SBool (b : bool)
| SStr (s : string).

(** A cell is a scalar or null ([None]). *)
Record Column := mkColumn {
  col_name : string;
  col_type : DataType;
  col_cells : list (option Scalar);
}.

Definition Table := list Column.

Definition ints : list Z -> list (option Scalar) := map (fun z => Some (SInt z)).
Definition strs : list string -> list (option Scalar) := map (fun s => Some (SStr s)).
Definition bools : list bool -> list (option Scalar) := map (fun b => Some (SBool b)).
Definition f64s : list float64 -> list (option Scalar) := map (fun x => Some (SF64 x)).
Definition f32s : list float32 -> list (option Scalar) := map (fun x => Some (SF32 x)).
(** An object array of strings and [None]s. *)
Definition opt_strs : list (option string) -> list (option Scalar) := map (option_map SStr).

Definition conforms (ty : DataType) (c : option Scalar) : bool :=
  match c, ty with
  | None, _ => true
  | Some (SInt z), pa_int64 => in_int64 z
  | Some (SInt z), pa_timestamp_ms => in_int64 z
  | Some (SInt z), pa_int16 => in_int16 z
  | Some (SF64 _), pa_float64 => true
  | Some (SF32 _), pa_float32 => true
  | Some (SBool _), pa_bool => true
  | Some (SStr _), pa_string => true
  | _, _ => false
  end.

(** [pa.array(values, type=ty)]: the values must convert to [ty]. *)
Definition pa_array (ty : DataType) (cells : list (option Scalar))
  : result (DataType * list (option Scalar)) :=
  if forallb (conforms ty) cells then Ok (ty, cells) else Raise ArrowInvalid.

(** [pa.table({...})]: the columns in insertion order; all of one length. *)
Fixpoint pa_table (cols : list (string * result (DataType * list (option Scalar))))
  : result Table :=
  match cols with
  | [] => Ok []
  | (name, r) :: rest =>
      result_bind r (fun '(ty, cells) =>
      result_bind (pa_table rest) (fun t =>
      match t with
      | c :: _ =>
          if Nat.eqb (length cells) (length (col_cells c))
          then Ok (mkColumn name ty cells :: t)
          else Raise ArrowInvalid
      | [] => Ok [mkColumn name ty cells]
      end))
  end.

(** Every cell is null or a value of its column's declared type. *)
Definition well_typed (t : Table) : bool :=
  forallb (fun c => forallb (conforms (col_type c)) (col_cells c)) t.

(** The integers of an integer column, null where the cell is null. *)
Definition int_values (cells : list (option Scalar)) : list (option Z) :=
  map (fun c => match c with Some (SInt z) => Some z | _ => None end) cells.

Definition table_schema (t : Table) : list (string * DataType) :=
  map (fun c => (col_name c, col_type c)) t.

Definition num_rows (t : Table) : nat :=
  match t with
  | [] => 0%nat
  | c :: _ => length (col_cells c)
  end.

Definition column (name : string) (t : Table) : option Column :=
  List.find (fun c => String.eqb (col_name c) name) t.

Definition cells_of (name : string) (t : Table) : list (option Scalar) :=
  match column name t with
  | Some c => col_cells c
  | None => []
  end.

End Tables.

(** ** numpy array operations used by the synthesizer *)

(** [np.arange(start, stop, dtype=np.int64)]: the integers [start .. stop-1];
    a bound that does not fit an int64 is rejected with OverflowError. *)
Definition np_arange (start stop : Z) : result (list Z) :=
  if in_int64 start && in_int64 stop
  then Ok (seqZ start (stop - start))
  else Raise OverflowError.

(** [scalar + array] on an int64 array: the Python int must fit an int64, the
    element-wise sum wraps. *)
Definition np_add_scalar (a : Z) (xs : list Z) : result (list Z) :=
  if in_int64 a then Ok (map (fun x => wrap64 (a + x)) xs) else Raise OverflowError.

Definition np_add (xs ys : list Z) : list Z :=
  zip_with (fun x y => wrap64 (x + y)) xs ys.

(** [vals[i]] with Python's negative indices. *)
Definition index {A} (vals : list A) (i : Z) : result A :=
  let len := Z.of_nat (length vals) in
  let j := if i <? 0 then i + len else i in
  if (0 <=? j) && (j <? len)
  then match vals !! Z.to_nat j with
       | Some v => Ok v
       | None => Raise IndexError
       end
  else Raise IndexError.

(** [vals[idx]] for an index array. *)
Fixpoint take {A} (vals : list A) (idx : list Z) : result (list A) :=
  match idx with
  | [] => Ok []
  | i :: rest =>
      result_bind (index vals i) (fun v =>
      result_bind (take vals rest) (fun vs => Ok (v :: vs)))
  end.

Definition str_join (parts : list string) : string := String.concat EmptyString parts.

(** [np.apply_along_axis] joining each row (line 154): numpy calls the function on the
    first row to learn the result type and raises ValueError when there is no
    row; later results are stored in cells of the first result's width. *)
Definition apply_along_axis_join (rows : list (list string)) : result (list string) :=
  match rows with
  | [] => Raise (ValueError "Cannot apply_along_axis when any iteration dimensions are 0")
  | r0 :: _ =>
      let width := String.length (str_join r0) in
      Ok (map (fun r => substring 0 width (str_join r)) rows)
  end.

(** [np.char.add], array with array and array with scalar. *)
Definition char_add (xs ys : list string) : list string := zip_with String.append xs ys.
Definition char_add_l (s : string) (ys : list string) : list string := map (String.append s) ys.
Definition char_add_r (xs : list string) (s : string) : list string :=
  map (fun x => String.append x s) xs.

(** [x.astype(str)] on an integer array. *)
Definition astype_str (xs : list Z) : list string := map pretty xs.

(** [arr[mask] = None] on an object array. *)
Definition mask_none {A} (mask : list bool) (xs : list A) : list (option A) :=
  zip_with (fun (m : bool) x => if m then None else Some x) mask xs.

Definition chars (s : string) : list string :=
  map (fun c => String c EmptyString) (list_ascii_of_string s).

Definition dq : string := String "034"%char EmptyString.

Definition country_codes : list string :=
  ["US"; "CA"; "GB"; "DE"; "FR"; "NL"; "SE"; "NO"; "ES"; "IT"; "BR"; "IN"; "JP"; "AU"].
Definition channel_vals : list string :=
  ["organic"; "paid"; "email"; "referral"; "social"].
Definition pages : list string :=
  ["/home"; "/search"; "/product"; "/cart"; "/checkout"; "/account"; "/help"].
Definition letters : list string := chars "ABCDEFGHIJKLMNOPQRSTUVWXYZ".
Definition lowercase : list string := chars "abcdefghijklmnopqrstuvwxyz".

(** The nested helper [two_letter] of [make_rowgroup]. *)
Definition two_letter (x : list Z) : result (list string) :=
  let a := map (fun v => wrap 32 (v / 26)) x in
  let b := map (fun v => wrap 32 (v mod 26)) x in
  result_bind (take lowercase a) (fun la =>
  result_bind (take lowercase b) (fun lb =>
  Ok (char_add (char_add_r la EmptyString) lb))).

(** The schema every batch is built with (lines 211-231). *)
Definition schema : list (string * DataType) :=
  [ ("event_id", pa_int64); ("user_id", pa_int64); ("session_id", pa_int64);
    ("event_ts", pa_timestamp_ms); ("price", pa_float64); ("quantity", pa_int16);
    ("score", pa_float32); ("latency_ms", pa_float64); ("rating", pa_float32);
    ("is_refund", pa_bool); ("is_mobile", pa_bool); ("country", pa_string);
    ("channel", pa_string); ("product_sku", pa_string); ("url", pa_string);
    ("payload", pa_string); ("null_comment", pa_string); ("null_amount", pa_float64);
    ("null_updated_at", pa_timestamp_ms); ("null_flag", pa_bool) ].

Definition all_null_columns : list string :=
  ["null_comment"; "null_amount"; "null_updated_at"; "null_flag"].
Definition nullable_columns : list string := ["url"; "country"].

Section Synthesizer.
Context `{Generator}.

(** The generator is threaded through the draws; any step may raise. *)
Definition M (A : Type) : Type := G -> result (A * G).

Definition ret {A} (a : A) : M A := fun g => Ok (a, g).
Definition bind {A B} (m : M A) (k : A -> M B) : M B :=
  fun g => match m g with
           | Ok (a, g') => k a g'
           | Raise e => Raise e
           end.
Definition lift {A} (r : result A) : M A :=
  fun g => match r with
           | Ok a => Ok (a, g)
           | Raise e => Raise e
           end.

(** A draw of [size=n_rows]: numpy rejects a negative size. *)
Definition draw {A} (n_rows : Z) (d : nat -> G -> list A * G) : M (list A) :=
  fun g => if n_rows <? 0
           then Raise (ValueError "negative dimensions are not allowed")
           else let r := d (Z.to_nat n_rows) g in Ok (r.1, r.2).

Notation "'let*' x ':=' m 'in' k" := (bind m (fun x => k))
  (at level 10, x name, m at level 100, k at level 200).

Definition week_ms : Z := 7 * 24 * 3600 * 1000.

Definition lt_lit (p : Q) (xs : list float64) : list bool :=
  map (fun x => f64_ltb x (f64_of_Q p)) xs.

Definition make_rowgroup (n_rows : Z) (base_id : Z) (start_ts_ms : Z) : M Table :=
  let* ids := lift (np_arange base_id (base_id + n_rows)) in
  let* raw_zipf := draw n_rows (rng_zipf 1.5) in
  let user_id := map (fun z => z mod 5000000 + 1) raw_zipf in
  let* session_id := draw n_rows (rng_integers 1 50000000) in
  let* ts0 := lift (np_add_scalar start_ts_ms
                      (map (fun i => i mod week_ms) ids)) in
  let* jitter := draw n_rows (rng_integers 0 2000) in
  let ts := np_add ts0 jitter in
  let* price0 := draw n_rows (rng_lognormal 2.8 1.2) in
  let price := map (f64_round 2) price0 in
  let* quantity0 := draw n_rows (rng_geometric 0.45) in
  let quantity := map wrap16 quantity0 in
  let* score0 := draw n_rows rng_standard_normal in
  let score := map f64_to_f32 score0 in
  let* latency0 := draw n_rows (rng_exponential 120) in
  let latency_ms := map (f64_round 1) latency0 in
  let* rating0 := draw n_rows (rng_beta 5 2) in
  let rating :=
    map (fun x => f64_to_f32
                    (f64_round 1 (f64_add (f64_mul x (f64_of_Q 4)) (f64_of_Q 1))))
        rating0 in
  let* refund0 := draw n_rows rng_random in
  let is_refund := lt_lit 0.02 refund0 in
  let* mobile0 := draw n_rows rng_random in
  let is_mobile := lt_lit 0.55 mobile0 in
  let* country_ix := draw n_rows (rng_integers 0 (Z.of_nat (length country_codes))) in
  let* country := lift (take country_codes country_ix) in
  let* channel_ix := draw n_rows (rng_integers 0 (Z.of_nat (length channel_vals))) in
  let* channel := lift (take channel_vals channel_ix) in
  let* sku_letters := draw n_rows (fun n => rng_choice letters n 5) in
  let* sku_nums := draw n_rows (rng_integers 0 10000) in
  let* sku_words := lift (apply_along_axis_join sku_letters) in
  let product_sku :=
    char_add (char_add_l "SKU-" sku_words) (char_add_l "-" (astype_str sku_nums)) in
  let* page_ix := draw n_rows (rng_integers 0 (Z.of_nat (length pages))) in
  let* page := lift (take pages page_ix) in
  let* q := draw n_rows (rng_integers 0 10000000) in
  let url0 := char_add (char_add_r page "?q=") (astype_str q) in
  let* k1 := draw n_rows (rng_integers 0 (26 ^ 2)) in
  let* k2 := draw n_rows (rng_integers 0 (26 ^ 2)) in
  let* v1 := draw n_rows (rng_integers 0 10000) in
  let* v2 := draw n_rows (rng_integers 0 10000) in
  let* ok0 := draw n_rows rng_random in
  let ok := lt_lit 0.8 ok0 in
  let* key1 := lift (two_letter k1) in
  let* key2 := lift (two_letter k2) in
  let payload :=
    char_add
      (char_add (char_add_l ("{" ++ dq) key1) (char_add_l (dq ++ ":") (astype_str v1)))
      (char_add
         (char_add_l ("," ++ dq) key2)
         (char_add
            (char_add_l (dq ++ ":") (astype_str v2))
            (map (fun b : bool => if b then "," ++ dq ++ "ok" ++ dq ++ ":true}"
                                  else "," ++ dq ++ "ok" ++ dq ++ ":false}") ok))) in
  let* url_mask0 := draw n_rows rng_random in
  let url_mask := lt_lit 0.03 url_mask0 in
  let* country_mask0 := draw n_rows rng_random in
  let country_mask := lt_lit 0.01 country_mask0 in
  let url := mask_none url_mask url0 in
  let country := mask_none country_mask country in
  let all_nulls : list (option Scalar) := replicate (Z.to_nat n_rows) None in
  lift (pa_table
    [ ("event_id", pa_array pa_int64 (ints ids));
      ("user_id", pa_array pa_int64 (ints user_id));
      ("session_id", pa_array pa_int64 (ints session_id));
      ("event_ts", pa_array pa_timestamp_ms (ints ts));
      ("price", pa_array pa_float64 (f64s price));
      ("quantity", pa_array pa_int16 (ints quantity));
      ("score", pa_array pa_float32 (f32s score));
      ("latency_ms", pa_array pa_float64 (f64s latency_ms));
      ("rating", pa_array pa_float32 (f32s rating));
      ("is_refund", pa_array pa_bool (bools is_refund));
      ("is_mobile", pa_array pa_bool (bools is_mobile));
      ("country", pa_array pa_string (opt_strs country));
      ("channel", pa_array pa_string (strs channel));
      ("product_sku", pa_array pa_string (strs product_sku));
      ("url", pa_array pa_string (opt_strs url));
      ("payload", pa_array pa_string (strs payload));
      ("null_comment", pa_array pa_string all_nulls);
      ("null_amount", pa_array pa_float64 all_nulls);
      ("null_updated_at", pa_array pa_timestamp_ms all_nulls);
      ("null_flag", pa_array pa_bool all_nulls) ]).

(** The jitter array of a call, the third draw from the generator. *)
Definition jitter_of (n : nat) (g : G) : list Z :=
  (rng_integers 0 2000 n (rng_integers 1 50000000 n (rng_zipf 1.5 n g).2).2).1.
End Synthesizer.

(** ** Utilities *)

Definition Qltb (a b : Q) : bool := negb (Qle_bool b a).

(** Round to the nearest integer, ties to even. *)
Definition round_half_even (x : Q) : Z :=
  let fl := Qfloor x in
  let r := (x - inject_Z fl)%Q in
  if Qltb r (1 # 2) then fl
  else if Qltb (1 # 2) r then fl + 1
  else if Z.even fl then fl else fl + 1.

(** The format [{f:.2f}] of a float holding the rational [f]. *)
Definition format_2f (f : Q) : string :=
  let c := round_half_even (Qabs f * 100)%Q in
  let cents := c mod 100 in
  (if Qltb f 0 then "-" else EmptyString)
    ++ pretty (c / 100) ++ "."
    ++ (if cents <? 10 then "0" else EmptyString) ++ pretty cents.

Fixpoint human_bytes_from (f : Q) (units : list string) : string :=
  match units with
  | [] => format_2f f ++ " TB"
  | u :: rest =>
      if Qltb f 1024 || (match rest with [] => true | _ => false end)
      then format_2f f ++ " " ++ u
      else human_bytes_from (f / 1024)%Q rest
  end.

Definition human_bytes (n : Z) : string :=
  human_bytes_from (inject_Z n) ["B"; "KB"; "MB"; "GB"; "TB"].

Record WriterKwargs := mkKwargs {
  kw_compression : option string;
  kw_compression_level : option Z;
}.

Definition make_writer_kwargs (compression : option string) (compression_level : option Z)
  : WriterKwargs :=
  match compression with
  | Some c => mkKwargs (Some c) compression_level
  | None => mkKwargs None None
  end.

(** How a call ends: a returned value, a raised exception, or the model's
    iteration budget running out. *)
Inductive Outcome (A : Type) :=
| Return (a : A)
| Raised (e : Exception)
| OutOfFuel.
Arguments Return {A} a.
Arguments Raised {A} e.
Arguments OutOfFuel {A}.

(** How one pass of a loop ends. *)
Inductive Control :=
| Continue
| Stop (out : Outcome Z).

Inductive SinkOp :=
| OpOpen (path : string)
| OpWrite (path : string)
| OpClose (path : string).

Definition opens (ops : list SinkOp) : nat :=
  length (List.filter (fun op => match op with OpOpen _ => true | _ => false end) ops).
Definition closes (ops : list SinkOp) : nat :=
  length (List.filter (fun op => match op with OpClose _ => true | _ => false end) ops).

(** ** The output sink and the file system *)

Section Writer.
Context `{Generator}.

(** What is persisted at a path: the writer's configuration, the tables
    appended so far (one per [write_table] call) and whether the writer was
    closed. *)
Record File := mkFile {
  f_schema : list (string * DataType);
  f_use_dictionary : bool;
  f_kwargs : WriterKwargs;
  f_row_groups : list Table;
  f_closed : bool;
}.

(** pyarrow's ParquetWriter, as far as the loop observes it: opening and
    appending may fail, and the file has a size on disk. *)
Class Sink := {
  sink_open_error : string -> list (string * DataType) -> bool -> WriterKwargs -> option string;
  sink_write_error : File -> Table -> option string;
  st_size : File -> Z;
}.

(** A sink on which opening and appending always succeed. *)
Definition sink_never_fails `{Sink} : Prop :=
  (forall p sch d kw, sink_open_error p sch d kw = None)
  /\ (forall f t, sink_write_error f t = None).

Record World := mkWorld {
  fs : gmap string File;
  clock_ms : Z;                (* int(time.time() * 1000) at the time of the run *)
  sink_log : list SinkOp;
  stdout : list string;
}.

Definition set_fs (f : gmap string File -> gmap string File) (w : World) : World :=
  mkWorld (f (fs w)) (clock_ms w) (sink_log w) (stdout w).
Definition log_op (op : SinkOp) (w : World) : World :=
  mkWorld (fs w) (clock_ms w) (sink_log w ++ [op]) (stdout w).
Definition print (line : string) (w : World) : World :=
  mkWorld (fs w) (clock_ms w) (sink_log w) (stdout w ++ [line]).

Context `{Sink}.

(** [pq.ParquetWriter(where=path, schema=..., use_dictionary=..., **kwargs)]:
    a new, empty file at [path]; an open that fails is taken to leave the
    file system as it was. *)
Definition ParquetWriter (path : string) (sch : list (string * DataType))
           (use_dictionary : bool) (kw : WriterKwargs) (w : World) : result World :=
  match sink_open_error path sch use_dictionary kw with
  | Some msg => Raise (SinkFailure msg)
  | None =>
      Ok (log_op (OpOpen path)
            (set_fs (insert path (mkFile sch use_dictionary kw [] false)) w))
  end.

(** [writer.write_table(tbl)]: the table becomes the next row group of the
    file; pyarrow rejects a table whose schema is not the writer's. *)
Definition write_table (path : string) (tbl : Table) (w : World) : result World :=
  match fs w !! path with
  | None => Raise FileNotFoundError
  | Some f =>
      if negb (bool_decide (table_schema tbl = f_schema f))
      then Raise (ValueError "Table schema does not match schema used to create file")
      else match sink_write_error f tbl with
           | Some msg => Raise (SinkFailure msg)
           | None =>
               Ok (log_op (OpWrite path)
                     (set_fs (insert path
                                (mkFile (f_schema f) (f_use_dictionary f) (f_kwargs f)
                                        (f_row_groups f ++ [tbl]) (f_closed f))) w))
           end
  end.

Definition closed_file (f : File) : File :=
  mkFile (f_schema f) (f_use_dictionary f) (f_kwargs f) (f_row_groups f) true.

(** [writer.close()] *)
Definition close (path : string) (w : World) : World :=
  log_op (OpClose path) (set_fs (alter closed_file path) w).

(** [out_path.stat().st_size] *)
Definition stat_size (path : string) (w : World) : result Z :=
  match fs w !! path with
  | Some f => Ok (st_size f)
  | None => Raise FileNotFoundError
  end.

(** Bytes persisted at a path; nothing when there is no file. *)
Definition size_at (path : string) (w : World) : Z :=
  match fs w !! path with
  | Some f => st_size f
  | None => 0
  end.

(** The local variables of [write_to_target] that the loop updates. *)
Record Locals := mkLocals {
  writer : option string;
  row_groups : Z;
  base_id : Z;
  rng : G;
}.

(** [target_bytes * (1.0 + overshoot_pct)] (line 281), computed exactly. *)
Definition threshold (target_bytes : Z) (overshoot_pct : Q) : Q :=
  (inject_Z target_bytes * (1 + overshoot_pct))%Q.

Definition capacity_message (max_row_groups target_bytes size : Z) : string :=
  "Hit max_row_groups=" ++ pretty max_row_groups ++ " before reaching "
    ++ human_bytes target_bytes ++ " (got " ++ human_bytes size ++ ").".

Section Loop.
Variables (out_path : string) (target_bytes row_group_rows : Z)
          (use_dictionary : bool) (writer_kwargs : WriterKwargs)
          (overshoot_pct : Q) (max_row_groups : Z) (start_ts_ms : Z).

(** One pass through the body of [while True:] (lines 264-286): it ends
    the loop with a [return] or an exception, or falls through to the
    next pass. *)
Definition iteration (st : Locals) (w : World) : Control * Locals * World :=
  match make_rowgroup row_group_rows (base_id st) start_ts_ms (rng st) with
  | Raise e => (Stop (Raised e), st, w)
  | Ok (tbl, rng') =>
      let st := mkLocals (writer st) (row_groups st) (base_id st) rng' in
      let opened :=
        match writer st with
        | Some p => Ok (p, w)
        | None =>
            result_bind
              (ParquetWriter out_path (table_schema tbl) use_dictionary writer_kwargs w)
              (fun w' => Ok (out_path, w'))
        end in
      match opened with
      | Raise e => (Stop (Raised e), st, w)
      | Ok (p, w) =>
          let st := mkLocals (Some p) (row_groups st) (base_id st) (rng st) in
          match write_table p tbl w with
          | Raise e => (Stop (Raised e), st, w)
          | Ok w =>
              let st := mkLocals (writer st) (row_groups st + 1)
                                 (base_id st + row_group_rows) (rng st) in
              match stat_size out_path w with
              | Raise e => (Stop (Raised e), st, w)
              | Ok size =>
                  if Qle_bool (threshold target_bytes overshoot_pct) (inject_Z size)
                  then (Stop (Return size), st, w)
                  else if max_row_groups <=? row_groups st
                  then (Stop (Raised (RuntimeError
                          (capacity_message max_row_groups target_bytes size))), st, w)
                  else (Continue, st, w)
              end
          end
      end
  end.

(** [while True:]; [fuel] bounds the number of passes the model runs. *)
Fixpoint loop (fuel : nat) (st : Locals) (w : World) : Outcome Z * Locals * World :=
  match fuel with
  | O => (OutOfFuel, st, w)
  | S fuel' =>
      match iteration st w with
      | (Stop out, st', w') => (out, st', w')
      | (Continue, st', w') => loop fuel' st' w'
      end
  end.

(** The loop heads a run passes through: [reaches st w st' w'] when the
    passes from [(st, w)] fall through to [(st', w')]. *)
Inductive reaches (st : Locals) (w : World) : Locals -> World -> Prop :=
| reaches_here : reaches st w st w
| reaches_step st1 w1 st2 w2 :
    reaches st w st1 w1 ->
    iteration st1 w1 = (Continue, st2, w2) ->
    reaches st w st2 w2.

(** The batch written by pass [i] (counted from 0). *)
Definition batch_ok (i : nat) (tbl : Table) : Prop :=
  cells_of "event_id" tbl = ints (seqZ (Z.of_nat i * row_group_rows) row_group_rows)
  /\ Forall (fun c => length (col_cells c) = Z.to_nat row_group_rows) tbl
  /\ table_schema tbl = schema.

(** The loop invariant, relative to the world [w0] the loop started in. *)
Record loop_inv (w0 : World) (st : Locals) (w : World) : Prop := {
  inv_clock : clock_ms w = clock_ms w0;
  inv_stdout : stdout w = stdout w0;
  inv_frame : forall p, p <> out_path -> fs w !! p = fs w0 !! p;
  inv_count : 0 <= row_groups st;
  inv_base : base_id st = row_groups st * row_group_rows;
  inv_file :
    match writer st with
    | None => row_groups st = 0 /\ w = w0
    | Some p =>
        p = out_path /\
        exists f,
          fs w !! out_path = Some f
          /\ f_closed f = false
          /\ f_schema f = schema
          /\ f_use_dictionary f = use_dictionary
          /\ f_kwargs f = writer_kwargs
          /\ length (f_row_groups f) = Z.to_nat (row_groups st)
          /\ (forall i tbl, f_row_groups f !! i = Some tbl -> batch_ok i tbl)
          /\ sink_log w =
               (sink_log w0 ++ OpOpen out_path
                  :: replicate (Z.to_nat (row_groups st)) (OpWrite out_path))%list
    end;
}.
End Loop.

Definition unlink_if_exists (path : string) (w : World) : World :=
  match fs w !! path with
  | Some _ => set_fs (delete path) w
  | None => w
  end.

(** The [try:] block of [write_to_target] with what precedes it
    (lines 250-286). *)
Definition try_block (fuel : nat) (out_path : string) (target_bytes row_group_rows : Z)
           (compression : option string) (compression_level : option Z)
           (use_dictionary : bool) (seed : Z) (overshoot_pct : Q) (max_row_groups : Z)
           (w : World) : Outcome Z * Locals * World :=
  let w := unlink_if_exists out_path w in
  let rng := default_rng seed in
  let start_ts_ms := clock_ms w in
  let st := mkLocals None 0 0 rng in
  let writer_kwargs := make_writer_kwargs compression compression_level in
  loop out_path target_bytes row_group_rows use_dictionary writer_kwargs
       overshoot_pct max_row_groups start_ts_ms fuel st w.

(** The [finally:] block (lines 287-289). *)
Definition finally_block (st : Locals) (w : World) : World :=
  match writer st with
  | Some p => close p w
  | None => w
  end.

Definition write_to_target (fuel : nat) (out_path : string) (target_bytes row_group_rows : Z)
           (compression : option string) (compression_level : option Z)
           (use_dictionary : bool) (seed : Z) (overshoot_pct : Q) (max_row_groups : Z)
           (w : World) : Outcome Z * World :=
  let '(out, st, w) :=
    try_block fuel out_path target_bytes row_group_rows compression compression_level
              use_dictionary seed overshoot_pct max_row_groups w in
  (out, finally_block st w).

(** ** The invocation surface, after argument parsing *)

Record Args := mkArgs {
  out_dir : string;
  targets : list Z;                  (* [parse_size(x)] of each target *)
  compression : option string;       (* [compression_arg(args.compression)] *)
  compression_level : option Z;
  arg_row_group_rows : Z;
  dictionary : bool;
  arg_seed : Z;
  overshoot : Q;
  arg_max_row_groups : Z;
}.

Definition codec_tag (a : Args) : string :=
  match compression a with
  | Some EmptyString | None => "none"
  | Some c => c
  end.

Definition lvl_tag (a : Args) : string :=
  match compression_level a, compression a with
  | Some l, Some _ => "-lvl" ++ pretty l
  | _, _ => EmptyString
  end.

Fixpoint str_replace_char (c : ascii) (by_ : string) (s : string) : string :=
  match s with
  | EmptyString => EmptyString
  | String x rest =>
      (if Ascii.eqb x c then by_ else String x EmptyString) ++ str_replace_char c by_ rest
  end.

Definition fname (a : Args) (t : Z) : string :=
  "realish_"
    ++ str_replace_char "."%char "_" (str_replace_char " "%char EmptyString (human_bytes t))
    ++ "_" ++ codec_tag a ++ lvl_tag a ++ ".parquet".

Definition newline : string := String "010"%char EmptyString.

(** The body of [for t in targets] up to the call (lines 363-376). *)
Definition write_target (fuel : nat) (a : Args) (t : Z) (w : World) : Outcome Z * World :=
  let name := fname a t in
  let out_path := out_dir a ++ "/" ++ name in
  let w := print (newline ++ "Writing " ++ name ++ " (target " ++ human_bytes t ++ ") ...") w in
  write_to_target fuel out_path t (arg_row_group_rows a) (compression a)
    (compression_level a) (dictionary a) (arg_seed a) (overshoot a)
    (arg_max_row_groups a) w.

(** The loop [for t in targets] of [main] (lines 362-377): an exception of
    [write_to_target] is not caught. *)
Fixpoint main_loop (fuel : nat) (a : Args) (ts : list Z) (w : World) : Outcome unit * World :=
  match ts with
  | [] => (Return tt, w)
  | t :: rest =>
      match write_target fuel a t w with
      | (Return final_size, w) =>
          main_loop fuel a rest (print ("Done: " ++ human_bytes final_size) w)
      | (Raised e, w) => (Raised e, w)
      | (OutOfFuel, w) => (OutOfFuel, w)
      end
  end.

Definition main (fuel : nat) (a : Args) (w : World) : Outcome unit * World :=
  main_loop fuel a (targets a) w.
End Writer.

(** ** The batches of a run *)

Section Stream.
Context `{Generator}.

(** The batches that [k] successive calls of [make_rowgroup] yield when each
    starts from the generator state and the base id the one before left
    (lines 264-266 and 277); the list ends at a call that raises. *)
Fixpoint batches (k : nat) (row_group_rows base_id start_ts_ms : Z) (g : G) : list Table :=
  match k with
  | O => []
  | S k' =>
      match make_rowgroup row_group_rows base_id start_ts_ms g with
      | Ok (tbl, g') =>
          tbl :: batches k' row_group_rows (base_id + row_group_rows) start_ts_ms g'
      | Raise _ => []
      end
  end.

(** The row groups persisted at a path; none when there is no file. *)
Definition row_groups_at (path : string) (w : World) : list Table :=
  match fs w !! path with
  | Some f => f_row_groups f
  | None => []
  end.

End Stream.

(** The two lines [main] prints for a target that was written (lines 365
    and 377). *)
Definition target_lines (a : Args) (t size : Z) : list string :=
  [ newline ++ "Writing " ++ fname a t ++ " (target " ++ human_bytes t ++ ") ...";
    "Done: " ++ human_bytes size ].

(** ** Characters and units *)

(** Whether every character of a string passes a test. *)
Fixpoint all_chars (P : ascii -> bool) (s : string) : bool :=
  match s with
  | EmptyString => true
  | String c rest => P c && all_chars P rest
  end.

Definition is_digit (c : ascii) : bool :=
  let n := N_of_ascii c in (48 <=? n)%N && (n <=? 57)%N.

Definition is_ascii (c : ascii) : bool := (N_of_ascii c <? 128)%N.

(** The units of [human_bytes], in the order of its loop. *)
Definition units : list string := ["B"; "KB"; "MB"; "GB"; "TB"].

(** ** The command line: sizes and codec names

    The strings of the command line are taken to be ASCII, which is what
    sizes and codec names are made of: a character above 127 is left alone
    by [upper] and [lower] and is neither white space nor a digit.  [int]
    and [float] are modelled on the strings [parse_size] passes them, from
    which it has removed the underscores.  A float is an exact rational
    rounded to the nearest double. *)

(** What [str.strip] removes. *)
Definition is_space (c : ascii) : bool :=
  let n := N_of_ascii c in ((9 <=? n) && (n <=? 13) || (28 <=? n) && (n <=? 32))%N.

(** What [int] and [float] skip around a number. *)
Definition is_c_space (c : ascii) : bool :=
  let n := N_of_ascii c in ((9 <=? n) && (n <=? 13) || (n =? 32))%N.

Fixpoint lstrip (P : ascii -> bool) (s : string) : string :=
  match s with
  | EmptyString => EmptyString
  | String c rest => if P c then lstrip P rest else s
  end.

Fixpoint rstrip (P : ascii -> bool) (s : string) : string :=
  match s with
  | EmptyString => EmptyString
  | String c rest =>
      match rstrip P rest with
      | EmptyString => if P c then EmptyString else String c EmptyString
      | rest' => String c rest'
      end
  end.

Definition strip (s : string) : string := rstrip is_space (lstrip is_space s).

Definition upper_char (c : ascii) : ascii :=
  let n := N_of_ascii c in
  if ((97 <=? n) && (n <=? 122))%N then ascii_of_N (n - 32) else c.

Definition lower_char (c : ascii) : ascii :=
  let n := N_of_ascii c in
  if ((65 <=? n) && (n <=? 90))%N then ascii_of_N (n + 32) else c.

Fixpoint str_map (f : ascii -> ascii) (s : string) : string :=
  match s with
  | EmptyString => EmptyString
  | String c rest => String (f c) (str_map f rest)
  end.

Definition upper : string -> string := str_map upper_char.
Definition lower : string -> string := str_map lower_char.

(** [s.endswith(suffix)] *)
Definition endswith (s suffix : string) : bool :=
  bool_decide (list_ascii_of_string suffix `suffix_of` list_ascii_of_string s).

(** [s[:-n]] for [0 < n]. *)
Definition drop_end (n : nat) (s : string) : string :=
  substring 0 (String.length s - n) s.

(** A Python float: a double, up to the sign of zero. *)
Inductive Float :=
| FNan
| FInf (negative : bool)
| FFin (q : Q).

(** The largest [e] with [2 ^ e <= q], for [0 < q]. *)
Definition Qlog2 (q : Q) : Z :=
  let d := Z.log2 (Qnum q) - Z.log2 (Z.pos (Qden q)) in
  if Qle_bool (2 ^ d) q then d else d - 1.

(** The double nearest to a rational, ties to the even significand:
    53 bits above [2 ^ -1022], multiples of [2 ^ -1074] below, and infinity
    from [2 ^ 1024 - 2 ^ 970] on. *)
Definition round64 (q : Q) : Float :=
  if Qeq_bool q 0 then FFin 0
  else
    let a := Qabs q in
    let e := Z.max (Qlog2 a) (- 1022) in
    let ulp := (2 ^ (e - 52))%Q in
    let r := (inject_Z (round_half_even (a / ulp)) * ulp)%Q in
    if Qle_bool (2 ^ 1024) r then FInf (Qltb q 0)
    else FFin (Qred (if Qltb q 0 then - r else r)).

(** [x * y] on floats. *)
Definition float_mul (x y : Float) : Float :=
  match x, y with
  | FNan, _ | _, FNan => FNan
  | FInf s, FInf t => FInf (xorb s t)
  | FInf s, FFin q | FFin q, FInf s =>
      if Qeq_bool q 0 then FNan else FInf (xorb s (Qltb q 0))
  | FFin p, FFin q => round64 (p * q)
  end.

(** [float(n)] of an integer below [2 ^ 1024] in size. *)
Definition float_of_int (n : Z) : Float := round64 (inject_Z n).

(** [int(x)] of a float: towards zero. *)
Definition int_of_float (x : Float) : result Z :=
  match x with
  | FNan => Raise (ValueError "cannot convert float NaN to integer")
  | FInf _ => Raise OverflowError
  | FFin q => Ok (if Qltb q 0 then Qceiling q else Qfloor q)
  end.

Definition digit_value (c : ascii) : N := (N_of_ascii c - 48)%N.

(** Reads the digits a string starts with: the number they continue from
    [acc], how many there are, and what follows them. *)
Fixpoint read_digits (s : string) (acc : N) (count : nat) : N * nat * string :=
  match s with
  | EmptyString => (acc, count, EmptyString)
  | String c rest =>
      if is_digit c then read_digits rest (acc * 10 + digit_value c) (S count)
      else (acc, count, s)
  end.

(** An optional sign in front. *)
Definition read_sign (s : string) : bool * string :=
  match s with
  | String "-" rest => (true, rest)
  | String "+" rest => (false, rest)
  | _ => (false, s)
  end.

Definition strip_c (s : string) : string := rstrip is_c_space (lstrip is_c_space s).

(** [int(s)], base 10.  The interpreter's limit on the number of digits
    (4300 since Python 3.11) is left out. *)
Definition py_int (s : string) : result Z :=
  let '(negative, body) := read_sign (strip_c s) in
  match read_digits body 0 0 with
  | (n, S _, EmptyString) => Ok (if negative then - Z.of_N n else Z.of_N n)
  | _ => Raise (ValueError "invalid literal for int() with base 10")
  end.

(** A decimal number with an optional fraction and exponent. *)
Definition read_decimal (s : string) : option Q :=
  let '(i, ni, r1) := read_digits s 0 0 in
  let '(m, nf, r2) :=
    match r1 with
    | String "." r => read_digits r i 0
    | _ => (i, 0%nat, r1)
    end in
  match (ni + nf)%nat with
  | O => None
  | S _ =>
      let x := (inject_Z (Z.of_N m) / inject_Z (10 ^ Z.of_nat nf))%Q in
      match r2 with
      | EmptyString => Some x
      | String c r3 =>
          if Ascii.eqb c "e" || Ascii.eqb c "E" then
            let '(negative, r4) := read_sign r3 in
            match read_digits r4 0 0 with
            | (ex, S _, EmptyString) =>
                Some (if negative then x / inject_Z (10 ^ Z.of_N ex)
                      else x * inject_Z (10 ^ Z.of_N ex))%Q
            | _ => None
            end
          else None
      end
  end.

(** [float(s)] *)
Definition py_float (s : string) : result Float :=
  let '(negative, body) := read_sign (strip_c s) in
  let word := upper body in
  if String.eqb word "INF" || String.eqb word "INFINITY" then Ok (FInf negative)
  else if String.eqb word "NAN" then Ok FNan
  else match read_decimal body with
       | Some q => Ok (round64 (if negative then - q else q))
       | None => Raise (ValueError "could not convert string to float")
       end.

Definition mults : gmap string Z :=
  list_to_map [("B", 1); ("KB", 1024); ("MB", 1024 ^ 2); ("GB", 1024 ^ 3); ("TB", 1024 ^ 4)].

(** The loop of [parse_size] over the units (lines 18-23). *)
Fixpoint parse_size_from (unit_names : list string) (s : string) : result Z :=
  match unit_names with
  | [] => py_int s
  | unit :: rest =>
      if endswith s unit
      then result_bind (py_float (strip (drop_end (String.length unit) s)))
             (fun num => int_of_float (float_mul num (float_of_int (mults !!! unit))))
      else parse_size_from rest s
  end.

Definition parse_size (s : string) : result Z :=
  let s := str_replace_char "_" EmptyString (upper (strip s)) in
  parse_size_from ["TB"; "GB"; "MB"; "KB"; "B"] s.

(** [s.split(",")] *)
Fixpoint split_on (sep : ascii) (s : string) : list string :=
  match s with
  | EmptyString => [EmptyString]
  | String c rest =>
      if Ascii.eqb c sep then EmptyString :: split_on sep rest
      else match split_on sep rest with
           | piece :: pieces => String c piece :: pieces
           | [] => [String c EmptyString]
           end
  end.

(** [[parse_size(x) for x in pieces if x.strip()]]: the first size that does
    not parse raises. *)
Fixpoint parse_sizes (pieces : list string) : result (list Z) :=
  match pieces with
  | [] => Ok []
  | x :: rest =>
      match strip x with
      | EmptyString => parse_sizes rest
      | _ => result_bind (parse_size x) (fun t =>
             result_bind (parse_sizes rest) (fun ts => Ok (t :: ts)))
      end
  end.

(** The targets of the command line (line 347). *)
Definition parse_targets (arg : string) : result (list Z) :=
  parse_sizes (split_on "," arg).

Definition compression_arg (name : string) : option string :=
  let n := lower name in
  if existsb (String.eqb n) ["none"; "uncompressed"; "off"] then None else Some n.

(** ** Executable instances for running the model

    A rational stand-in for the floats, a linear congruential generator in
    place of numpy's PCG64, and a fake sink whose size grows by a configured
    number of bytes per row. *)

Module Fake.

Definition round_to (decimals : Z) (x : Q) : Q :=
  let scale := inject_Z (10 ^ decimals) in
  (inject_Z (round_half_even (x * scale)) / scale)%Q.

#[export] Instance floats : FloatOps := {|
  float64 := Q;
  float32 := Q;
  f64_of_Q := fun q => q;
  f64_round := round_to;
  f64_mul := Qmult;
  f64_add := Qplus;
  f64_ltb := Qltb;
  f64_to_f32 := Qred;
|}.

Definition lcg_next (x : Z) : Z := (x * 1103515245 + 12345) mod 2 ^ 31.

Fixpoint lcg_draws (n : nat) (x : Z) : list Z * Z :=
  match n with
  | O => ([], x)
  | S n' =>
      let x' := lcg_next x in
      let '(l, xf) := lcg_draws n' x' in
      (x' :: l, xf)
  end.

Definition draws {A} (f : Z -> A) (n : nat) (x : Z) : list A * Z :=
  let '(l, xf) := lcg_draws n x in (map f l, xf).

Definition unit_interval (v : Z) : Q := (v mod 1000) # 1000.

Fixpoint choice_rows (vals : list string) (rows cols : nat) (x : Z)
  : list (list string) * Z :=
  match rows with
  | O => ([], x)
  | S r =>
      let '(row, x1) :=
        draws (fun v => nth (Z.to_nat (v mod Z.of_nat (length vals))) vals EmptyString)
              cols x in
      let '(rest, x2) := choice_rows vals r cols x1 in
      (row :: rest, x2)
  end.

#[export] Instance generator : Generator := {|
  G := Z;
  default_rng := fun seed => seed;
  rng_zipf := fun _ => draws (fun v => 1 + v mod 7);
  rng_integers := fun lo hi => draws (fun v => lo + v mod (hi - lo));
  rng_lognormal := fun _ _ => draws (fun v => inject_Z (v mod 100));
  rng_geometric := fun _ => draws (fun v => 1 + v mod 5);
  rng_standard_normal := draws (fun v => inject_Z (v mod 7 - 3));
  rng_exponential := fun s => draws (fun v => (s * unit_interval v)%Q);
  rng_beta := fun _ _ => draws unit_interval;
  rng_random := draws unit_interval;
  rng_choice := choice_rows;
|}.

(** A sink that keeps [bytes_per_row] bytes for every row after a 4-byte
    header, and rejects the append number [fail_at] (counted from 0). *)
Definition sink (bytes_per_row : Z) (fail_at : option nat) : Sink := {|
  sink_open_error := fun _ _ _ _ => None;
  sink_write_error := fun f _ =>
    if bool_decide (fail_at = Some (length (f_row_groups f)))
    then Some "disk full" else None;
  st_size := fun f =>
    4 + bytes_per_row * Z.of_nat (list_sum (map num_rows (f_row_groups f)));
|}.

(** The sink used by the examples: 100 bytes per row, no failures. *)
#[export] Instance plain_sink : Sink := sink 100 None.

(** An empty file system, read at the given clock value. *)
Definition world (clock : Z) : World := mkWorld ∅ clock [] [].

End Fake.

(** * Properties *)

(** ** Results, integers and arrays *)

Lemma in_int64_spec z : in_int64 z = true <-> - 2 ^ 63 <= z < 2 ^ 63.
Proof. unfold in_int64. rewrite andb_true_iff, Z.leb_le, Z.ltb_lt. tauto. Qed.

Lemma in_int16_spec z : in_int16 z = true <-> - 2 ^ 15 <= z < 2 ^ 15.
Proof. unfold in_int16. rewrite andb_true_iff, Z.leb_le, Z.ltb_lt. tauto. Qed.

Lemma wrap_range w z : 0 < w -> - 2 ^ (w - 1) <= wrap w z < 2 ^ (w - 1).
Proof.
  intros Hw. unfold wrap.
  assert (E : 2 ^ w = 2 * 2 ^ (w - 1)).
  { replace w with (Z.succ (w - 1)) at 1 by lia. apply Z.pow_succ_r. lia. }
  assert (0 < 2 ^ (w - 1)) by (apply Z.pow_pos_nonneg; lia).
  pose proof (Z.mod_pos_bound (z + 2 ^ (w - 1)) (2 ^ w)). lia.
Qed.

Lemma wrap_small w z : 0 < w -> - 2 ^ (w - 1) <= z < 2 ^ (w - 1) -> wrap w z = z.
Proof.
  intros Hw Hz. unfold wrap.
  assert (E : 2 ^ w = 2 * 2 ^ (w - 1)).
  { replace w with (Z.succ (w - 1)) at 1 by lia. apply Z.pow_succ_r. lia. }
  rewrite Z.mod_small by lia. lia.
Qed.

Lemma wrap64_in_int64 z : in_int64 (wrap64 z) = true.
Proof. apply in_int64_spec. apply (wrap_range 64). lia. Qed.

Lemma wrap16_in_int16 z : in_int16 (wrap16 z) = true.
Proof. apply in_int16_spec. apply (wrap_range 16). lia. Qed.

Lemma np_arange_inv start stop l :
  np_arange start stop = Ok l ->
  in_int64 start = true /\ in_int64 stop = true /\ l = seqZ start (stop - start).
Proof.
  unfold np_arange. destruct (in_int64 start), (in_int64 stop); simpl; intros E;
    inversion E; auto.
Qed.

Lemma np_add_scalar_inv a xs l :
  np_add_scalar a xs = Ok l ->
  in_int64 a = true /\ l = map (fun x => wrap64 (a + x)) xs.
Proof. unfold np_add_scalar. destruct (in_int64 a); intros E; inversion E; auto. Qed.

Lemma index_ok {A} (vals : list A) i :
  0 <= i < Z.of_nat (length vals) -> exists v, index vals i = Ok v.
Proof.
  intros Hi. unfold index.
  destruct (i <? 0) eqn:E; [apply Z.ltb_lt in E; lia|].
  replace ((0 <=? i) && (i <? Z.of_nat (length vals))) with true
    by (symmetry; apply andb_true_iff; rewrite Z.leb_le, Z.ltb_lt; lia).
  destruct (vals !! Z.to_nat i) eqn:L; [eauto|].
  apply lookup_ge_None in L. lia.
Qed.

Lemma take_ok {A} (vals : list A) idx :
  Forall (fun i => 0 <= i < Z.of_nat (length vals)) idx ->
  exists vs, take vals idx = Ok vs /\ length vs = length idx.
Proof.
  induction 1 as [|i idx Hi _ (vs & E & L)]; simpl; [eauto|].
  destruct (index_ok vals i Hi) as (v & ->). rewrite E. simpl.
  exists (v :: vs). simpl. auto.
Qed.

Lemma take_length {A} (vals : list A) idx vs :
  take vals idx = Ok vs -> length vs = length idx.
Proof.
  revert vs. induction idx as [|i idx IH]; simpl; intros vs E.
  - inversion E. reflexivity.
  - destruct (index vals i); [|discriminate]. simpl in E.
    destruct (take vals idx); [|discriminate]. simpl in E.
    inversion E. simpl. f_equal. auto.
Qed.

Lemma apply_along_axis_join_inv rows l :
  apply_along_axis_join rows = Ok l -> rows <> [] /\ length l = length rows.
Proof.
  destruct rows; simpl; [discriminate|]. intros E. inversion E. split; [done|].
  simpl. by rewrite length_map.
Qed.

Lemma two_letter_length x l : two_letter x = Ok l -> length l = length x.
Proof.
  unfold two_letter.
  destruct (take lowercase (map (fun v => wrap 32 (v / 26)) x)) as [la|] eqn:Ea;
    [|discriminate]. simpl.
  destruct (take lowercase (map (fun v => wrap 32 (v mod 26)) x)) as [lb|] eqn:Eb;
    [|discriminate]. simpl.
  intros E. inversion E. apply take_length in Ea, Eb.
  unfold char_add, char_add_r. rewrite length_zip_with, !length_map in *. lia.
Qed.

Lemma two_letter_ok x :
  Forall (fun k => 0 <= k < 26 ^ 2) x -> exists l, two_letter x = Ok l.
Proof.
  intros Hx. unfold two_letter.
  destruct (take_ok lowercase (map (fun v => wrap 32 (v / 26)) x)) as (la & -> & _).
  { apply Forall_map. eapply Forall_impl; [exact Hx|]. intros k Hk. simpl in *.
    assert (0 <= k / 26 < 26) by (split; [apply Z.div_pos|apply Z.div_lt_upper_bound]; lia).
    rewrite wrap_small; simpl; lia. }
  destruct (take_ok lowercase (map (fun v => wrap 32 (v mod 26)) x)) as (lb & -> & _).
  { apply Forall_map. eapply Forall_impl; [exact Hx|]. intros k Hk. simpl in *.
    pose proof (Z.mod_pos_bound k 26).
    rewrite wrap_small; simpl; lia. }
  simpl. eauto.
Qed.

(** ** Arrow arrays and tables *)

Section TableFacts.
Context `{FloatOps}.

Lemma pa_array_inv ty cells r :
  pa_array ty cells = Ok r ->
  r = (ty, cells) /\ forallb (conforms ty) cells = true.
Proof.
  unfold pa_array. destruct (forallb (conforms ty) cells); intros E; inversion E; auto.
Qed.

Lemma pa_array_ok ty cells :
  Forall (fun c => conforms ty c = true) cells -> pa_array ty cells = Ok (ty, cells).
Proof.
  intros Hc. unfold pa_array.
  replace (forallb (conforms ty) cells) with true; [done|].
  symmetry. apply forallb_forall. intros x Hx.
  rewrite List.Forall_forall in Hc. auto.
Qed.

(** A table that was built holds, column by column, the arrays it was given,
    and its columns have one length. *)
Lemma pa_table_inv cols t :
  pa_table cols = Ok t ->
  Forall2 (fun nr c => nr.2 = Ok (col_type c, col_cells c) /\ col_name c = nr.1) cols t
  /\ Forall (fun c => length (col_cells c) = num_rows t) t.
Proof.
  revert t. induction cols as [|[name r] cols IH]; simpl; intros t E.
  - inversion E. split; constructor.
  - destruct r as [[ty cells]|]; [|discriminate]. simpl in E.
    destruct (pa_table cols) as [t'|]; [|discriminate]. simpl in E.
    destruct (IH t' eq_refl) as [IH1 IH2].
    destruct t' as [|c t'].
    + inversion E; subst. split; repeat constructor. inversion IH1; subst. constructor.
    + destruct (Nat.eqb _ _) eqn:L; [|discriminate]. apply Nat.eqb_eq in L.
      inversion E; subst. split.
      * constructor; [simpl; auto | exact IH1].
      * constructor; [reflexivity|]. simpl in *. rewrite L. exact IH2.
Qed.

Lemma pa_table_ok (cols : list (string * result (DataType * list (option Scalar)))) n :
  Forall (fun nr => exists ty cells, nr.2 = Ok (ty, cells) /\ length cells = n) cols ->
  exists t, pa_table cols = Ok t.
Proof.
  induction 1 as [|[name r] cols (ty & cells & Hr & Hl) Hcols (t & IH)]; simpl; [eauto|].
  simpl in Hr. subst r. simpl. rewrite IH. simpl.
  destruct t as [|c t]; [eauto|].
  assert (length (col_cells c) = n) as ->; [|rewrite Hl, Nat.eqb_refl; eauto].
  destruct cols as [|[name' r'] cols]; [simpl in IH; inversion IH|].
  inversion Hcols as [|? ? (ty' & cells' & Hr' & Hl') _]; subst.
  simpl in Hr'. subst r'. simpl in IH.
  destruct (pa_table cols) as [[|c' t']|]; simpl in IH;
    [inversion IH; by subst | | discriminate].
  destruct (Nat.eqb _ _); inversion IH. by subst.
Qed.
End TableFacts.

(** ** The synthesizer *)

Section SynthesizerFacts.
Context `{Generator}.

Lemma bind_inv {A B} (m : M A) (k : A -> M B) g r :
  bind m k g = Ok r -> exists a g1, m g = Ok (a, g1) /\ k a g1 = Ok r.
Proof. unfold bind. destruct (m g) as [[a g1]|]; [eauto|discriminate]. Qed.

Lemma lift_inv {A} (r : result A) g a g1 : lift r g = Ok (a, g1) -> r = Ok a /\ g1 = g.
Proof. unfold lift. destruct r; intros E; inversion E; auto. Qed.

Lemma draw_inv {A} n (d : nat -> G -> list A * G) g l g1 :
  draw n d g = Ok (l, g1) ->
  0 <= n /\ l = (d (Z.to_nat n) g).1 /\ g1 = (d (Z.to_nat n) g).2.
Proof.
  unfold draw. destruct (n <? 0) eqn:E; [discriminate|].
  apply Z.ltb_ge in E. intros E'. inversion E'. auto.
Qed.

Ltac invert_step Hrun :=
  let Hm := fresh "Hm" in
  apply bind_inv in Hrun as (? & ? & Hm & Hrun);
  first [ apply draw_inv in Hm as (? & ? & ?) | apply lift_inv in Hm as (Hm & ?) ];
  cbv beta zeta in Hrun.

Ltac invert_column Hcols :=
  let c := fresh "c" in
  let Harr := fresh "Harr" in
  let Hname := fresh "Hname" in
  apply Forall2_cons_inv_l in Hcols as (c & ? & [Harr Hname] & Hcols & ->);
  destruct c as [? ? ?]; simpl in Harr, Hname;
  apply pa_array_inv in Harr as [Harr ?];
  injection Harr as -> ->; subst.

(** What a batch is made of, read off a successful call. *)
Lemma make_rowgroup_inv n b s g t g' :
  make_rowgroup n b s g = Ok (t, g') ->
  exists (user session : list Z) (price : list float64) (quantity : list Z)
         (score : list float32) (latency : list float64) (rating : list float32)
         (refund mobile : list bool) (country channel sku url payload : list string)
         (g1 : G),
    let N := Z.to_nat n in
    t = [ mkColumn "event_id" pa_int64 (ints (seqZ b n));
          mkColumn "user_id" pa_int64 (ints user);
          mkColumn "session_id" pa_int64 (ints session);
          mkColumn "event_ts" pa_timestamp_ms
            (ints (np_add (map (fun x => wrap64 (s + x))
                               (map (fun i => i mod week_ms) (seqZ b n)))
                          (jitter_of N g)));
          mkColumn "price" pa_float64 (f64s price);
          mkColumn "quantity" pa_int16 (ints quantity);
          mkColumn "score" pa_float32 (f32s score);
          mkColumn "latency_ms" pa_float64 (f64s latency);
          mkColumn "rating" pa_float32 (f32s rating);
          mkColumn "is_refund" pa_bool (bools refund);
          mkColumn "is_mobile" pa_bool (bools mobile);
          mkColumn "country" pa_string
            (opt_strs (mask_none (lt_lit 0.01 (rng_random N (rng_random N g1).2).1) country));
          mkColumn "channel" pa_string (strs channel);
          mkColumn "product_sku" pa_string (strs sku);
          mkColumn "url" pa_string
            (opt_strs (mask_none (lt_lit 0.03 (rng_random N g1).1) url));
          mkColumn "payload" pa_string (strs payload);
          mkColumn "null_comment" pa_string (replicate N None);
          mkColumn "null_amount" pa_float64 (replicate N None);
          mkColumn "null_updated_at" pa_timestamp_ms (replicate N None);
          mkColumn "null_flag" pa_bool (replicate N None) ]
    /\ Forall (fun c => length (col_cells c) = N) t
    /\ well_typed t = true
    /\ 0 <= n /\ in_int64 b = true /\ in_int64 (b + n) = true /\ in_int64 s = true.
Proof.
  intros Hrun. unfold make_rowgroup in Hrun.
  do 31 invert_step Hrun.
  apply lift_inv in Hrun as [Hrun ->].
  apply np_arange_inv in Hm as (Hb & Hbn & ->).
  apply np_add_scalar_inv in Hm0 as (Hs & ->).
  replace (b + n - b) with n in * by lia.
  apply pa_table_inv in Hrun as [Hcols Hlen].
  do 20 invert_column Hcols.
  apply Forall2_nil_inv_l in Hcols as ->.
  do 15 eexists. cbv zeta. split; [reflexivity|].
  split; [|split; [|auto]].
  - eapply Forall_impl; [exact Hlen|]. intros c Hc. rewrite Hc.
    cbn [num_rows col_cells]. unfold ints. by rewrite length_map, length_seqZ.
  - unfold well_typed. cbn [forallb col_type col_cells].
    repeat match goal with
           | Hf : forallb _ _ = true |- _ => rewrite Hf; clear Hf
           end.
    reflexivity.
Qed.
End SynthesizerFacts.

Section Totality.
Context `{GeneratorLaws}.

Lemma bind_draw {A B} n (d : nat -> G -> list A * G) (k : list A -> M B) g :
  0 <= n -> bind (draw n d) k g = k (d (Z.to_nat n) g).1 (d (Z.to_nat n) g).2.
Proof.
  intros Hn. unfold bind, draw.
  destruct (n <? 0) eqn:E; [apply Z.ltb_lt in E; lia|]. reflexivity.
Qed.

Lemma bind_lift {A B} (r : result A) (k : A -> M B) g a :
  r = Ok a -> bind (lift r) k g = k a g.
Proof. intros ->. reflexivity. Qed.

Lemma np_add_in_int64 xs ys : Forall (fun z => in_int64 z = true) (np_add xs ys).
Proof.
  unfold np_add. revert ys. induction xs as [|x xs IH]; intros [|y ys]; simpl;
    constructor; auto using wrap64_in_int64.
Qed.

Ltac run_draw := rewrite bind_draw by lia; cbv beta zeta.
Ltac run_take :=
  match goal with
  | |- context [lift (take ?vals ?idx)] =>
      let E := fresh "Etake" in
      let L := fresh "Ltake" in
      destruct (take_ok vals idx) as (? & E & L);
      [ apply integers_range; simpl; lia
      | rewrite (bind_lift _ _ _ _ E); cbv beta zeta;
        rewrite integers_length in L ]
  end.

Lemma apply_along_axis_join_ok rows :
  rows <> [] -> exists l, apply_along_axis_join rows = Ok l /\ length l = length rows.
Proof.
  destruct rows as [|r0 rows]; [done|]. intros _. simpl. eexists. split; [reflexivity|].
  simpl. by rewrite length_map.
Qed.

Ltac run_join :=
  match goal with
  | |- context [lift (apply_along_axis_join ?rows)] =>
      let E := fresh "Ejoin" in
      let L := fresh "Ljoin" in
      destruct (apply_along_axis_join_ok rows) as (? & E & L);
      [ intros E; apply (f_equal length) in E; rewrite choice_length in E; simpl in E; lia
      | rewrite (bind_lift _ _ _ _ E); cbv beta zeta; rewrite choice_length in L ]
  end.

Ltac run_two_letter :=
  match goal with
  | |- context [lift (two_letter ?x)] =>
      let E := fresh "Ekey" in
      let L := fresh "Lkey" in
      destruct (two_letter_ok x) as (? & E);
      [ apply integers_range; lia
      | pose proof (two_letter_length _ _ E) as L;
        rewrite (bind_lift _ _ _ _ E); cbv beta zeta; rewrite integers_length in L ]
  end.

Ltac len :=
  unfold ints, strs, bools, f64s, f32s, opt_strs, mask_none, lt_lit, char_add,
    char_add_l, char_add_r, astype_str, np_add;
  repeat first
    [ rewrite length_map | rewrite length_zip_with | rewrite length_replicate
    | rewrite length_seqZ | rewrite zipf_length | rewrite integers_length
    | rewrite lognormal_length | rewrite geometric_length
    | rewrite standard_normal_length | rewrite exponential_length
    | rewrite beta_length | rewrite random_length | rewrite choice_length ];
  lia.

Ltac conf :=
  unfold strs, bools, f64s, f32s, opt_strs;
  first
    [ apply Forall_replicate; reflexivity
    | rewrite List.Forall_map; apply Forall_true; intros [?|]; reflexivity
    | rewrite List.Forall_map; apply Forall_true; intros ?; reflexivity ].

Lemma make_rowgroup_total n b s g :
  1 <= n -> in_int64 b = true -> in_int64 (b + n) = true -> in_int64 s = true ->
  exists t g', make_rowgroup n b s g = Ok (t, g').
Proof.
  intros Hn Hb Hbn Hs. unfold make_rowgroup.
  rewrite (bind_lift _ _ _ (seqZ b n)); cbv beta zeta.
  2:{ unfold np_arange. rewrite Hb, Hbn. simpl. do 2 f_equal. lia. }
  do 2 run_draw.
  unfold np_add_scalar. rewrite Hs. rewrite (bind_lift _ _ _ _ eq_refl). cbv beta zeta.
  do 8 run_draw.
  run_draw. run_take. run_draw. run_take.
  do 2 run_draw.
  run_join.
  run_draw. run_take. do 6 run_draw.
  do 2 run_two_letter.
  do 2 run_draw.
  match goal with
  | |- context [lift (pa_table ?cols)] =>
      destruct (pa_table_ok cols (Z.to_nat n)) as (t & Et)
  end.
  2:{ rewrite Et. eexists _, _. reflexivity. }
  clear Etake Etake0 Etake1 Ejoin Ekey Ekey0.
  repeat (apply List.Forall_cons; [cbn [snd]; eexists _, _; split; [apply pa_array_ok|]|]);
    [..|apply List.Forall_nil].
  all: try solve [len].
  all: try solve [conf].
  - unfold ints. rewrite List.Forall_map. apply Forall_seqZ. intros z Hz.
    apply in_int64_spec in Hb, Hbn. apply in_int64_spec. lia.
  - unfold ints. rewrite !List.Forall_map. apply Forall_true. intros z.
    apply in_int64_spec. pose proof (Z.mod_pos_bound z 5000000). lia.
  - unfold ints. rewrite List.Forall_map.
    eapply Forall_impl; [apply integers_range; lia|]. intros z Hz.
    cbv beta in Hz. apply in_int64_spec. lia.
  - unfold ints. rewrite List.Forall_map. apply np_add_in_int64.
  - unfold ints. rewrite !List.Forall_map. apply Forall_true. intros z.
    apply wrap16_in_int16.
Qed.

(** With no rows the join over the letters array has nothing to learn its
    result type from, and raises. *)
Lemma make_rowgroup_zero_rows b s g :
  in_int64 b = true -> in_int64 s = true ->
  make_rowgroup 0 b s g
  = Raise (ValueError "Cannot apply_along_axis when any iteration dimensions are 0").
Proof.
  intros Hb Hs. unfold make_rowgroup.
  rewrite (bind_lift _ _ _ (seqZ b 0)); cbv beta zeta.
  2:{ unfold np_arange. rewrite Z.add_0_r, Hb. simpl. do 2 f_equal. lia. }
  do 2 run_draw.
  unfold np_add_scalar. rewrite Hs. rewrite (bind_lift _ _ _ _ eq_refl). cbv beta zeta.
  do 8 run_draw.
  run_draw. run_take. run_draw. run_take.
  do 2 run_draw.
  match goal with
  | |- context [lift (apply_along_axis_join ?rows)] =>
      assert (Hrows : rows = []) by (apply length_zero_iff_nil, choice_length);
      rewrite Hrows
  end.
  reflexivity.
Qed.
End Totality.

Section BatchFacts.
Context `{Generator}.

(** The parts of a batch the writer's invariant relies on. *)
Lemma make_rowgroup_batch n b s g t g' :
  make_rowgroup n b s g = Ok (t, g') ->
  cells_of "event_id" t = ints (seqZ b n)
  /\ Forall (fun c => length (col_cells c) = Z.to_nat n) t
  /\ table_schema t = schema
  /\ well_typed t = true
  /\ num_rows t = Z.to_nat n.
Proof.
  intros Hrun. apply make_rowgroup_inv in Hrun.
  destruct Hrun as (? & ? & ? & ? & ? & ? & ? & ? & ? & ? & ? & ? & ? & ? & ? & Hrun).
  cbv zeta in Hrun. destruct Hrun as (-> & Hlen & Hty & _).
  repeat split; try assumption; try reflexivity.
  inversion Hlen; subst. assumption.
Qed.
End BatchFacts.

(** The synthesizer fails only with the errors of numpy and pyarrow. *)
Section SynthesizerErrors.
Context `{Generator}.

Lemma bind_raise {A B} (m : M A) (k : A -> M B) g e :
  bind m k g = Raise e ->
  m g = Raise e \/ exists a g1, m g = Ok (a, g1) /\ k a g1 = Raise e.
Proof. unfold bind. destruct (m g) as [[a g1]|]; [eauto|]. intros E. left. by inversion E. Qed.

Lemma draw_raise {A} n (d : nat -> G -> list A * G) g e :
  draw n d g = Raise e -> is_RuntimeError e = false.
Proof. unfold draw. destruct (n <? 0); intros E; by inversion E. Qed.

Lemma lift_raise {A} (r : result A) g e : lift r g = Raise e -> r = Raise e.
Proof. destruct r; simpl; intros E; inversion E; reflexivity. Qed.

Lemma take_raise {A} (vals : list A) idx e : take vals idx = Raise e -> e = IndexError.
Proof.
  induction idx as [|i idx IH]; simpl; [discriminate|].
  unfold index at 1.
  destruct (_ && _); [destruct (vals !! _)|]; simpl; try by (intros E; inversion E).
  destruct (take vals idx); simpl; [discriminate|]. intros E. inversion E; subst. auto.
Qed.

Lemma pa_table_raise cols e :
  pa_table cols = Raise e ->
  Forall (fun nr => forall e', nr.2 = Raise e' -> e' = ArrowInvalid) cols ->
  e = ArrowInvalid.
Proof.
  induction cols as [|[name r] cols IH]; simpl; [discriminate|].
  intros E Hall. inversion Hall as [|? ? Hr Hcols]; subst. simpl in Hr.
  destruct r as [[ty cells]|e']; simpl in E; [|inversion E; subst; auto].
  destruct (pa_table cols) as [[|c t]|e'']; simpl in E; try discriminate.
  - destruct (Nat.eqb _ _); [discriminate|]. by inversion E.
  - inversion E; subst. auto.
Qed.

Lemma pa_array_raise ty cells e : pa_array ty cells = Raise e -> e = ArrowInvalid.
Proof. unfold pa_array. destruct (forallb _ _); intros E; by inversion E. Qed.

Ltac lift_raised Hm :=
  first
    [ unfold np_arange in Hm; destruct (_ && _); by inversion Hm
    | unfold np_add_scalar in Hm; destruct (in_int64 _); by inversion Hm
    | by apply take_raise in Hm as ->
    | unfold apply_along_axis_join in Hm;
      match type of Hm with match ?r with _ => _ end = _ => destruct r end;
      by inversion Hm
    | unfold two_letter in Hm;
      repeat match type of Hm with
             | result_bind ?r _ = _ =>
                 let E := fresh "E" in
                 destruct r eqn:E; simpl in Hm;
                 [| apply take_raise in E; inversion Hm; by subst ]
             end; discriminate ].

Ltac raise_step Hrun :=
  let Hm := fresh "Hm" in
  apply bind_raise in Hrun as [Hm|(? & ? & _ & Hrun)];
  [ first [ by apply draw_raise in Hm
          | apply lift_raise in Hm; lift_raised Hm ]
  | cbv beta zeta in Hrun ].

Lemma make_rowgroup_raise n b s g e :
  make_rowgroup n b s g = Raise e -> is_RuntimeError e = false.
Proof.
  intros Hrun. unfold make_rowgroup in Hrun.
  do 31 raise_step Hrun.
  apply lift_raise in Hrun. apply pa_table_raise in Hrun as ->; [done|].
  repeat (apply List.Forall_cons; [intros e'; cbn [snd]; apply pa_array_raise|]).
  apply List.Forall_nil.
Qed.
End SynthesizerErrors.

(** ** The size-convergence loop *)

Section LoopFacts.
Context `{Generator} `{!Sink}.
Variables (out_path : string) (target_bytes row_group_rows : Z)
          (use_dictionary : bool) (writer_kwargs : WriterKwargs)
          (overshoot_pct : Q) (max_row_groups : Z) (start_ts_ms : Z).

Local Abbreviation iteration := (iteration out_path target_bytes row_group_rows use_dictionary
                                 writer_kwargs overshoot_pct max_row_groups start_ts_ms).
Local Abbreviation loop := (loop out_path target_bytes row_group_rows use_dictionary
                       writer_kwargs overshoot_pct max_row_groups start_ts_ms).
Local Abbreviation loop_inv := (loop_inv out_path row_group_rows use_dictionary writer_kwargs).
Local Abbreviation reaches := (reaches out_path target_bytes row_group_rows use_dictionary
                             writer_kwargs overshoot_pct max_row_groups start_ts_ms).
Local Abbreviation batch_ok := (batch_ok row_group_rows).

Lemma inv_initial w0 g : loop_inv w0 (mkLocals None 0 0 g) w0.
Proof. constructor; simpl; auto; lia. Qed.

Lemma inv_rng w0 st w g :
  loop_inv w0 st w ->
  loop_inv w0 (mkLocals (writer st) (row_groups st) (base_id st) g) w.
Proof. intros []. constructor; auto. Qed.

Lemma inv_open w0 st w w1 :
  loop_inv w0 st w -> writer st = None ->
  ParquetWriter out_path schema use_dictionary writer_kwargs w = Ok w1 ->
  loop_inv w0 (mkLocals (Some out_path) (row_groups st) (base_id st) (rng st)) w1.
Proof.
  intros [Hc Hs Hf Hn Hb Hfile] Hw Hopen. rewrite Hw in Hfile. destruct Hfile as [Hrg ->].
  unfold ParquetWriter in Hopen.
  destruct (sink_open_error _ _ _ _); [discriminate|]. inversion Hopen; subst w1.
  constructor; simpl; auto.
  - intros p Hp. by rewrite lookup_insert_ne.
  - split; [reflexivity|]. eexists. rewrite lookup_insert_eq. split; [reflexivity|].
    rewrite Hrg. simpl. split_and!; auto. intros i tbl Hi. discriminate.
Qed.

Lemma inv_write w0 st w p tbl w2 :
  loop_inv w0 st w -> writer st = Some p ->
  batch_ok (Z.to_nat (row_groups st)) tbl ->
  write_table p tbl w = Ok w2 ->
  loop_inv w0 (mkLocals (Some p) (row_groups st + 1) (base_id st + row_group_rows) (rng st)) w2
  /\ exists f, fs w2 !! out_path = Some f /\ stat_size out_path w2 = Ok (st_size f).
Proof.
  intros [Hc Hs Hf Hn Hb Hfile] Hw Htbl Hwrite. rewrite Hw in Hfile.
  destruct Hfile as (-> & f & Hlook & Hclosed & Hsch & Hud & Hkw & Hlen & Hgroups & Hlog).
  unfold write_table in Hwrite. rewrite Hlook in Hwrite.
  destruct (negb _); [discriminate|].
  destruct (sink_write_error f tbl); [discriminate|]. inversion Hwrite; subst w2. clear Hwrite.
  split.
  - constructor; simpl; auto; try lia.
    + intros p Hp. rewrite lookup_insert_ne by done. auto.
    + split; [reflexivity|]. eexists. rewrite lookup_insert_eq. split; [reflexivity|].
      simpl. split_and!; auto.
      * rewrite length_app, Hlen. simpl. lia.
      * intros i t Hi. apply lookup_app_Some in Hi as [Hi|[Hge Hi]]; [eauto|].
        rewrite Hlen in Hi, Hge.
        destruct (i - Z.to_nat (row_groups st))%nat eqn:E; [|by destruct n].
        simpl in Hi. inversion Hi; subst t.
        replace i with (Z.to_nat (row_groups st)) by lia. exact Htbl.
      * rewrite Hlog. rewrite Z2Nat.inj_add by lia. simpl.
        rewrite <- (assoc_L (++)). simpl. f_equal. f_equal.
        rewrite Nat.add_1_r. by rewrite replicate_S_end.
  - unfold stat_size. simpl. rewrite lookup_insert_eq. eauto.
Qed.

Lemma write_table_raise p tbl w e :
  write_table p tbl w = Raise e -> is_RuntimeError e = false.
Proof.
  unfold write_table. destruct (fs w !! p); [|intros E; by inversion E].
  destruct (negb _); [intros E; by inversion E|].
  destruct (sink_write_error _ _); intros E; by inversion E.
Qed.

Lemma iteration_cases w0 st w c st' w' :
  loop_inv w0 st w -> iteration st w = (c, st', w') ->
  loop_inv w0 st' w' /\
  ( (exists e, c = Stop (Raised e) /\ is_RuntimeError e = false
               /\ row_groups st' = row_groups st)
    \/ (exists f,
          fs w' !! out_path = Some f /\ writer st' = Some out_path
          /\ row_groups st' = row_groups st + 1
          /\ c = if Qle_bool (threshold target_bytes overshoot_pct) (inject_Z (st_size f))
                 then Stop (Return (st_size f))
                 else if max_row_groups <=? row_groups st'
                      then Stop (Raised (RuntimeError
                             (capacity_message max_row_groups target_bytes (st_size f))))
                      else Continue) ).
Proof.
  intros Hinv Hit. unfold iteration in Hit.
  destruct (make_rowgroup _ _ _ _) as [[tbl rng']|e] eqn:Hmk.
  2:{ inversion Hit; subst. split; [done|]. left. exists e.
      split_and!; auto. eapply make_rowgroup_raise, Hmk. }
  apply make_rowgroup_batch in Hmk as (Hids & Hlen & Hsch & _ & _).
  cbv zeta in Hit. cbn [writer row_groups base_id rng] in Hit.
  assert (Htbl : batch_ok (Z.to_nat (row_groups st)) tbl).
  { split_and!; auto. rewrite Hids. destruct Hinv as [_ _ _ Hn Hb _].
    rewrite Z2Nat.id, Hb by done. reflexivity. }
  assert (Htail : forall p w1,
    loop_inv w0 (mkLocals (Some p) (row_groups st) (base_id st) rng') w1 ->
    p = out_path ->
    forall r, r = write_table p tbl w1 ->
    match r with
    | Ok w2 =>
        match stat_size out_path w2 with
        | Ok size =>
            if Qle_bool (threshold target_bytes overshoot_pct) (inject_Z size)
            then (Stop (Return size),
                  mkLocals (Some p) (row_groups st + 1) (base_id st + row_group_rows) rng',
                  w2)
            else if max_row_groups <=? row_groups st + 1
                 then (Stop (Raised (RuntimeError
                                (capacity_message max_row_groups target_bytes size))),
                       mkLocals (Some p) (row_groups st + 1)
                                (base_id st + row_group_rows) rng', w2)
                 else (Continue,
                       mkLocals (Some p) (row_groups st + 1)
                                (base_id st + row_group_rows) rng', w2)
        | Raise e =>
            (Stop (Raised e),
             mkLocals (Some p) (row_groups st + 1) (base_id st + row_group_rows) rng', w2)
        end
    | Raise e =>
        (Stop (Raised e), mkLocals (Some p) (row_groups st) (base_id st) rng', w1)
    end = (c, st', w') ->
    loop_inv w0 st' w' /\
    ( (exists e, c = Stop (Raised e) /\ is_RuntimeError e = false
                 /\ row_groups st' = row_groups st)
      \/ (exists f,
            fs w' !! out_path = Some f /\ writer st' = Some out_path
            /\ row_groups st' = row_groups st + 1
            /\ c = if Qle_bool (threshold target_bytes overshoot_pct)
                               (inject_Z (st_size f))
                   then Stop (Return (st_size f))
                   else if max_row_groups <=? row_groups st'
                        then Stop (Raised (RuntimeError
                               (capacity_message max_row_groups target_bytes (st_size f))))
                        else Continue) )).
  { intros p w1 Hinv1 -> r Hr Hit1. destruct r as [w2|e].
    - symmetry in Hr.
      destruct (inv_write _ _ _ _ _ _ Hinv1 eq_refl Htbl Hr) as (Hinv2 & f & Hlook & Hstat).
      cbn [row_groups base_id rng] in Hinv2.
      rewrite Hstat in Hit1.
      assert (st' = mkLocals (Some out_path) (row_groups st + 1)
                             (base_id st + row_group_rows) rng' /\ w' = w2) as [-> ->].
      { repeat case_match; by simplify_eq. }
      split; [exact Hinv2|]. right. exists f. cbn [row_groups writer].
      split_and!; auto. repeat case_match; by simplify_eq.
    - inversion Hit1; subst. split; [exact Hinv1|]. left. exists e.
      split_and!; auto. symmetry in Hr. eapply write_table_raise, Hr. }
  destruct (writer st) as [p|] eqn:Hw.
  - eapply (Htail p w); [| |reflexivity|exact Hit].
    + apply (inv_rng _ _ _ rng') in Hinv. by rewrite Hw in Hinv.
    + destruct Hinv as [_ _ _ _ _ Hf]. rewrite Hw in Hf. tauto.
  - rewrite Hsch in Hit.
    destruct (ParquetWriter _ _ _ _ _) as [w1|e] eqn:Hop; cbn [result_bind] in Hit.
    + eapply (Htail out_path w1); [|reflexivity|reflexivity|exact Hit].
      apply (inv_rng _ _ _ rng') in Hinv. rewrite Hw in Hinv.
      by apply (inv_open _ _ _ _ Hinv eq_refl) in Hop.
    + inversion Hit; subst. split.
      * apply (inv_rng _ _ _ rng') in Hinv. by rewrite Hw in Hinv.
      * left. exists e. split_and!; auto.
        unfold ParquetWriter in Hop. destruct (sink_open_error _ _ _ _); by inversion Hop.
Qed.

Lemma reaches_front st w st1 w1 st2 w2 :
  iteration st w = (Continue, st1, w1) -> reaches st1 w1 st2 w2 -> reaches st w st2 w2.
Proof.
  intros Hstep Hr. induction Hr as [|sa wa sb wb _ IH Hs].
  - eapply reaches_step; [apply reaches_here|exact Hstep].
  - eapply reaches_step; [exact IH|exact Hs].
Qed.

(** A run of the loop that ends does so in a last pass, entered at a loop
    head the earlier passes fell through to. *)
Lemma loop_last fuel st w out st' w' :
  loop fuel st w = (out, st', w') -> out <> OutOfFuel ->
  exists st_b w_b, reaches st w st_b w_b /\ iteration st_b w_b = (Stop out, st', w').
Proof.
  revert st w. induction fuel as [|fuel IH]; simpl; intros st w Hrun Hout.
  - inversion Hrun; subst. done.
  - destruct (iteration st w) as [[[|o] st1] w1] eqn:Hit.
    + destruct (IH _ _ Hrun Hout) as (st_b & w_b & Hr & Hlast).
      exists st_b, w_b. split; [|exact Hlast]. eapply reaches_front; eauto.
    + inversion Hrun; subst. exists st, w. split; [apply reaches_here|exact Hit].
Qed.

Lemma loop_more_fuel fuel fuel' st w out st' w' :
  loop fuel st w = (out, st', w') -> out <> OutOfFuel -> (fuel <= fuel')%nat ->
  loop fuel' st w = (out, st', w').
Proof.
  revert fuel' st w. induction fuel as [|fuel IH]; simpl; intros fuel' st w Hrun Hout Hle.
  - inversion Hrun; subst. done.
  - destruct fuel' as [|fuel']; [lia|]. simpl.
    destruct (iteration st w) as [[[|o] st1] w1]; [|exact Hrun].
    apply IH; auto. lia.
Qed.

(** What holds at a loop head beyond the first: the cap is not yet reached
    and the size on disk is below the threshold. *)
Lemma reaches_head w0 st w st' w' :
  loop_inv w0 st w -> reaches st w st' w' ->
  loop_inv w0 st' w' /\
  ( (st' = st /\ w' = w)
    \/ (row_groups st < row_groups st' /\ row_groups st' < max_row_groups
        /\ Qle_bool (threshold target_bytes overshoot_pct)
                    (inject_Z (size_at out_path w')) = false) ).
Proof.
  intros Hinv Hr. induction Hr as [|st1 w1 st2 w2 _ [Hinv1 IH] Hs].
  - split; [exact Hinv|]. by left.
  - destruct (iteration_cases _ _ _ _ _ _ Hinv1 Hs) as [Hinv2 [(e & He & _)|(f & Hf & _ & Hrg & Hc)]];
      [discriminate|].
    split; [exact Hinv2|]. right.
    unfold size_at. rewrite Hf. revert Hc.
    destruct (Qle_bool (threshold target_bytes overshoot_pct) (inject_Z (st_size f)));
      [intros Hc; discriminate Hc|].
    destruct (max_row_groups <=? row_groups st2) eqn:Hcap; [intros Hc; discriminate Hc|].
    intros _. apply Z.leb_gt in Hcap.
    split_and!; auto. destruct IH as [[-> ->]|(? & _)]; lia.
Qed.

(** The loop ends within [max 1 (max_row_groups - row_groups)] passes. *)
Lemma loop_terminates w0 fuel st w :
  loop_inv w0 st w ->
  (Z.to_nat (Z.max 1 (max_row_groups - row_groups st)) <= fuel)%nat ->
  (loop fuel st w).1.1 <> OutOfFuel.
Proof.
  revert st w. induction fuel as [|fuel IH]; intros st w Hinv Hfuel; [lia|].
  simpl. destruct (iteration st w) as [[[|o] st1] w1] eqn:Hit.
  - destruct (iteration_cases _ _ _ _ _ _ Hinv Hit) as [Hinv1 [(e & He & _)|(f & _ & _ & Hrg & Hc)]];
      [discriminate|].
    revert Hc.
    destruct (Qle_bool (threshold target_bytes overshoot_pct) (inject_Z (st_size f)));
      [intros Hc; discriminate Hc|].
    destruct (max_row_groups <=? row_groups st1) eqn:Hcap; [intros Hc; discriminate Hc|].
    intros _. apply Z.leb_gt in Hcap. apply IH; [exact Hinv1|]. lia.
  - destruct (iteration_cases _ _ _ _ _ _ Hinv Hit) as [_ [(e & He & _)|(f & _ & _ & _ & Hc)]].
    + inversion He; subst. simpl. discriminate.
    + simpl. repeat case_match; simplify_eq; discriminate.
Qed.

Lemma loop_preserves w0 fuel st w out st' w' :
  loop_inv w0 st w -> loop fuel st w = (out, st', w') -> loop_inv w0 st' w'.
Proof.
  revert st w. induction fuel as [|fuel IH]; simpl; intros st w Hinv Hrun.
  - by inversion Hrun; subst.
  - destruct (iteration st w) as [[[|o] st1] w1] eqn:Hit;
      destruct (iteration_cases _ _ _ _ _ _ Hinv Hit) as [Hinv1 _].
    + eapply IH; eauto.
    + by inversion Hrun; subst.
Qed.
End LoopFacts.

(** ** write_to_target *)

Section WriterFacts.
Context `{Generator} `{!Sink}.

Lemma unlink_fs p w : fs (unlink_if_exists p w) = delete p (fs w).
Proof.
  unfold unlink_if_exists. destruct (fs w !! p) eqn:E; [reflexivity|].
  symmetry. by apply delete_id.
Qed.

Lemma unlink_rest p w :
  clock_ms (unlink_if_exists p w) = clock_ms w
  /\ sink_log (unlink_if_exists p w) = sink_log w
  /\ stdout (unlink_if_exists p w) = stdout w.
Proof. unfold unlink_if_exists. by destruct (fs w !! p). Qed.

Lemma opens_app l1 l2 : opens (l1 ++ l2) = (opens l1 + opens l2)%nat.
Proof. unfold opens. by rewrite List.filter_app, length_app. Qed.

Lemma closes_app l1 l2 : closes (l1 ++ l2) = (closes l1 + closes l2)%nat.
Proof. unfold closes. by rewrite List.filter_app, length_app. Qed.

Lemma opens_writes k p : opens (replicate k (OpWrite p)) = 0%nat.
Proof. induction k; simpl; auto. Qed.

Lemma closes_writes k p : closes (replicate k (OpWrite p)) = 0%nat.
Proof. induction k; simpl; auto. Qed.

(** The invariant holds where the [try:] block ends, relative to the world
    left by the unlink. *)
Lemma try_block_inv fuel p target rgr c lvl ud seed o mrg w out st we :
  try_block fuel p target rgr c lvl ud seed o mrg w = (out, st, we) ->
  loop_inv p rgr ud (make_writer_kwargs c lvl) (unlink_if_exists p w) st we.
Proof.
  unfold try_block. intros Hrun.
  eapply loop_preserves; [|exact Hrun]. apply inv_initial.
Qed.

Lemma write_to_target_inv fuel p target rgr c lvl ud seed o mrg w out w' :
  write_to_target fuel p target rgr c lvl ud seed o mrg w = (out, w') ->
  exists st we,
    try_block fuel p target rgr c lvl ud seed o mrg w = (out, st, we)
    /\ w' = finally_block st we.
Proof.
  unfold write_to_target.
  destruct (try_block _ _ _ _ _ _ _ _ _ _ _) as [[out1 st] we].
  intros E. inversion E; subst. eauto.
Qed.

(** C8. On every path of [write_to_target] (return, capacity failure, or a
    failure propagated from the synthesizer or the sink) the sink operations
    of the call are either none at all, when the sink was never opened, or
    one open, the appends, and exactly one close, which comes last. *)
Theorem sink_closed_exactly_once fuel p target rgr c lvl ud seed o mrg w out w' :
  write_to_target fuel p target rgr c lvl ud seed o mrg w = (out, w') ->
  exists ops,
    sink_log w' = (sink_log w ++ ops)%list
    /\ ( ops = []
         \/ (exists k, ops = (OpOpen p :: replicate k (OpWrite p) ++ [OpClose p])%list)
            /\ opens ops = 1%nat /\ closes ops = 1%nat
            /\ last ops = Some (OpClose p) ).
Proof.
  intros Hrun. apply write_to_target_inv in Hrun as (st & we & Htry & ->).
  apply try_block_inv in Htry as [_ _ _ _ _ Hfile].
  destruct (unlink_rest p w) as (_ & Hlog0 & _).
  unfold finally_block. destruct (writer st) as [q|].
  - destruct Hfile as (-> & f & _ & _ & _ & _ & _ & _ & _ & Hlog).
    unfold close, log_op, set_fs. cbn [sink_log]. rewrite Hlog, Hlog0.
    eexists. rewrite <- (assoc_L (++)). split; [reflexivity|]. right.
    split; [eauto|]. cbn [app].
    change (OpOpen p :: replicate (Z.to_nat (row_groups st)) (OpWrite p) ++ [OpClose p])%list
      with ([OpOpen p] ++ replicate (Z.to_nat (row_groups st)) (OpWrite p) ++ [OpClose p])%list.
    rewrite !opens_app, !closes_app, opens_writes, closes_writes.
    split_and!; try reflexivity.
    rewrite (assoc_L (++)). apply last_snoc.
  - destruct Hfile as [_ ->]. exists []. rewrite Hlog0, app_nil_r. auto.
Qed.

Lemma unlink_insert p f w :
  unlink_if_exists p (set_fs (insert p f) w) = unlink_if_exists p (set_fs (delete p) w).
Proof.
  unfold unlink_if_exists, set_fs. cbn [fs clock_ms sink_log stdout].
  rewrite lookup_insert_eq, lookup_delete_eq. by rewrite delete_insert_eq.
Qed.

(** C10. Whatever file was at [out_path] before the call has no influence:
    the call behaves as if the path had been empty, so the final file holds
    the current run only; and no other path of the file system is touched. *)
Theorem destructive_overwrite fuel p target rgr c lvl ud seed o mrg w f_old :
  write_to_target fuel p target rgr c lvl ud seed o mrg (set_fs (insert p f_old) w)
  = write_to_target fuel p target rgr c lvl ud seed o mrg (set_fs (delete p) w)
  /\ forall q, q <> p ->
       fs (write_to_target fuel p target rgr c lvl ud seed o mrg w).2 !! q = fs w !! q.
Proof.
  split.
  - unfold write_to_target, try_block. by rewrite unlink_insert.
  - intros q Hq.
    destruct (write_to_target fuel p target rgr c lvl ud seed o mrg w) as [out w'] eqn:Hrun.
    apply write_to_target_inv in Hrun as (st & we & Htry & ->).
    apply try_block_inv in Htry as [_ _ Hframe _ _ Hfile].
    cbn [snd]. unfold finally_block.
    assert (fs we !! q = fs w !! q) as <-.
    { rewrite Hframe by done. rewrite unlink_fs. by rewrite lookup_delete_ne. }
    destruct (writer st) as [p'|]; [|reflexivity].
    destruct Hfile as [-> _]. unfold close, log_op, set_fs. cbn [fs].
    by rewrite lookup_alter_ne.
Qed.

Lemma concat_batches rgr (groups : list Table) :
  (forall i tbl, groups !! i = Some tbl -> batch_ok rgr i tbl) ->
  concat (map (cells_of "event_id") groups)
  = ints (seqZ 0 (Z.of_nat (length groups) * rgr)).
Proof.
  induction groups as [|tbl groups IH] using rev_ind; intros Hall.
  - reflexivity.
  - rewrite map_app, concat_app, IH.
    2:{ intros i t Hi. apply Hall. by apply lookup_app_l_Some. }
    destruct (Hall (length groups) tbl) as (Hids & _).
    { by rewrite lookup_app_r, Nat.sub_diag. }
    simpl. rewrite Hids, app_nil_r. unfold ints. rewrite <- map_app. f_equal.
    rewrite length_app. simpl.
    destruct (Z.le_gt_cases 0 rgr).
    + replace (Z.of_nat (length groups + 1) * rgr)
        with (Z.of_nat (length groups) * rgr + rgr) by lia.
      rewrite seqZ_app by lia. reflexivity.
    + rewrite !(seqZ_nil _ rgr) by lia. rewrite !seqZ_nil by nia. reflexivity.
Qed.

(** C4. The event ids of the batches a call has written to its file, in the
    order they were appended, are the integers from 0 up to the number of
    rows written; batch [i] holds [i * row_group_rows] and the
    [row_group_rows - 1] ids that follow. *)
Theorem row_id_continuity fuel p target rgr c lvl ud seed o mrg w out w' f :
  write_to_target fuel p target rgr c lvl ud seed o mrg w = (out, w') ->
  fs w' !! p = Some f ->
  concat (map (cells_of "event_id") (f_row_groups f))
  = ints (seqZ 0 (Z.of_nat (length (f_row_groups f)) * rgr))
  /\ forall i tbl,
       f_row_groups f !! i = Some tbl ->
       cells_of "event_id" tbl = ints (seqZ (Z.of_nat i * rgr) rgr)
       /\ length (cells_of "event_id" tbl) = Z.to_nat rgr.
Proof.
  intros Hrun Hf. apply write_to_target_inv in Hrun as (st & we & Htry & ->).
  apply try_block_inv in Htry as [_ _ _ _ _ Hfile].
  unfold finally_block in Hf. destruct (writer st) as [q|].
  - destruct Hfile as (-> & f0 & Hlook & _ & _ & _ & _ & _ & Hgroups & _).
    unfold close, log_op, set_fs in Hf. cbn [fs] in Hf.
    rewrite lookup_alter_eq, Hlook in Hf. inversion Hf; subst f. cbn [f_row_groups].
    split; [by apply concat_batches|].
    intros i tbl Hi. destruct (Hgroups i tbl Hi) as (Hids & _).
    split; [exact Hids|]. rewrite Hids. unfold ints. by rewrite length_map, length_seqZ.
  - destruct Hfile as [_ ->]. rewrite unlink_fs, lookup_delete_eq in Hf. discriminate.
Qed.

(** The pass in which a call's [try:] block ends, the loop head it was
    entered at, and what the pass did. *)
Lemma try_block_final fuel p target rgr c lvl ud seed o mrg w out st_e w_e :
  try_block fuel p target rgr c lvl ud seed o mrg w = (out, st_e, w_e) ->
  out <> OutOfFuel ->
  let w0 := unlink_if_exists p w in
  let kw := make_writer_kwargs c lvl in
  let st0 := mkLocals None 0 0 (default_rng seed) in
  exists st_b w_b,
    reaches p target rgr ud kw o mrg (clock_ms w0) st0 w0 st_b w_b
    /\ iteration p target rgr ud kw o mrg (clock_ms w0) st_b w_b = (Stop out, st_e, w_e)
    /\ ( (st_b = st0 /\ w_b = w0)
         \/ (0 < row_groups st_b /\ row_groups st_b < mrg
             /\ Qle_bool (threshold target o) (inject_Z (size_at p w_b)) = false) )
    /\ loop_inv p rgr ud kw w0 st_b w_b
    /\ loop_inv p rgr ud kw w0 st_e w_e
    /\ ( (exists e, out = Raised e /\ is_RuntimeError e = false
                     /\ row_groups st_e = row_groups st_b)
         \/ (exists f,
               fs w_e !! p = Some f /\ writer st_e = Some p
               /\ row_groups st_e = row_groups st_b + 1
               /\ Stop out =
                    if Qle_bool (threshold target o) (inject_Z (st_size f))
                    then Stop (Return (st_size f))
                    else if mrg <=? row_groups st_e
                         then Stop (Raised (RuntimeError
                                (capacity_message mrg target (st_size f))))
                         else Continue) ).
Proof.
  intros Htry Hout w0 kw st0. unfold try_block in Htry. fold w0 kw st0 in Htry.
  destruct (loop_last _ _ _ _ _ _ _ _ _ _ _ _ _ _ Htry Hout) as (st_b & w_b & Hr & Hlast).
  destruct (reaches_head _ _ _ _ _ _ _ _ _ _ _ _ _ (inv_initial _ _ _ _ w0 _) Hr)
    as [Hinv_b Hhead].
  destruct (iteration_cases _ _ _ _ _ _ _ _ _ _ _ _ _ _ Hinv_b Hlast) as [Hinv_e Hcase].
  exists st_b, w_b.
  split; [exact Hr|]. split; [exact Hlast|].
  split; [|split; [exact Hinv_b|split; [exact Hinv_e|]]].
  - destruct Hhead as [Hsame|(Hlt & ? & ?)]; [left; exact Hsame|right]. simpl in Hlt. auto.
  - destruct Hcase as [(e & He & Hne & Hrg)|(f & ? & ? & ? & ?)].
    + left. exists e. split; [congruence|done].
    + right. eauto.
Qed.

(** C9. When the call fails with the capacity error, the file is still at
    [out_path], closed, holding every batch that was appended: as many as
    the cap allows, and one when the cap is 1 or less, since the cap is
    checked only after a batch was appended. *)
Theorem no_rollback_on_capacity_failure fuel p target rgr c lvl ud seed o mrg w msg w' :
  write_to_target fuel p target rgr c lvl ud seed o mrg w = (Raised (RuntimeError msg), w') ->
  exists f0,
    fs w' !! p = Some (closed_file f0)
    /\ msg = capacity_message mrg target (st_size f0)
    /\ length (f_row_groups f0) = Z.to_nat (Z.max 1 mrg)
    /\ (forall i tbl, f_row_groups f0 !! i = Some tbl -> batch_ok rgr i tbl)
    /\ sink_log w' =
         (sink_log w ++ OpOpen p :: replicate (Z.to_nat (Z.max 1 mrg)) (OpWrite p)
            ++ [OpClose p])%list
    /\ (mrg <= 1 -> length (f_row_groups f0) = 1%nat).
Proof.
  intros Hrun. apply write_to_target_inv in Hrun as (st & we & Htry & ->).
  destruct (try_block_final _ _ _ _ _ _ _ _ _ _ _ _ _ _ Htry ltac:(done))
    as (st_b & w_b & _ & _ & Hhead & _ & [_ _ _ _ _ Hfile] & Hcase).
  destruct Hcase as [(e & He & Hne & _)|(f & Hf & Hw & Hrg & Hc)].
  { inversion He; subst. discriminate. }
  revert Hc. destruct (Qle_bool (threshold target o) (inject_Z (st_size f)));
    [intros Hc; discriminate Hc|].
  destruct (mrg <=? row_groups st) eqn:Hcap; [|intros Hc; discriminate Hc].
  intros Hc. inversion Hc; subst msg. clear Hc. apply Z.leb_le in Hcap.
  assert (Hk : row_groups st = Z.max 1 mrg).
  { destruct Hhead as [[-> _]|(? & ? & _)]; simpl in *; lia. }
  rewrite Hw in Hfile.
  destruct Hfile as (_ & f' & Hlook & _ & _ & _ & _ & Hlen & Hgroups & Hlog).
  rewrite Hf in Hlook. inversion Hlook; subst f'. rewrite Hk in *.
  destruct (unlink_rest p w) as (_ & Hlog0 & _).
  exists f. unfold finally_block. rewrite Hw.
  unfold close, log_op, set_fs. cbn [fs sink_log].
  rewrite lookup_alter_eq, Hf, Hlog, Hlog0. split_and!; auto.
  - by rewrite <- (assoc_L (++)).
  - intros Hle. rewrite Hlen. replace (Z.max 1 mrg) with 1 by lia. reflexivity.
Qed.

Lemma threshold_above_target target o :
  0 < target -> (0 <= o)%Q -> (inject_Z target <= threshold target o)%Q.
Proof.
  intros Ht Ho. unfold threshold.
  assert (0 < inject_Z target)%Q by (rewrite (Zlt_Qlt 0 target) in Ht; exact Ht).
  nra.
Qed.


(** With a cap of at least 1 the loop ends within [max_row_groups] passes,
    whatever the sink does: it returns a size at or above the threshold, or
    fails with the capacity error naming the cap, the target and the last
    size read, or passes on an error of the synthesizer or the sink. *)
Lemma loop_ends_within_cap fuel p target rgr c lvl ud seed o mrg w :
  1 <= mrg -> (Z.to_nat mrg <= fuel)%nat ->
  exists out st_e w_e,
    try_block fuel p target rgr c lvl ud seed o mrg w = (out, st_e, w_e)
    /\ try_block (Z.to_nat mrg) p target rgr c lvl ud seed o mrg w = (out, st_e, w_e)
    /\ write_to_target fuel p target rgr c lvl ud seed o mrg w
       = (out, finally_block st_e w_e)
    /\ out <> OutOfFuel
    /\ row_groups st_e <= mrg
    /\ match out with
       | Return size =>
           stat_size p w_e = Ok size /\ (threshold target o <= inject_Z size)%Q
       | Raised e =>
           is_RuntimeError e = true ->
           exists size,
             e = RuntimeError (capacity_message mrg target size)
             /\ stat_size p w_e = Ok size
             /\ ~ (threshold target o <= inject_Z size)%Q
             /\ row_groups st_e = mrg
       | OutOfFuel => False
       end.
Proof.
  intros Hmrg Hfuel.
  destruct (try_block (Z.to_nat mrg) p target rgr c lvl ud seed o mrg w)
    as [[out st_e] w_e] eqn:Htry.
  assert (Hout : out <> OutOfFuel).
  { pose proof (loop_terminates p target rgr ud (make_writer_kwargs c lvl) o mrg
                  (clock_ms (unlink_if_exists p w)) (unlink_if_exists p w)
                  (Z.to_nat mrg) (mkLocals None 0 0 (default_rng seed))
                  (unlink_if_exists p w)
                  (inv_initial _ _ _ _ _ _)) as Hterm.
    unfold try_block in Htry. rewrite Htry in Hterm. apply Hterm. simpl. lia. }
  assert (Hbig : try_block fuel p target rgr c lvl ud seed o mrg w = (out, st_e, w_e)).
  { unfold try_block in *. eapply loop_more_fuel; eauto. }
  exists out, st_e, w_e. split; [exact Hbig|]. split; [reflexivity|].
  split. { unfold write_to_target. by rewrite Hbig. }
  split; [exact Hout|].
  destruct (try_block_final _ _ _ _ _ _ _ _ _ _ _ _ _ _ Hbig Hout)
    as (st_b & w_b & _ & _ & Hhead & _ & _ & Hcase).
  assert (Hrg_b : row_groups st_b = 0 \/ row_groups st_b < mrg).
  { destruct Hhead as [[-> _]|(_ & ? & _)]; simpl; auto. }
  destruct Hcase as [(e & -> & Hne & Hrg)|(f & Hf & Hw & Hrg & Hc)].
  { split; [lia|]. intros Hrt. congruence. }
  split; [lia|]. revert Hc.
  destruct (Qle_bool (threshold target o) (inject_Z (st_size f))) eqn:Hq.
  { intros Hc. inversion Hc; subst out. split.
    - unfold stat_size. by rewrite Hf.
    - by apply Qle_bool_iff. }
  destruct (mrg <=? row_groups st_e) eqn:Hcap; [|intros Hc; discriminate Hc].
  intros Hc. inversion Hc; subst out. intros _. exists (st_size f).
  apply Z.leb_le in Hcap. split_and!; auto.
  - unfold stat_size. by rewrite Hf.
  - intros Hle. apply Qle_bool_iff in Hle. congruence.
  - lia.
Qed.
End WriterFacts.

(** ** Runs in which neither the synthesizer nor the sink fails *)

Section ReliableRuns.
Context `{GeneratorLaws} `{!Sink}.
Hypothesis Hsink : sink_never_fails.

(** A pass from a loop head in range appends its batch and reads the size:
    it ends by the size check or the cap check alone. *)
Lemma iteration_succeeds p target rgr ud kw o mrg start w0 st w c st' w' :
  loop_inv p rgr ud kw w0 st w ->
  1 <= rgr -> in_int64 (base_id st) = true -> in_int64 (base_id st + rgr) = true ->
  in_int64 start = true ->
  iteration p target rgr ud kw o mrg start st w = (c, st', w') ->
  forall e, c = Stop (Raised e) -> is_RuntimeError e = true.
Proof.
  intros Hinv Hrgr Hb Hbn Hs Hit e ->.
  destruct (iteration_cases _ _ _ _ _ _ _ _ _ _ _ _ _ _ Hinv Hit)
    as [_ [(e' & He' & Hne & _)|(f & _ & _ & _ & Hc)]].
  2:{ revert Hc. repeat case_match; intros Hc; by inversion Hc. }
  inversion He'; subst e'. exfalso.
  unfold iteration in Hit.
  destruct (make_rowgroup_total rgr (base_id st) start (rng st) Hrgr Hb Hbn Hs)
    as (tbl & rng' & Hmk).
  rewrite Hmk in Hit. cbv zeta in Hit. cbn [writer row_groups base_id rng] in Hit.
  apply make_rowgroup_batch in Hmk as (_ & _ & Hsch & _ & _).
  destruct Hsink as [Hopen Hwrite].
  assert (Hwr : forall w1 f1, fs w1 !! p = Some f1 -> f_schema f1 = schema ->
                exists w2 f2, write_table p tbl w1 = Ok w2 /\ fs w2 !! p = Some f2).
  { intros w1 f1 Hl Hs1. unfold write_table. rewrite Hl, Hsch, Hs1, Hwrite.
    rewrite bool_decide_eq_true_2 by done. cbn [negb].
    eexists _, _. split; [reflexivity|]. cbn [fs log_op set_fs]. apply lookup_insert_eq. }
  destruct Hinv as [_ _ _ _ _ Hfile].
  destruct (writer st) as [q|].
  - destruct Hfile as (-> & f & Hl & _ & Hs1 & _).
    destruct (Hwr w f Hl Hs1) as (w2 & f2 & Hw2 & Hl2).
    rewrite Hw2 in Hit. unfold stat_size in Hit. rewrite Hl2 in Hit.
    revert Hit. repeat case_match; intros Hit; inversion Hit; subst; discriminate.
  - unfold ParquetWriter in Hit. rewrite Hopen in Hit. cbn [result_bind] in Hit.
    destruct (Hwr (log_op (OpOpen p)
                     (set_fs (insert p (mkFile (table_schema tbl) ud kw [] false)) w))
                  (mkFile (table_schema tbl) ud kw [] false))
      as (w2 & f2 & Hw2 & Hl2).
    { cbn [fs log_op set_fs]. apply lookup_insert_eq. }
    { exact Hsch. }
    rewrite Hw2 in Hit. unfold stat_size in Hit. rewrite Hl2 in Hit.
    revert Hit. repeat case_match; intros Hit; inversion Hit; subst; discriminate.
Qed.
End ReliableRuns.

Section CapEnforcement.
Context `{GeneratorLaws} `{!Sink}.

End CapEnforcement.

(** ** The batch: shape, types and nulls *)

Section BatchClaims.
Context `{GeneratorLaws}.

End BatchClaims.

Section NullPlacement.
Context `{Generator}.

End NullPlacement.

(** ** The clock and the invocation surface *)

Section ClockFacts.
Context `{GeneratorLaws}.

Lemma wrap_wrap_add w a c : 0 < w -> wrap w (wrap w a + c) = wrap w (a + c).
Proof.
  intros Hw. unfold wrap. f_equal.
  replace ((a + 2 ^ (w - 1)) mod 2 ^ w - 2 ^ (w - 1) + c + 2 ^ (w - 1))
    with ((a + 2 ^ (w - 1)) mod 2 ^ w + c) by lia.
  rewrite Zplus_mod_idemp_l. f_equal. lia.
Qed.

Lemma wrap64_inj_in_range a b c :
  in_int64 a = true -> in_int64 b = true ->
  wrap64 (a + c) = wrap64 (b + c) -> a = b.
Proof.
  intros Ha Hb E. apply in_int64_spec in Ha, Hb. unfold wrap64, wrap in E.
  change (64 - 1) with 63 in E.
  assert (E' : (a + c + 2 ^ 63) mod 2 ^ 64 = (b + c + 2 ^ 63) mod 2 ^ 64).
  { apply (Z.sub_cancel_r _ _ (2 ^ 63)). exact E. }
  assert (Hd : ((a + c + 2 ^ 63) - (b + c + 2 ^ 63)) mod 2 ^ 64 = 0).
  { rewrite Zminus_mod, E', Z.sub_diag. reflexivity. }
  replace (a + c + 2 ^ 63 - (b + c + 2 ^ 63)) with (a - b) in Hd by lia.
  apply Z.mod_divide in Hd; [|lia]. destruct Hd as [k Hk].
  assert (k = 0) by lia. lia.
Qed.

(** Two batches drawn from the same generator state with different start
    times differ in their timestamps. *)
Lemma event_ts_follows_start n b s1 s2 g t1 g1 t2 g2 :
  make_rowgroup n b s1 g = Ok (t1, g1) ->
  make_rowgroup n b s2 g = Ok (t2, g2) ->
  1 <= n -> s1 <> s2 ->
  cells_of "event_ts" t1 <> cells_of "event_ts" t2.
Proof.
  intros H1' H2' Hn Hne.
  apply make_rowgroup_inv in H1', H2'.
  destruct H1' as (? & ? & ? & ? & ? & ? & ? & ? & ? & ? & ? & ? & ? & ? & ? & H1').
  destruct H2' as (? & ? & ? & ? & ? & ? & ? & ? & ? & ? & ? & ? & ? & ? & ? & H2').
  cbv zeta in H1', H2'.
  destruct H1' as (-> & _ & _ & _ & _ & _ & Hs1).
  destruct H2' as (-> & _ & _ & _ & _ & _ & Hs2).
  change (cells_of "event_ts" ?t) with
    (ints (np_add (map (fun x => wrap64 (s1 + x)) (map (fun i => i mod week_ms) (seqZ b n)))
                  (jitter_of (Z.to_nat n) g))) at 1.
  unfold cells_of, column. cbn [List.find String.eqb Ascii.eqb Bool.eqb col_name col_cells andb].
  pose proof (integers_length 0 2000 (Z.to_nat n)
                (rng_integers 1 50000000 (Z.to_nat n) (rng_zipf 1.5 (Z.to_nat n) g).2).2) as Hj.
  fold (jitter_of (Z.to_nat n) g) in Hj.
  destruct (jitter_of (Z.to_nat n) g) as [|j js]; [simpl in Hj; lia|].
  rewrite (seqZ_cons b n) by lia. cbn [map np_add zip_with ints].
  intros E. apply (f_equal head) in E. cbn [head] in E. injection E as E0.
  rewrite !(wrap_wrap_add 64) in E0 by lia.
  apply Hne. eapply (wrap64_inj_in_range s1 s2 (b mod week_ms + j)); auto.
  unfold wrap64. rewrite !Z.add_assoc. exact E0.
Qed.
End ClockFacts.

Section MainFacts.
Context `{Generator} `{!Sink}.

(** C7, as amended. A failure of [write_to_target] for one target, the
    capacity error included, is not caught by [main]: it ends the loop over
    the targets, so the targets after the failing one are not processed and
    [main] ends with that error, in the state the failing call left. *)
Theorem failure_aborts_remaining_targets fuel a before t rest w w1 e w2 :
  main_loop fuel a before w = (Return tt, w1) ->
  write_target fuel a t w1 = (Raised e, w2) ->
  main_loop fuel a (before ++ t :: rest) w = (Raised e, w2).
Proof.
  revert w. induction before as [|t0 before IH]; simpl; intros w Hbefore Hfail.
  - inversion Hbefore; subst. by rewrite Hfail.
  - destruct (write_target fuel a t0 w) as [[size| |] w0]; try discriminate.
    by apply IH.
Qed.
End MainFacts.

(** ** Appending strings *)

Lemma append_assoc (a b c : string) : (a ++ b) ++ c = a ++ b ++ c.
Proof.
  induction a as [|x a IH]; [reflexivity|].
  change (String x ((a ++ b) ++ c) = String x (a ++ b ++ c)). by rewrite IH.
Qed.

Lemma append_nil_r (a : string) : a ++ EmptyString = a.
Proof.
  induction a as [|x a IH]; [reflexivity|].
  change (String x (a ++ EmptyString) = String x a). by rewrite IH.
Qed.

(** ** The outcomes of the synthesizer *)

Section SynthesizerOutcomes.
Context `{GeneratorLaws}.

(** X1. What [make_rowgroup] does with a base id, an end of the id range and
    a start time that fit an int64: it returns a batch exactly when the row
    count is at least 1; a negative row count is rejected by the first draw,
    and a row count of zero by [apply_along_axis], each with its
    ValueError. *)
Theorem make_rowgroup_outcomes n b s g :
  in_int64 b = true -> in_int64 (b + n) = true -> in_int64 s = true ->
  match make_rowgroup n b s g with
  | Ok _ => 1 <= n
  | Raise e =>
      if n <? 0 then e = ValueError "negative dimensions are not allowed"
      else n = 0
           /\ e = ValueError "Cannot apply_along_axis when any iteration dimensions are 0"
  end.
Proof.
  intros Hb Hbn Hs.
  destruct (n <? 0) eqn:Hn.
  { unfold make_rowgroup. rewrite (bind_lift _ _ _ (seqZ b n)).
    2:{ unfold np_arange. rewrite Hb, Hbn. simpl. do 2 f_equal. lia. }
    cbv beta zeta. unfold bind at 1. unfold draw. rewrite Hn. reflexivity. }
  apply Z.ltb_ge in Hn.
  destruct (Z.eq_dec n 0) as [->|Hn0].
  - rewrite make_rowgroup_zero_rows by assumption. auto.
  - destruct (make_rowgroup_total n b s g ltac:(lia) Hb Hbn Hs) as (t & g' & ->). lia.
Qed.
End SynthesizerOutcomes.

(** ** What the columns of a batch hold *)

Section BatchColumns.
Context `{Generator}.

Ltac invert_step Hrun :=
  let Hm := fresh "Hm" in
  apply bind_inv in Hrun as (? & ? & Hm & Hrun);
  first [ apply draw_inv in Hm as (? & ? & ?) | apply lift_inv in Hm as (Hm & ?) ];
  cbv beta zeta in Hrun.

Ltac invert_column Hcols :=
  let c := fresh "c" in
  let Harr := fresh "Harr" in
  let Hname := fresh "Hname" in
  apply Forall2_cons_inv_l in Hcols as (c & ? & [Harr Hname] & Hcols & ->);
  destruct c as [? ? ?]; simpl in Harr, Hname;
  apply pa_array_inv in Harr as [Harr _];
  injection Harr as -> ->; subst.

(** How each column of a batch is computed from the draws. *)
Lemma make_rowgroup_columns n b s g t g' :
  make_rowgroup n b s g = Ok (t, g') ->
  exists (raw_zipf : list Z) (g_session : G)
         (price : list float64) (quantity0 : list Z) (score : list float32)
         (latency : list float64) (rating : list float32) (refund mobile : list bool)
         (country_ix : list Z) (country : list string) (country_mask : list bool)
         (channel_ix : list Z) (channel : list string)
         (sku_words : list string) (g_sku : G)
         (page_ix : list Z) (page : list string) (g_q : G) (url_mask : list bool)
         (k1 k2 : list Z) (key1 key2 : list string) (g_v1 g_v2 : G) (ok : list bool),
    let N := Z.to_nat n in
    t = [ mkColumn "event_id" pa_int64 (ints (seqZ b n));
          mkColumn "user_id" pa_int64 (ints (map (fun z => z mod 5000000 + 1) raw_zipf));
          mkColumn "session_id" pa_int64 (ints (rng_integers 1 50000000 N g_session).1);
          mkColumn "event_ts" pa_timestamp_ms
            (ints (np_add (map (fun x => wrap64 (s + x))
                               (map (fun i => i mod week_ms) (seqZ b n)))
                          (jitter_of N g)));
          mkColumn "price" pa_float64 (f64s price);
          mkColumn "quantity" pa_int16 (ints (map wrap16 quantity0));
          mkColumn "score" pa_float32 (f32s score);
          mkColumn "latency_ms" pa_float64 (f64s latency);
          mkColumn "rating" pa_float32 (f32s rating);
          mkColumn "is_refund" pa_bool (bools refund);
          mkColumn "is_mobile" pa_bool (bools mobile);
          mkColumn "country" pa_string (opt_strs (mask_none country_mask country));
          mkColumn "channel" pa_string (strs channel);
          mkColumn "product_sku" pa_string
            (strs (char_add (char_add_l "SKU-" sku_words)
                            (char_add_l "-" (astype_str (rng_integers 0 10000 N g_sku).1))));
          mkColumn "url" pa_string
            (opt_strs (mask_none url_mask
                         (char_add (char_add_r page "?q=")
                                   (astype_str (rng_integers 0 10000000 N g_q).1))));
          mkColumn "payload" pa_string
            (strs (char_add
                     (char_add (char_add_l ("{" ++ dq) key1)
                               (char_add_l (dq ++ ":")
                                           (astype_str (rng_integers 0 10000 N g_v1).1)))
                     (char_add
                        (char_add_l ("," ++ dq) key2)
                        (char_add
                           (char_add_l (dq ++ ":")
                                       (astype_str (rng_integers 0 10000 N g_v2).1))
                           (map (fun b : bool =>
                                   if b then "," ++ dq ++ "ok" ++ dq ++ ":true}"
                                   else "," ++ dq ++ "ok" ++ dq ++ ":false}") ok)))));
          mkColumn "null_comment" pa_string (replicate N None);
          mkColumn "null_amount" pa_float64 (replicate N None);
          mkColumn "null_updated_at" pa_timestamp_ms (replicate N None);
          mkColumn "null_flag" pa_bool (replicate N None) ]
    /\ take country_codes country_ix = Ok country
    /\ take channel_vals channel_ix = Ok channel
    /\ take pages page_ix = Ok page
    /\ two_letter k1 = Ok key1
    /\ two_letter k2 = Ok key2
    /\ in_int64 s = true.
Proof.
  intros Hrun. unfold make_rowgroup in Hrun.
  do 31 invert_step Hrun.
  apply lift_inv in Hrun as [Hrun ->].
  apply np_arange_inv in Hm as (Hb & Hbn & ->).
  apply np_add_scalar_inv in Hm0 as (Hs & ->).
  replace (b + n - b) with n in * by lia.
  apply pa_table_inv in Hrun as [Hcols Hlen].
  do 20 invert_column Hcols.
  apply Forall2_nil_inv_l in Hcols as ->.
  do 27 eexists. cbv zeta. split; [reflexivity|].
  split_and!; eassumption.
Qed.
End BatchColumns.

Lemma index_elem {A} (vals : list A) i v : index vals i = Ok v -> In v vals.
Proof.
  unfold index. cbv zeta.
  destruct (_ && _); [|discriminate].
  destruct (vals !! _) as [v'|] eqn:E; [|discriminate].
  intros [= <-]. apply list_elem_of_In. by eapply list_elem_of_lookup_2.
Qed.

Lemma take_elem {A} (vals : list A) idx vs :
  take vals idx = Ok vs -> Forall (fun v => In v vals) vs.
Proof.
  revert vs. induction idx as [|i idx IH]; intros vs; simpl.
  - intros [= <-]. constructor.
  - destruct (index vals i) eqn:Ei; simpl; [|discriminate].
    destruct (take vals idx) eqn:Et; simpl; [|discriminate].
    intros [= <-]. constructor; [by eapply index_elem | by apply IH].
Qed.

Lemma Forall_zip_with2 {A B C} (f : A -> B -> C) (P : A -> Prop) (Q : B -> Prop)
      (R : C -> Prop) xs ys :
  Forall P xs -> Forall Q ys -> (forall x y, P x -> Q y -> R (f x y)) ->
  Forall R (zip_with f xs ys).
Proof.
  intros Hxs. revert ys. induction Hxs as [|x xs Hx Hxs IH]; intros ys Hys Hf; simpl.
  - constructor.
  - destruct Hys as [|y ys Hy Hys]; constructor; auto.
Qed.

Lemma zip_with_ext_Forall {A B C} (f h : A -> B -> C) (Q : B -> Prop) xs ys :
  Forall Q ys -> (forall x y, Q y -> f x y = h x y) ->
  zip_with f xs ys = zip_with h xs ys.
Proof.
  intros Hys Hf. revert xs. induction Hys as [|y ys Hy Hys IH]; intros [|x xs]; simpl; try done.
  by rewrite Hf, IH.
Qed.

Lemma two_letter_elem x l :
  two_letter x = Ok l ->
  Forall (fun k => exists a b, k = a ++ b /\ In a lowercase /\ In b lowercase) l.
Proof.
  unfold two_letter. cbv zeta.
  destruct (take lowercase (map _ x)) as [la|] eqn:Ea; simpl; [|discriminate].
  destruct (take lowercase (map (fun v => wrap 32 (v mod 26)) x)) as [lb|] eqn:Eb;
    simpl; [|discriminate].
  intros [= <-]. apply take_elem in Ea, Eb.
  unfold char_add, char_add_r.
  eapply Forall_zip_with2 with (P := fun a => In a lowercase); [| exact Eb |].
  - apply Forall_map. eapply Forall_impl; [exact Ea|].
    intros a Ha. cbv beta. by rewrite append_nil_r.
  - intros a b Ha Hb. by exists a, b.
Qed.

Section ColumnRanges.
Context `{GeneratorLaws}.

(** X2. The identifiers of a batch: every [user_id] lies in 1..5000000 (the
    Zipf draw reduced modulo 5000000, plus one) and every [session_id] in
    1..49999999; neither column holds a null. *)
Theorem id_columns_in_range n b s g t g' :
  make_rowgroup n b s g = Ok (t, g') ->
  exists user session,
    cells_of "user_id" t = ints user
    /\ cells_of "session_id" t = ints session
    /\ length user = Z.to_nat n /\ length session = Z.to_nat n
    /\ Forall (fun u => 1 <= u <= 5000000) user
    /\ Forall (fun x => 1 <= x < 50000000) session.
Proof.
  intros Hrun.
  destruct (make_rowgroup_batch _ _ _ _ _ _ Hrun) as (_ & Hlen & _).
  destruct (make_rowgroup_columns _ _ _ _ _ _ Hrun)
    as (raw & gs & ? & ? & ? & ? & ? & ? & ? & ? & ? & ? & ? & ? & ? & ? & ? & ? & ? & ?
        & ? & ? & ? & ? & ? & ? & ? & Ht & _).
  cbv zeta in Ht. subst t.
  apply Forall_cons in Hlen as [_ Hlen]. apply Forall_cons in Hlen as [Hlen _].
  cbn [col_cells] in Hlen. unfold ints in Hlen. rewrite length_map in Hlen.
  eexists _, _. split; [reflexivity|]. split; [reflexivity|].
  split_and!.
  - exact Hlen.
  - apply integers_length.
  - apply Forall_map, Forall_true. intros z. simpl.
    pose proof (Z.mod_pos_bound z 5000000 ltac:(lia)). lia.
  - apply integers_range. lia.
Qed.

(** X3. The event times of a batch when the start time leaves room for a
    week and the jitter below the int64 limit: no addition wraps, the time of
    the row with id [i] is the start time plus [i] modulo one week plus that
    row's jitter, and it lies less than a week and two seconds after the
    start time. *)
Theorem event_ts_window n b s g t g' :
  make_rowgroup n b s g = Ok (t, g') ->
  in_int64 (s + week_ms + 2000) = true ->
  let jitter := jitter_of (Z.to_nat n) g in
  let ts := zip_with (fun i j => s + i mod week_ms + j) (seqZ b n) jitter in
  cells_of "event_ts" t = ints ts
  /\ length ts = Z.to_nat n
  /\ Forall (fun j => 0 <= j < 2000) jitter
  /\ Forall (fun x => s <= x < s + week_ms + 1999) ts.
Proof.
  intros Hrun Hroom. cbv zeta.
  destruct (make_rowgroup_inv _ _ _ _ _ _ Hrun)
    as (? & ? & ? & ? & ? & ? & ? & ? & ? & ? & ? & ? & ? & ? & ? & Ht & _ & _ & Hn & _ & _ & Hs).
  cbv zeta in Ht. subst t.
  apply in_int64_spec in Hroom, Hs.
  assert (Hj : Forall (fun j => 0 <= j < 2000) (jitter_of (Z.to_nat n) g)).
  { unfold jitter_of. apply integers_range. lia. }
  assert (Hw : 0 < week_ms) by (unfold week_ms; lia).
  split_and!.
  - change (cells_of "event_ts" _) with
      (ints (np_add (map (fun x => wrap64 (s + x)) (map (fun i => i mod week_ms) (seqZ b n)))
                    (jitter_of (Z.to_nat n) g))).
    f_equal. unfold np_add. rewrite !zip_with_fmap_l.
    apply zip_with_ext_Forall with (Q := fun j => 0 <= j < 2000); [exact Hj|].
    intros i j Hjr. pose proof (Z.mod_pos_bound i week_ms Hw).
    unfold wrap64. rewrite (wrap_small 64 (s + i mod week_ms)) by (simpl; lia).
    apply wrap_small; simpl; lia.
  - rewrite length_zip_with, length_seqZ. unfold jitter_of. rewrite integers_length. lia.
  - exact Hj.
  - eapply Forall_zip_with2; [apply Forall_true; intros ?; exact I | exact Hj |].
    simpl. intros i j _ Hjr. pose proof (Z.mod_pos_bound i week_ms Hw). lia.
Qed.

(** X5. The generated strings: every [product_sku] is [SKU-], a word, a dash
    and a number below 10000 in decimal; every [url] that is not null is one
    of the seven pages followed by [?q=] and a number below 10000000. *)
Theorem sku_and_url_format n b s g t g' :
  make_rowgroup n b s g = Ok (t, g') ->
  Forall (fun c => exists w k,
            c = Some (SStr ("SKU-" ++ w ++ "-" ++ pretty k)) /\ 0 <= k < 10000)
         (cells_of "product_sku" t)
  /\ Forall (fun c => c = None \/ exists page q,
               c = Some (SStr (page ++ "?q=" ++ pretty q))
               /\ In page pages /\ 0 <= q < 10000000)
            (cells_of "url" t).
Proof.
  intros Hrun.
  destruct (make_rowgroup_columns _ _ _ _ _ _ Hrun)
    as (? & ? & ? & ? & ? & ? & ? & ? & ? & ? & ? & ? & ? & ? & words & gsku & ? & page & gq
        & umask & ? & ? & ? & ? & ? & ? & ? & Ht & _ & _ & Hpage & _).
  cbv zeta in Ht. subst t. apply take_elem in Hpage. split.
  - change (cells_of "product_sku" _) with
      (strs (char_add (char_add_l "SKU-" words)
                      (char_add_l "-" (astype_str (rng_integers 0 10000 (Z.to_nat n) gsku).1)))).
    unfold strs, char_add, char_add_l, astype_str. apply Forall_map.
    eapply Forall_zip_with2 with (P := fun x => exists w, x = "SKU-" ++ w)
                                 (Q := fun y => exists k, y = "-" ++ pretty k /\ 0 <= k < 10000).
    + apply Forall_map, Forall_true. intros w. by exists w.
    + apply Forall_map, Forall_map. eapply Forall_impl; [apply integers_range; lia|].
      intros k Hk. by exists k.
    + intros ? ? [w ->] (k & -> & Hk). exists w, k. split; [|exact Hk].
      by rewrite append_assoc.
  - change (cells_of "url" _) with
      (opt_strs (mask_none umask
                   (char_add (char_add_r page "?q=")
                             (astype_str (rng_integers 0 10000000 (Z.to_nat n) gq).1)))).
    unfold opt_strs, mask_none. apply Forall_map.
    eapply Forall_zip_with2 with (P := fun _ => True)
      (Q := fun u => exists p q, u = p ++ "?q=" ++ pretty q /\ In p pages /\ 0 <= q < 10000000).
    + apply Forall_true. intros ?; exact I.
    + unfold char_add, char_add_r, astype_str.
      eapply Forall_zip_with2 with (P := fun x => exists p, x = p ++ "?q=" /\ In p pages)
                                   (Q := fun y => exists q, y = pretty q /\ 0 <= q < 10000000).
      * apply Forall_map. eapply Forall_impl; [exact Hpage|]. intros p Hp. by exists p.
      * apply Forall_map. eapply Forall_impl; [apply integers_range; lia|].
        intros q Hq. by exists q.
      * intros ? ? (p & -> & Hp) (q & -> & Hq). exists p, q. by rewrite append_assoc.
    + intros [] u _ (p & q & -> & Hp & Hq); simpl; [by left | right; by exists p, q].
Qed.

(** X6. Every [payload] is a JSON object of three members: two keys of two
    lower-case letters each with a number below 10000, and [ok] with a
    boolean. *)
Theorem payload_format n b s g t g' :
  make_rowgroup n b s g = Ok (t, g') ->
  Forall (fun c => exists a1 b1 a2 b2 v1 v2 (ok : bool),
            c = Some (SStr ("{" ++ dq ++ a1 ++ b1 ++ dq ++ ":" ++ pretty v1
                            ++ "," ++ dq ++ a2 ++ b2 ++ dq ++ ":" ++ pretty v2
                            ++ "," ++ dq ++ "ok" ++ dq ++ ":"
                            ++ (if ok then "true" else "false") ++ "}"))
            /\ In a1 lowercase /\ In b1 lowercase /\ In a2 lowercase /\ In b2 lowercase
            /\ 0 <= v1 < 10000 /\ 0 <= v2 < 10000)
         (cells_of "payload" t).
Proof.
  intros Hrun.
  destruct (make_rowgroup_columns _ _ _ _ _ _ Hrun)
    as (? & ? & ? & ? & ? & ? & ? & ? & ? & ? & ? & ? & ? & ? & ? & ? & ? & ? & ?
        & ? & k1 & k2 & key1 & key2 & gv1 & gv2 & ok & Ht & _ & _ & _ & Hk1 & Hk2 & _).
  cbv zeta in Ht. subst t.
  apply two_letter_elem in Hk1, Hk2.
  match goal with
  | |- Forall _ (cells_of "payload" ?tbl) =>
      let c := eval cbv [cells_of column List.find String.eqb Ascii.eqb Bool.eqb col_name col_cells]
               in (cells_of "payload" tbl) in
      change (cells_of "payload" tbl) with c
  end.
  unfold strs, char_add, char_add_l, astype_str. apply Forall_map.
  pose (V := fun y : string => exists v, y = dq ++ ":" ++ pretty v /\ 0 <= v < 10000).
  pose (K := fun pre (x : string) =>
               exists a c, x = pre ++ dq ++ a ++ c /\ In a lowercase /\ In c lowercase).
  assert (HV : forall gv, Forall V (map (String.append (dq ++ ":"))
                 (map pretty (rng_integers 0 10000 (Z.to_nat n) gv).1))).
  { intros gv. apply Forall_map, Forall_map.
    eapply Forall_impl; [apply integers_range; lia|]. intros v Hv. by exists v. }
  assert (HK : forall pre keys,
             Forall (fun k => exists a c, k = a ++ c /\ In a lowercase /\ In c lowercase) keys ->
             Forall (K pre) (map (String.append (pre ++ dq)) keys)).
  { intros pre keys Hkeys. apply Forall_map. eapply Forall_impl; [exact Hkeys|].
    intros k (a & c & -> & Ha & Hc). exists a, c. by rewrite append_assoc. }
  eapply Forall_zip_with2 with
    (P := fun x => exists a c v, x = "{" ++ dq ++ a ++ c ++ dq ++ ":" ++ pretty v
                                 /\ In a lowercase /\ In c lowercase /\ 0 <= v < 10000)
    (Q := fun y => exists a c v (o : bool),
                     y = "," ++ dq ++ a ++ c ++ dq ++ ":" ++ pretty v
                         ++ "," ++ dq ++ "ok" ++ dq ++ ":" ++ (if o then "true" else "false") ++ "}"
                     /\ In a lowercase /\ In c lowercase /\ 0 <= v < 10000).
  - eapply Forall_zip_with2; [apply (HK "{"), Hk1 | apply HV |].
    intros ? ? (a & c & -> & Ha & Hc) (v & -> & Hv). exists a, c, v.
    split; [|done]. by rewrite !append_assoc.
  - eapply Forall_zip_with2 with
      (Q := fun z => exists v (o : bool),
               z = dq ++ ":" ++ pretty v ++ "," ++ dq ++ "ok" ++ dq ++ ":"
                   ++ (if o then "true" else "false") ++ "}"
               /\ 0 <= v < 10000);
      [apply (HK ","), Hk2 | |].
    + eapply Forall_zip_with2 with
        (Q := fun z => exists o : bool,
                 z = "," ++ dq ++ "ok" ++ dq ++ ":" ++ (if o then "true" else "false") ++ "}");
        [apply HV | |].
      * apply Forall_map, Forall_true. intros o. exists o. by destruct o.
      * intros ? ? (v & -> & Hv) [o ->]. exists v, o.
        split; [|done]. by rewrite !append_assoc.
    + intros ? ? (a & c & -> & Ha & Hc) (v & o & -> & Hv). exists a, c, v, o.
      split; [|done]. by rewrite !append_assoc.
  - intros ? ? (a1 & c1 & v1 & -> & ? & ? & ?) (a2 & c2 & v2 & o & -> & ? & ? & ?).
    exists a1, c1, a2, c2, v1, v2, o. split; [|done]. by rewrite !append_assoc.
Qed.
End ColumnRanges.

Section Categories.
Context `{Generator}.

(** X4. The categorical columns hold only listed values: a [country] is null
    or one of the fourteen country codes, a [channel] is one of the five
    channels and never null. *)
Theorem categories_are_listed n b s g t g' :
  make_rowgroup n b s g = Ok (t, g') ->
  Forall (fun c => c = None \/ exists v, c = Some (SStr v) /\ In v country_codes)
         (cells_of "country" t)
  /\ Forall (fun c => exists v, c = Some (SStr v) /\ In v channel_vals)
            (cells_of "channel" t).
Proof.
  intros Hrun.
  destruct (make_rowgroup_columns _ _ _ _ _ _ Hrun)
    as (? & ? & ? & ? & ? & ? & ? & ? & ? & ? & country & cmask & ? & channel & ? & ? & ? & ? & ?
        & ? & ? & ? & ? & ? & ? & ? & ? & Ht & Hc & Hch & _).
  cbv zeta in Ht. subst t. apply take_elem in Hc, Hch. split.
  - change (cells_of "country" _) with (opt_strs (mask_none cmask country)).
    unfold opt_strs, mask_none. apply Forall_map.
    eapply Forall_zip_with2; [apply Forall_true; intros ?; exact I | exact Hc |].
    intros [] v _ Hv; simpl; [by left | right; by exists v].
  - change (cells_of "channel" _) with (strs channel).
    unfold strs. apply Forall_map. eapply Forall_impl; [exact Hch|].
    intros v Hv. by exists v.
Qed.
End Categories.

(** ** The batches of a file *)

Section StreamFacts.
Context `{Generator}.

Lemma batches_prefix j k rgr b s g :
  (j <= k)%nat -> batches j rgr b s g `prefix_of` batches k rgr b s g.
Proof.
  revert k b g. induction j as [|j IH]; intros k b g Hjk; [apply prefix_nil|].
  destruct k as [|k]; [lia|]. simpl.
  destruct (make_rowgroup rgr b s g) as [[tbl g1]|e]; [|reflexivity].
  apply prefix_cons, IH. lia.
Qed.

Context `{!Sink}.

Lemma row_groups_at_close p q w : row_groups_at p (close q w) = row_groups_at p w.
Proof.
  unfold row_groups_at, close, log_op, set_fs. cbn [fs].
  destruct (decide (p = q)) as [->|Hpq].
  - rewrite lookup_alter_eq. by destruct (fs w !! q).
  - by rewrite lookup_alter_ne.
Qed.

Lemma row_groups_at_finally p st w :
  row_groups_at p (finally_block st w) = row_groups_at p w.
Proof. unfold finally_block. destruct (writer st); [apply row_groups_at_close|reflexivity]. Qed.

Section Passes.
Variables (p : string) (target rgr : Z) (ud : bool) (kw : WriterKwargs)
          (o : Q) (mrg : Z) (start : Z).

Lemma inv_no_writer w0 st w :
  loop_inv p rgr ud kw w0 st w -> fs w0 !! p = None -> writer st = None ->
  row_groups_at p w = [].
Proof.
  intros [_ _ _ _ _ Hfile] Hnone Hw. rewrite Hw in Hfile. destruct Hfile as [_ ->].
  unfold row_groups_at. by rewrite Hnone.
Qed.

(** A pass appends the batch it generated, or ends the loop with what the
    file held. *)
Lemma iteration_appends w0 st w c st' w' :
  loop_inv p rgr ud kw w0 st w -> fs w0 !! p = None ->
  iteration p target rgr ud kw o mrg start st w = (c, st', w') ->
  (row_groups_at p w' = row_groups_at p w /\ c <> Continue)
  \/ (exists tbl,
        make_rowgroup rgr (base_id st) start (rng st) = Ok (tbl, rng st')
        /\ base_id st' = base_id st + rgr
        /\ row_groups_at p w' = (row_groups_at p w ++ [tbl])%list).
Proof.
  intros Hinv Hnone Hit. unfold iteration in Hit.
  destruct (make_rowgroup rgr (base_id st) start (rng st)) as [[tbl g1]|e] eqn:Hmk.
  2:{ inversion Hit; subst. by left. }
  cbv zeta in Hit. cbn [writer row_groups base_id rng] in Hit.
  assert (Htail : forall w1,
    row_groups_at p w1 = row_groups_at p w ->
    match write_table p tbl w1 with
    | Ok w2 =>
        match stat_size p w2 with
        | Ok size =>
            if Qle_bool (threshold target o) (inject_Z size)
            then (Stop (Return size),
                  mkLocals (Some p) (row_groups st + 1) (base_id st + rgr) g1, w2)
            else if mrg <=? row_groups st + 1
                 then (Stop (Raised (RuntimeError (capacity_message mrg target size))),
                       mkLocals (Some p) (row_groups st + 1) (base_id st + rgr) g1, w2)
                 else (Continue,
                       mkLocals (Some p) (row_groups st + 1) (base_id st + rgr) g1, w2)
        | Raise e =>
            (Stop (Raised e),
             mkLocals (Some p) (row_groups st + 1) (base_id st + rgr) g1, w2)
        end
    | Raise e => (Stop (Raised e), mkLocals (Some p) (row_groups st) (base_id st) g1, w1)
    end = (c, st', w') ->
    (row_groups_at p w' = row_groups_at p w /\ c <> Continue)
    \/ (exists tbl0,
          Ok (tbl, g1) = Ok (tbl0, rng st')
          /\ base_id st' = base_id st + rgr
          /\ row_groups_at p w' = (row_groups_at p w ++ [tbl0])%list)).
  { intros w1 Hrows Hit1. destruct (write_table p tbl w1) as [w2|e] eqn:Hwr.
    2:{ inversion Hit1; subst. by left. }
    assert (Hrows2 : row_groups_at p w2 = (row_groups_at p w ++ [tbl])%list).
    { rewrite <- Hrows. unfold write_table in Hwr. unfold row_groups_at.
      destruct (fs w1 !! p) as [f|]; [|discriminate].
      destruct (negb _); [discriminate|].
      destruct (sink_write_error f tbl); [discriminate|]. inversion Hwr; subst w2.
      cbn [fs log_op set_fs]. by rewrite lookup_insert_eq. }
    assert (Hst : st' = mkLocals (Some p) (row_groups st + 1) (base_id st + rgr) g1
                  /\ w' = w2) by (repeat case_match; by simplify_eq).
    destruct Hst as [-> ->]. right. exists tbl. by split_and!. }
  destruct (writer st) as [q|] eqn:Hw.
  - assert (q = p) as ->.
    { destruct Hinv as [_ _ _ _ _ Hf]. rewrite Hw in Hf. tauto. }
    by apply (Htail w).
  - destruct (ParquetWriter p (table_schema tbl) ud kw w) as [w1|e] eqn:Hop;
      cbn [result_bind] in Hit.
    + apply (Htail w1); [|exact Hit].
      rewrite (inv_no_writer _ _ _ Hinv Hnone Hw).
      unfold ParquetWriter in Hop. destruct (sink_open_error _ _ _ _); [discriminate|].
      inversion Hop; subst w1. unfold row_groups_at. cbn [fs log_op set_fs].
      by rewrite lookup_insert_eq.
    + inversion Hit; subst. by left.
Qed.

(** The loop appends a run of the batch stream that starts at its state. *)
Lemma loop_appends w0 fuel st w out st' w' :
  loop_inv p rgr ud kw w0 st w -> fs w0 !! p = None ->
  loop p target rgr ud kw o mrg start fuel st w = (out, st', w') ->
  exists j,
    row_groups_at p w'
    = (row_groups_at p w ++ batches j rgr (base_id st) start (rng st))%list
    /\ length (batches j rgr (base_id st) start (rng st)) = j.
Proof.
  intros Hinv Hnone. revert st w Hinv.
  induction fuel as [|fuel IH]; simpl; intros st w Hinv Hrun.
  { inversion Hrun; subst. exists 0%nat. simpl. by rewrite app_nil_r. }
  destruct (iteration p target rgr ud kw o mrg start st w) as [[c st1] w1] eqn:Hit.
  destruct (iteration_cases _ _ _ _ _ _ _ _ _ _ _ _ _ _ Hinv Hit) as [Hinv1 _].
  destruct (iteration_appends _ _ _ _ _ _ Hinv Hnone Hit) as [[Hsame Hc]|(tbl & Hmk & Hb & Happ)].
  - destruct c as [|out1]; [done|]. inversion Hrun; subst.
    exists 0%nat. simpl. by rewrite app_nil_r.
  - destruct c as [|out1].
    + destruct (IH _ _ Hinv1 Hrun) as (j & Hrows & Hlen).
      exists (S j). simpl. rewrite Hmk. rewrite Hrows, Happ, Hb, <- (assoc_L (++)).
      split; [reflexivity|]. simpl. rewrite <- Hb. by rewrite Hlen.
    + inversion Hrun; subst. exists 1%nat. simpl. rewrite Hmk. by rewrite Happ.
Qed.
End Passes.

(** What [write_to_target] leaves at the path is a run of the batch stream
    of the seed, the row count and the clock. *)
Lemma write_to_target_batches fuel p target rgr c lvl ud seed o mrg w :
  exists j,
    row_groups_at p (write_to_target fuel p target rgr c lvl ud seed o mrg w).2
    = batches j rgr 0 (clock_ms w) (default_rng seed)
    /\ length (batches j rgr 0 (clock_ms w) (default_rng seed)) = j.
Proof.
  unfold write_to_target.
  destruct (try_block fuel p target rgr c lvl ud seed o mrg w) as [[out st] we] eqn:Htry.
  cbn [snd]. rewrite row_groups_at_finally. unfold try_block in Htry.
  assert (Hnone : fs (unlink_if_exists p w) !! p = None)
    by (rewrite unlink_fs; apply lookup_delete_eq).
  destruct (loop_appends _ _ _ _ _ _ _ _ _ _ _ _ _ _ _ (inv_initial _ _ _ _ _ _) Hnone Htry)
    as (j & Hrows & Hlen).
  cbn [base_id rng] in Hrows, Hlen.
  destruct (unlink_rest p w) as (Hclock & _). rewrite Hclock in Hrows, Hlen.
  exists j. split; [|exact Hlen]. rewrite Hrows. unfold row_groups_at. by rewrite Hnone.
Qed.

(** X7. The row groups a call leaves at the path are the first batches of
    one stream: the one [make_rowgroup] yields from the seed's generator,
    base id 0 and the clock read at the start, each call continuing where the
    one before ended.  The target, the overshoot, the cap, the codec and the
    sink decide only how many of them there are. *)
Theorem file_is_batch_stream fuel p target rgr c lvl ud seed o mrg w :
  let groups := row_groups_at p (write_to_target fuel p target rgr c lvl ud seed o mrg w).2 in
  groups = batches (length groups) rgr 0 (clock_ms w) (default_rng seed).
Proof.
  cbv zeta.
  destruct (write_to_target_batches fuel p target rgr c lvl ud seed o mrg w)
    as (j & Hrows & Hlen).
  rewrite Hrows at 2. rewrite Hlen. exact Hrows.
Qed.
End StreamFacts.

Section TwoRuns.
Context `{Generator}.
Variables (S1 S2 : Sink).

(** X8. Two calls with the same seed and row count that read the same clock
    write the same data as far as both go: the row groups of one file are the
    first row groups of the other, whatever the two paths, targets,
    overshoots, caps, codecs and sinks are. *)
Theorem same_seed_same_clock_same_prefix
        fuel1 p1 target1 c1 lvl1 ud1 o1 mrg1 w1
        fuel2 p2 target2 c2 lvl2 ud2 o2 mrg2 w2 rgr seed :
  clock_ms w1 = clock_ms w2 ->
  let groups1 :=
    row_groups_at p1
      (@write_to_target _ _ S1 fuel1 p1 target1 rgr c1 lvl1 ud1 seed o1 mrg1 w1).2 in
  let groups2 :=
    row_groups_at p2
      (@write_to_target _ _ S2 fuel2 p2 target2 rgr c2 lvl2 ud2 seed o2 mrg2 w2).2 in
  groups1 `prefix_of` groups2 \/ groups2 `prefix_of` groups1.
Proof.
  intros Hclock. cbv zeta.
  destruct (@write_to_target_batches _ _ S1 fuel1 p1 target1 rgr c1 lvl1 ud1 seed o1 mrg1 w1)
    as (j1 & -> & _).
  destruct (@write_to_target_batches _ _ S2 fuel2 p2 target2 rgr c2 lvl2 ud2 seed o2 mrg2 w2)
    as (j2 & -> & _).
  rewrite Hclock.
  destruct (le_ge_dec j1 j2); [left|right]; by apply batches_prefix.
Qed.
End TwoRuns.

Section WriterExtras.
Context `{Generator} `{!Sink}.

(** X9. A target the threshold of which is zero or less is met by the first
    row group, when the sink reports no negative size: the call writes
    exactly one row group and returns, or fails in that first pass with an
    error of the synthesizer or the sink and no row group written.  It never
    fails with the capacity error, not even under a cap of zero. *)
Theorem nonpositive_target_takes_one_pass fuel p target rgr c lvl ud seed o mrg w out w' :
  (forall f, 0 <= st_size f) ->
  (threshold target o <= 0)%Q ->
  (1 <= fuel)%nat ->
  write_to_target fuel p target rgr c lvl ud seed o mrg w = (out, w') ->
  (exists size, out = Return size /\ length (row_groups_at p w') = 1%nat)
  \/ (exists e, out = Raised e /\ is_RuntimeError e = false /\ row_groups_at p w' = []).
Proof.
  intros Hsize Hthr Hfuel Hrun.
  apply write_to_target_inv in Hrun as (st & we & Htry & ->).
  rewrite row_groups_at_finally.
  destruct fuel as [|fuel]; [lia|].
  unfold try_block in Htry. simpl in Htry.
  set (w0 := unlink_if_exists p w) in *.
  set (kw := make_writer_kwargs c lvl) in *.
  destruct (iteration p target rgr ud kw o mrg (clock_ms w0)
              (mkLocals None 0 0 (default_rng seed)) w0) as [[ctl st1] w1] eqn:Hit.
  assert (Hnone : fs w0 !! p = None) by (unfold w0; rewrite unlink_fs; apply lookup_delete_eq).
  destruct (iteration_cases _ _ _ _ _ _ _ _ _ _ _ _ _ _ (inv_initial _ _ _ _ w0 _) Hit)
    as [Hinv1 [(e & -> & Hne & Hrg)|(f & Hf & Hw & Hrg & Hc)]].
  - inversion Htry; subst. right. exists e. split_and!; auto.
    destruct Hinv1 as [_ _ _ _ _ Hfile]. cbn [row_groups] in Hrg.
    destruct (writer st) as [q|].
    + destruct Hfile as (-> & f & Hlook & _ & _ & _ & _ & Hlen & _).
      unfold row_groups_at. rewrite Hlook. rewrite Hrg in Hlen.
      by destruct (f_row_groups f).
    + destruct Hfile as [_ ->]. unfold row_groups_at. by rewrite Hnone.
  - assert (Hq : Qle_bool (threshold target o) (inject_Z (st_size f)) = true).
    { apply Qle_bool_iff. eapply Qle_trans; [exact Hthr|].
      change 0%Q with (inject_Z 0). rewrite <- Zle_Qle. apply Hsize. }
    rewrite Hq in Hc. subst ctl. inversion Htry; subst. left. exists (st_size f).
    split; [reflexivity|].
    destruct Hinv1 as [_ _ _ _ _ Hfile]. rewrite Hw in Hfile.
    destruct Hfile as (_ & f' & Hlook & _ & _ & _ & _ & Hlen & _).
    unfold row_groups_at. rewrite Hlook, Hlen, Hrg. reflexivity.
Qed.

(** X10. Whatever the outcome of a call, a file it leaves at the path is
    closed and carries the writer's configuration: the schema of the
    batches, the dictionary flag, the codec, and the compression level only
    when a codec was given; each of its row groups has that schema and the
    requested number of rows in every column. *)
Theorem written_file_configuration fuel p target rgr c lvl ud seed o mrg w out w' f :
  write_to_target fuel p target rgr c lvl ud seed o mrg w = (out, w') ->
  fs w' !! p = Some f ->
  f_closed f = true
  /\ f_schema f = schema
  /\ f_use_dictionary f = ud
  /\ f_kwargs f = mkKwargs c (match c with Some _ => lvl | None => None end)
  /\ Forall (fun tbl => table_schema tbl = schema
                        /\ Forall (fun col => length (col_cells col) = Z.to_nat rgr) tbl)
            (f_row_groups f).
Proof.
  intros Hrun Hf. apply write_to_target_inv in Hrun as (st & we & Htry & ->).
  apply try_block_inv in Htry as [_ _ _ _ _ Hfile].
  unfold finally_block in Hf. destruct (writer st) as [q|].
  - destruct Hfile as (-> & f0 & Hlook & _ & Hsch & Hud & Hkw & _ & Hgroups & _).
    unfold close, log_op, set_fs in Hf. cbn [fs] in Hf.
    rewrite lookup_alter_eq, Hlook in Hf. inversion Hf; subst f.
    cbn [closed_file f_closed f_schema f_use_dictionary f_kwargs f_row_groups].
    split_and!; auto.
    + rewrite Hkw. by destruct c.
    + apply Forall_lookup. intros i tbl Hi.
      destruct (Hgroups i tbl Hi) as (_ & Hlen & Hs). by split.
  - destruct Hfile as [_ ->]. rewrite unlink_fs, lookup_delete_eq in Hf. discriminate.
Qed.

Lemma write_to_target_return fuel p target rgr c lvl ud seed o mrg w size w' :
  write_to_target fuel p target rgr c lvl ud seed o mrg w = (Return size, w') ->
  stdout w' = stdout w
  /\ (exists f, fs w' !! p = Some f /\ f_closed f = true)
  /\ (forall q, q <> p -> fs w' !! q = fs w !! q)
  /\ exists k, sink_log w'
               = (sink_log w ++ OpOpen p :: replicate k (OpWrite p) ++ [OpClose p])%list.
Proof.
  intros Hrun. apply write_to_target_inv in Hrun as (st & we & Htry & ->).
  destruct (try_block_final _ _ _ _ _ _ _ _ _ _ _ _ _ _ Htry ltac:(discriminate))
    as (_ & _ & _ & _ & _ & _ & Hinv & [(e & He & _)|(f & Hf & Hw & _)]); [discriminate|].
  destruct Hinv as [_ Hout Hframe _ _ Hfile]. rewrite Hw in Hfile.
  destruct Hfile as (_ & f' & Hlook & _ & _ & _ & _ & _ & _ & Hlog).
  destruct (unlink_rest p w) as (_ & Hlog0 & Hout0).
  unfold finally_block. rewrite Hw. unfold close, log_op, set_fs.
  cbn [fs stdout sink_log]. split_and!.
  - by rewrite Hout.
  - exists (closed_file f'). by rewrite lookup_alter_eq, Hlook.
  - intros q Hq. rewrite lookup_alter_ne by done. rewrite Hframe by done.
    rewrite unlink_fs. by apply lookup_delete_ne.
  - eexists. rewrite Hlog, Hlog0. rewrite <- (assoc_L (++)). reflexivity.
Qed.

(** X11. When [main] gets through all its targets, it has printed the two
    lines of each target in order, opened and closed the sink once per
    target, and left a closed file under the name of each target; closed
    files that were there before are still there or replaced by closed
    ones.  Stated for a codec name without a slash, so that the name printed
    is the whole file name. *)
Theorem main_success_writes_every_target fuel a ts w w' :
  all_chars (fun c => negb (Ascii.eqb c "/")) (codec_tag a) = true ->
  main_loop fuel a ts w = (Return tt, w') ->
  (exists sizes,
     length sizes = length ts
     /\ stdout w' = (stdout w ++ concat (zip_with (target_lines a) ts sizes))%list)
  /\ opens (sink_log w') = (opens (sink_log w) + length ts)%nat
  /\ closes (sink_log w') = (closes (sink_log w) + length ts)%nat
  /\ (forall t, In t ts ->
        exists f, fs w' !! (out_dir a ++ "/" ++ fname a t) = Some f /\ f_closed f = true)
  /\ (forall q f, fs w !! q = Some f -> f_closed f = true ->
        exists f', fs w' !! q = Some f' /\ f_closed f' = true).
Proof.
  intros _. revert w. induction ts as [|t rest IH]; simpl; intros w Hrun.
  { inversion Hrun; subst. split_and!; auto.
    - exists []. by rewrite app_nil_r.
    - intros t []. 
    - eauto. }
  destruct (write_target fuel a t w) as [[size|e|] w1] eqn:Hwt; try discriminate.
  unfold write_target in Hwt.
  apply write_to_target_return in Hwt as (Hout & (f1 & Hf1 & Hc1) & Hframe & k & Hlog).
  cbn [stdout sink_log fs print] in Hout, Hlog, Hframe.
  destruct (IH _ Hrun) as ((sizes & Hlen & Hout') & Hopens & Hcloses & Hfiles & Hkeep).
  cbn [stdout sink_log fs print] in Hout', Hopens, Hcloses, Hkeep.
  split_and!.
  - exists (size :: sizes). split; [simpl; by rewrite Hlen|].
    rewrite Hout', Hout. simpl. rewrite <- !(assoc_L (++)). reflexivity.
  - rewrite Hopens, Hlog, (cons_middle (OpOpen _)), !opens_app, opens_writes.
    cbn [opens List.filter length]. lia.
  - rewrite Hcloses, Hlog, (cons_middle (OpOpen _)), !closes_app, closes_writes.
    cbn [closes List.filter length]. lia.
  - intros t' [<-|Hin]; [|by apply Hfiles]. by apply (Hkeep _ f1).
  - intros q f Hq Hcl. destruct (decide (q = out_dir a ++ "/" ++ fname a t)) as [->|Hne].
    + by apply (Hkeep _ f1).
    + apply (Hkeep q f); [|exact Hcl]. by rewrite Hframe.
Qed.
End WriterExtras.

(** ** human_bytes *)

Lemma Qltb_inject_Z a b : Qltb (inject_Z a) (inject_Z b) = (a <? b).
Proof. unfold Qltb, Qle_bool. simpl. rewrite !Z.mul_1_r. by rewrite Z.ltb_antisym. Qed.

#[export] Instance Qltb_comp : Proper (Qeq ==> Qeq ==> eq) Qltb.
Proof. intros a a' Ea b b' Eb. unfold Qltb. by rewrite Ea, Eb. Qed.

#[export] Instance round_half_even_comp : Proper (Qeq ==> eq) round_half_even.
Proof.
  intros x y E. unfold round_half_even. rewrite (Qfloor_comp _ _ E). cbv zeta.
  assert (E1 : Qltb (x - inject_Z (Qfloor y)) (1 # 2) = Qltb (y - inject_Z (Qfloor y)) (1 # 2))
    by (by rewrite E).
  assert (E2 : Qltb (1 # 2) (x - inject_Z (Qfloor y)) = Qltb (1 # 2) (y - inject_Z (Qfloor y)))
    by (by rewrite E).
  by rewrite E1, E2.
Qed.

#[export] Instance format_2f_comp : Proper (Qeq ==> eq) format_2f.
Proof.
  intros x y E. unfold format_2f.
  assert (E1 : round_half_even (Qabs x * 100) = round_half_even (Qabs y * 100))
    by (by rewrite E).
  assert (E2 : Qltb x 0 = Qltb y 0) by (by rewrite E).
  by rewrite E1, E2.
Qed.

#[export] Instance human_bytes_from_comp : Proper (Qeq ==> eq ==> eq) human_bytes_from.
Proof.
  intros x y E us ? <-. revert x y E. induction us as [|u rest IH]; intros x y E; simpl.
  - by rewrite E.
  - assert (E1 : Qltb x 1024 = Qltb y 1024) by (by rewrite E).
    rewrite E1, E. destruct (_ || _); [reflexivity|]. apply IH. by rewrite E.
Qed.

Lemma round_half_even_Z z : round_half_even (inject_Z z) = z.
Proof.
  unfold round_half_even. rewrite Qfloor_Z. cbv zeta.
  assert (E : (inject_Z z - inject_Z z == 0)%Q) by ring.
  assert (E1 : Qltb (inject_Z z - inject_Z z) (1 # 2) = Qltb 0 (1 # 2)) by (by rewrite E).
  rewrite E1. reflexivity.
Qed.

Lemma pretty_nonneg (k : Z) : 0 <= k -> pretty k = pretty (Z.to_N k).
Proof. intros Hk. destruct k; [reflexivity|reflexivity|lia]. Qed.

(** A whole number of a unit is shown with two zero decimals. *)
Lemma format_2f_whole q k : (q == inject_Z k)%Q -> 0 <= k -> format_2f q = pretty k ++ ".00".
Proof.
  intros E Hk. rewrite E. unfold format_2f.
  assert (Ec : (Qabs (inject_Z k) * 100 == inject_Z (k * 100))%Q).
  { rewrite Qabs_pos by (by apply (Qle_trans _ (inject_Z 0)); [|rewrite <- Zle_Qle]).
    rewrite inject_Z_mult. reflexivity. }
  rewrite Ec, round_half_even_Z. cbv zeta.
  rewrite Z_mod_mult, Z_div_mult by lia.
  change 0%Q with (inject_Z 0). rewrite Qltb_inject_Z.
  destruct (Z.ltb_spec k 0); [lia|]. reflexivity.
Qed.

Lemma human_bytes_from_next m u rest :
  1 <= m -> rest <> [] ->
  human_bytes_from (inject_Z (m * 1024)) (u :: rest) = human_bytes_from (inject_Z m) rest.
Proof.
  intros Hm Hrest. cbn [human_bytes_from].
  change 1024%Q with (inject_Z 1024). rewrite Qltb_inject_Z.
  destruct (Z.ltb_spec (m * 1024) 1024); [lia|].
  destruct rest; [done|]. cbn [orb].
  apply human_bytes_from_comp; [|reflexivity].
  rewrite inject_Z_mult. field.
Qed.

Lemma human_bytes_from_here q u rest :
  Qltb q 1024 = true \/ rest = [] ->
  human_bytes_from q (u :: rest) = format_2f q ++ " " ++ u.
Proof.
  intros Hq. cbn [human_bytes_from].
  destruct Hq as [->| ->]; [reflexivity|]. by rewrite orb_true_r.
Qed.

Lemma pretty_N_char_digit x : is_digit (pretty_N_char x) = true.
Proof.
  destruct x as [|p]; [reflexivity|].
  do 4 (destruct p as [p|p|]; try reflexivity).
Qed.

Lemma pretty_N_go_digits x s :
  all_chars is_digit s = true -> all_chars is_digit (pretty_N_go x s) = true.
Proof.
  revert s. induction (N.lt_wf_0 x) as [x _ IH]. intros s Hs.
  destruct (decide (x = 0%N)) as [->|Hx]; [by rewrite pretty_N_go_0|].
  rewrite pretty_N_go_step by lia. apply IH.
  - apply N.div_lt; lia.
  - cbn [all_chars]. by rewrite Hs, pretty_N_char_digit.
Qed.

Lemma pretty_digits (k : Z) : 0 <= k -> all_chars is_digit (pretty k) = true.
Proof.
  intros Hk. rewrite pretty_nonneg by done.
  unfold pretty, pretty_N. case_decide; [reflexivity|]. by apply pretty_N_go_digits.
Qed.

Lemma all_chars_impl (P Q : ascii -> bool) s :
  (forall c, P c = true -> Q c = true) -> all_chars P s = true -> all_chars Q s = true.
Proof.
  intros HPQ. induction s as [|c s IH]; [done|]. cbn [all_chars].
  intros [Hc Hs]%andb_true_iff. by rewrite (HPQ _ Hc), IH.
Qed.

Lemma str_replace_char_absent c by_ s :
  all_chars (fun x => negb (Ascii.eqb x c)) s = true -> str_replace_char c by_ s = s.
Proof.
  induction s as [|x s IH]; [done|]. cbn [all_chars str_replace_char].
  intros [Hx Hs]%andb_true_iff. apply negb_true_iff in Hx. rewrite Hx, IH by done.
  reflexivity.
Qed.

Lemma str_replace_char_app c by_ s t :
  str_replace_char c by_ (s ++ t) = str_replace_char c by_ s ++ str_replace_char c by_ t.
Proof.
  induction s as [|x s IH]; [reflexivity|].
  change (String x s ++ t) with (String x (s ++ t)).
  cbn [str_replace_char]. by rewrite IH, append_assoc.
Qed.

Lemma str_replace_char_digits c by_ k :
  is_digit c = false -> 0 <= k -> str_replace_char c by_ (pretty k) = pretty k.
Proof.
  intros Hc Hk. apply str_replace_char_absent.
  eapply all_chars_impl; [|by apply pretty_digits].
  intros x Hx. apply negb_true_iff. destruct (Ascii.eqb_spec x c); [congruence|done].
Qed.

Local Ltac compare_scaled :=
  unfold Qltb, Qle_bool; cbn; rewrite ?Pos2Z.inj_mul;
  match goal with
  | |- negb (?a <=? ?b) = (?c <? ?d) =>
      destruct (Z.leb_spec a b), (Z.ltb_spec c d); simpl; lia
  end.

(** X12. The unit [human_bytes] picks: the first of B, KB, MB, GB below
    1024, dividing by 1024 from one to the next, and TB from 1024^4 on with
    no larger unit; a negative number is always shown in bytes.  Stated for
    the byte counts a double holds exactly. *)
Theorem human_bytes_unit n :
  - 2 ^ 53 <= n <= 2 ^ 53 ->
  human_bytes n =
    if n <? 1024 then format_2f (inject_Z n) ++ " B"
    else if n <? 1024 ^ 2 then format_2f (inject_Z n / 1024) ++ " KB"
    else if n <? 1024 ^ 3 then format_2f (inject_Z n / 1024 / 1024) ++ " MB"
    else if n <? 1024 ^ 4 then format_2f (inject_Z n / 1024 / 1024 / 1024) ++ " GB"
    else format_2f (inject_Z n / 1024 / 1024 / 1024 / 1024) ++ " TB".
Proof.
  intros _. unfold human_bytes. cbn [human_bytes_from]. rewrite !orb_false_r, orb_true_r.
  assert (H1 : Qltb (inject_Z n) 1024 = (n <? 1024)) by apply (Qltb_inject_Z n 1024).
  assert (H2 : Qltb (inject_Z n / 1024) 1024 = (n <? 1024 ^ 2)) by compare_scaled.
  assert (H3 : Qltb (inject_Z n / 1024 / 1024) 1024 = (n <? 1024 ^ 3)) by compare_scaled.
  assert (H4 : Qltb (inject_Z n / 1024 / 1024 / 1024) 1024 = (n <? 1024 ^ 4))
    by compare_scaled.
  rewrite H1, H2, H3, H4.
  destruct (n <? 1024) eqn:E1; [reflexivity|].
  destruct (n <? 1024 ^ 2) eqn:E2; [reflexivity|].
  destruct (n <? 1024 ^ 3) eqn:E3; [reflexivity|].
  destruct (n <? 1024 ^ 4) eqn:E4; reflexivity.
Qed.

(** A whole number [k] of a unit is shown as [k.00] and the unit. *)
Lemma human_bytes_whole (j : nat) (k : Z) u :
  units !! j = Some u ->
  (if j is O then 0 <= k else 1 <= k) ->
  k < 1024 \/ (j = 4%nat /\ k < 2 ^ 53) ->
  human_bytes (k * 1024 ^ Z.of_nat j) = pretty k ++ ".00 " ++ u.
Proof.
  intros Hu Hlo Hhi. unfold human_bytes.
  assert (Hend : forall rest,
            k < 1024 \/ rest = [] -> 0 <= k ->
            human_bytes_from (inject_Z k) (u :: rest) = pretty k ++ ".00 " ++ u).
  { intros rest Hk Hk0. rewrite human_bytes_from_here.
    - rewrite (format_2f_whole _ k) by (done || reflexivity). by rewrite append_assoc.
    - destruct Hk as [Hk| ->]; [left|by right].
      change 1024%Q with (inject_Z 1024). rewrite Qltb_inject_Z. by apply Z.ltb_lt. }
  destruct j as [|[|[|[|[|j]]]]]; simpl in Hu; try discriminate; injection Hu as <-.
  - rewrite Z.mul_1_r. apply Hend; [|done]. destruct Hhi as [|[? _]]; [by left|done].
  - replace (k * 1024 ^ Z.of_nat 1) with (k * 1024) by lia.
    rewrite human_bytes_from_next by (done || lia).
    apply Hend; [|lia]. destruct Hhi as [|[? _]]; [by left|done].
  - replace (k * 1024 ^ Z.of_nat 2) with (k * 1024 * 1024) by lia.
    rewrite !human_bytes_from_next by (done || lia).
    apply Hend; [|lia]. destruct Hhi as [|[? _]]; [by left|done].
  - replace (k * 1024 ^ Z.of_nat 3) with (k * 1024 * 1024 * 1024) by lia.
    rewrite !human_bytes_from_next by (done || lia).
    apply Hend; [|lia]. destruct Hhi as [|[? _]]; [by left|done].
  - replace (k * 1024 ^ Z.of_nat 4) with (k * 1024 * 1024 * 1024 * 1024) by lia.
    rewrite !human_bytes_from_next by (done || lia).
    apply Hend; [by right|lia].
Qed.

(** X13. A whole number [k] of a unit is shown as [k.00] and the unit: below
    1024 for B, KB, MB and GB (from 1 on above B), and any number from 1 on
    for TB, the last unit.  The file of such a target is named after it with
    the blank dropped and the point turned into an underscore. *)
Theorem whole_units_shown_and_named (j : nat) (k : Z) unit :
  units !! j = Some unit ->
  (if j is O then 0 <= k else 1 <= k) ->
  k < 1024 \/ (j = 4%nat /\ k < 2 ^ 53) ->
  human_bytes (k * 1024 ^ Z.of_nat j) = pretty k ++ ".00 " ++ unit
  /\ forall a,
       fname a (k * 1024 ^ Z.of_nat j)
       = "realish_" ++ pretty k ++ "_00" ++ unit ++ "_" ++ codec_tag a ++ lvl_tag a
           ++ ".parquet".
Proof.
  intros Hunit Hlo Hhi.
  pose proof (human_bytes_whole j k unit Hunit Hlo Hhi) as Hshown.
  split; [exact Hshown|]. intros a. unfold fname. rewrite Hshown.
  assert (Hk : 0 <= k) by (destruct j; lia).
  rewrite str_replace_char_app, str_replace_char_digits by done.
  assert (Hblank : str_replace_char " " EmptyString (".00 " ++ unit) = ".00" ++ unit
                   /\ str_replace_char "." "_" (".00" ++ unit) = "_00" ++ unit).
  { destruct j as [|[|[|[|[|j]]]]]; simpl in Hunit; try discriminate;
      injection Hunit as <-; by split. }
  destruct Hblank as [-> Hpoint].
  rewrite str_replace_char_app, str_replace_char_digits, Hpoint by done.
  by rewrite !append_assoc.
Qed.

(** ** Stripping, case and suffixes *)

Lemma length_append (a b : string) :
  String.length (a ++ b) = (String.length a + String.length b)%nat.
Proof.
  induction a as [|x a IH]; [reflexivity|].
  change (String x a ++ b) with (String x (a ++ b)). simpl. by rewrite IH.
Qed.

Lemma list_ascii_of_string_app (a b : string) :
  list_ascii_of_string (a ++ b) = (list_ascii_of_string a ++ list_ascii_of_string b)%list.
Proof.
  induction a as [|x a IH]; [reflexivity|].
  change (String x a ++ b) with (String x (a ++ b)). simpl. by rewrite IH.
Qed.

Lemma length_list_ascii_of_string (s : string) :
  length (list_ascii_of_string s) = String.length s.
Proof. induction s as [|x s IH]; [reflexivity|]. simpl. by rewrite IH. Qed.

Lemma all_chars_app P (a b : string) :
  all_chars P (a ++ b) = all_chars P a && all_chars P b.
Proof.
  induction a as [|x a IH]; [reflexivity|].
  change (String x a ++ b) with (String x (a ++ b)). simpl. by rewrite IH, andb_assoc.
Qed.

Lemma str_map_app f (a b : string) : str_map f (a ++ b) = str_map f a ++ str_map f b.
Proof.
  induction a as [|x a IH]; [reflexivity|].
  change (String x a ++ b) with (String x (a ++ b)). simpl. rewrite IH. reflexivity.
Qed.

Lemma str_map_fixed f s :
  all_chars (fun c => Ascii.eqb (f c) c) s = true -> str_map f s = s.
Proof.
  induction s as [|x s IH]; [done|]. simpl.
  intros [Hx Hs]%andb_true_iff. apply Ascii.eqb_eq in Hx. by rewrite Hx, IH.
Qed.

Lemma substring_app_l (a b : string) : substring 0 (String.length a) (a ++ b) = a.
Proof.
  induction a as [|x a IH]; [by destruct b|].
  change (String x a ++ b) with (String x (a ++ b)). simpl. by rewrite IH.
Qed.

Lemma drop_end_app (a b : string) : drop_end (String.length b) (a ++ b) = a.
Proof.
  unfold drop_end. rewrite length_append.
  replace (String.length a + String.length b - String.length b)%nat
    with (String.length a) by lia.
  apply substring_app_l.
Qed.

Lemma endswith_app (a b : string) : endswith (a ++ b) b = true.
Proof.
  unfold endswith. apply bool_decide_eq_true. rewrite list_ascii_of_string_app.
  by apply suffix_app_r.
Qed.

(** Whether a string ends with a suffix is seen from an end of it that is
    at least as long. *)
Lemma endswith_app_long (a v u : string) :
  (String.length u <= String.length v)%nat -> endswith (a ++ v) u = endswith v u.
Proof.
  intros Hlen. unfold endswith. apply bool_decide_ext.
  rewrite list_ascii_of_string_app. split; [|by apply suffix_app_r].
  intros [k Hk]. symmetry in Hk. apply app_eq_inv in Hk as [(k' & _ & Hv)|(k' & _ & Hu)].
  - by exists k'.
  - pose proof (f_equal length Hu) as Hl. rewrite length_app in Hl.
    rewrite !length_list_ascii_of_string in Hl.
    destruct k'; [|simpl in Hl; lia]. simpl in Hu. rewrite Hu. reflexivity.
Qed.

Lemma lstrip_first P c s : P c = false -> lstrip P (String c s) = String c s.
Proof. intros Hc. simpl. by rewrite Hc. Qed.

Lemma rstrip_last P s c :
  P c = false -> rstrip P (s ++ String c EmptyString) = s ++ String c EmptyString.
Proof.
  intros Hc. induction s as [|x s IH].
  - simpl. by rewrite Hc.
  - change (String x s ++ String c EmptyString) with (String x (s ++ String c EmptyString)).
    cbn [rstrip]. rewrite IH. by destruct s.
Qed.

Lemma rstrip_space P s c : P c = true -> rstrip P (s ++ String c EmptyString) = rstrip P s.
Proof.
  intros Hc. induction s as [|x s IH].
  - simpl. by rewrite Hc.
  - change (String x s ++ String c EmptyString) with (String x (s ++ String c EmptyString)).
    cbn [rstrip]. by rewrite IH.
Qed.

(** ** Decimal numerals *)

Lemma digit_not_space c : is_digit c = true -> is_space c = false /\ is_c_space c = false.
Proof.
  unfold is_digit, is_space, is_c_space. cbv zeta. intros [H1 H2]%andb_true_iff.
  apply N.leb_le in H1, H2. split.
  - apply orb_false_iff. split; apply andb_false_iff.
    + right. apply N.leb_gt. lia.
    + right. apply N.leb_gt. lia.
  - apply orb_false_iff. split; [apply andb_false_iff; right; apply N.leb_gt; lia|].
    apply N.eqb_neq. lia.
Qed.

Lemma digit_upper c : is_digit c = true -> upper_char c = c.
Proof.
  unfold is_digit, upper_char. cbv zeta. intros [H1 H2]%andb_true_iff.
  apply N.leb_le in H1, H2.
  destruct (97 <=? N_of_ascii c)%N eqn:E; [apply N.leb_le in E; lia|]. reflexivity.
Qed.

Lemma digit_value_char d : (d < 10)%N -> digit_value (pretty_N_char d) = d.
Proof.
  intros Hd. destruct d as [|p]; [reflexivity|].
  do 4 (destruct p as [p|p|]; try reflexivity; try lia).
Qed.

(** A numeral of [x] in front of [s]: its digits, then [s]. *)
Lemma pretty_N_go_app x s :
  exists p, pretty_N_go x s = p ++ s /\ all_chars is_digit p = true
            /\ (x <> 0%N -> p <> EmptyString).
Proof.
  revert s. induction (N.lt_wf_0 x) as [x _ IH]. intros s.
  destruct (decide (x = 0%N)) as [->|Hx].
  { exists EmptyString. by rewrite pretty_N_go_0. }
  rewrite pretty_N_go_step by lia.
  destruct (IH (x `div` 10)%N ltac:(apply N.div_lt; lia)
               (String (pretty_N_char (x `mod` 10)) s)) as (p & -> & Hp & _).
  exists (p ++ String (pretty_N_char (x `mod` 10)) EmptyString). split_and!.
  - by rewrite append_assoc.
  - rewrite all_chars_app, Hp. simpl. by rewrite pretty_N_char_digit.
  - intros _. by destruct p.
Qed.

Lemma read_digits_app p s acc count :
  all_chars is_digit p = true ->
  exists acc' k, read_digits (p ++ s) acc count = read_digits s acc' (count + k)
                 /\ k = String.length p
                 /\ forall s', read_digits (p ++ s') acc count = read_digits s' acc' (count + k).
Proof.
  revert acc count. induction p as [|c p IH]; intros acc count Hp.
  - exists acc, 0%nat. rewrite Nat.add_0_r. by split_and!.
  - simpl in Hp. apply andb_true_iff in Hp as [Hc Hp].
    destruct (IH (acc * 10 + digit_value c)%N (S count) Hp) as (acc' & k & E & -> & E').
    exists acc', (S (String.length p)).
    change (String c p ++ s) with (String c (p ++ s)). cbn [read_digits]. rewrite Hc, E.
    replace (count + S (String.length p))%nat with (S count + String.length p)%nat by lia.
    split_and!; auto. intros s'.
    change (String c p ++ s') with (String c (p ++ s')). cbn [read_digits]. by rewrite Hc, E'.
Qed.

(** Reading the numeral of [x] continues the number read so far by the
    digits of [x]. *)
Lemma read_digits_pretty_N_go x s acc count :
  exists k, read_digits (pretty_N_go x s) acc count
            = read_digits s (acc * 10 ^ N.of_nat k + x)%N (count + k)
            /\ (x < 10 ^ N.of_nat k)%N /\ (x <> 0%N -> k <> 0%nat).
Proof.
  revert s acc count. induction (N.lt_wf_0 x) as [x _ IH]. intros s acc count.
  destruct (decide (x = 0%N)) as [->|Hx].
  { exists 0%nat. rewrite pretty_N_go_0, Nat.add_0_r. simpl. split_and!; [|lia|done].
    f_equal. lia. }
  rewrite pretty_N_go_step by lia.
  destruct (IH (x `div` 10)%N ltac:(apply N.div_lt; lia)
               (String (pretty_N_char (x `mod` 10)) s) acc count) as (k & -> & Hk & _).
  exists (S k). cbn [read_digits]. rewrite pretty_N_char_digit.
  rewrite digit_value_char by (apply N.mod_lt; lia).
  rewrite Nat2N.inj_succ, N.pow_succ_r'.
  pose proof (N.div_mod' x 10) as Hdm.
  pose proof (N.mod_lt x 10 ltac:(lia)) as Hm.
  split_and!; [|lia|lia].
  f_equal; lia.
Qed.

Lemma pretty_N_go_append x s : pretty_N_go x s = pretty_N_go x EmptyString ++ s.
Proof.
  revert s. induction (N.lt_wf_0 x) as [x _ IH]. intros s.
  destruct (decide (x = 0%N)) as [->|Hx]; [by rewrite !pretty_N_go_0|].
  rewrite (pretty_N_go_step x s), (pretty_N_go_step x EmptyString) by lia.
  rewrite (IH (x `div` 10)%N ltac:(apply N.div_lt; lia) (String _ s)).
  rewrite (IH (x `div` 10)%N ltac:(apply N.div_lt; lia) (String _ EmptyString)).
  by rewrite append_assoc.
Qed.

Lemma read_digits_pretty (k : Z) s :
  0 <= k ->
  exists count, read_digits (pretty k ++ s) 0 0 = read_digits s (Z.to_N k) (S count).
Proof.
  intros Hk. rewrite pretty_nonneg by done. unfold pretty, pretty_N.
  case_decide as E.
  - rewrite E. exists 0%nat. reflexivity.
  - rewrite <- pretty_N_go_append.
    destruct (read_digits_pretty_N_go (Z.to_N k) s 0 0) as (n & -> & _ & Hn).
    destruct n as [|n]; [by destruct (Hn E)|].
    exists n. f_equal.
Qed.

(** The numeral of a number is its digits, the last of them apart. *)
Lemma pretty_last_digit (k : Z) :
  0 <= k ->
  exists p d, pretty k = p ++ String d EmptyString
              /\ all_chars is_digit p = true /\ is_digit d = true.
Proof.
  intros Hk. rewrite pretty_nonneg by done. unfold pretty, pretty_N.
  case_decide as E.
  - by exists EmptyString, "0"%char.
  - rewrite pretty_N_go_step by lia.
    destruct (pretty_N_go_app (Z.to_N k `div` 10)
                (String (pretty_N_char (Z.to_N k `mod` 10)) EmptyString)) as (p & -> & Hp & _).
    exists p, (pretty_N_char (Z.to_N k `mod` 10)). by rewrite pretty_N_char_digit.
Qed.

Lemma pretty_first_digit (k : Z) :
  0 <= k -> exists d rest, pretty k = String d rest /\ is_digit d = true.
Proof.
  intros Hk. pose proof (pretty_digits k Hk) as Hd.
  destruct (pretty_last_digit k Hk) as (p & d & E & _ & Hdd).
  destruct (pretty k) as [|c rest]; [by destruct p|].
  simpl in Hd. apply andb_true_iff in Hd as [Hc _]. by exists c, rest.
Qed.

(** ** Rounding to a double *)

Lemma Qpow2_pos e : (0 < 2 ^ e)%Q.
Proof. by apply Qpower_0_lt. Qed.

Lemma Qpow2_Z e : 0 <= e -> (2 ^ e == inject_Z (2 ^ e))%Q.
Proof. intros He. by rewrite Zpower_Qpower. Qed.

Lemma Qpow2_add a b : (2 ^ (a + b) == 2 ^ a * 2 ^ b)%Q.
Proof. by apply Qpower_plus. Qed.

(** [Qlog2] does not overshoot. *)
Lemma Qlog2_le q : (0 < q)%Q -> (2 ^ Qlog2 q <= q)%Q.
Proof.
  intros Hq. unfold Qlog2. cbv zeta.
  destruct (Qle_bool _ q) eqn:E; [by apply Qle_bool_iff|]. clear E.
  destruct q as [n d]. cbn [Qnum Qden].
  assert (Hn : 0 < n) by (unfold Qlt in Hq; simpl in Hq; lia).
  pose proof (Z.log2_spec n Hn) as [Hlo _].
  pose proof (Z.log2_spec (Z.pos d) ltac:(lia)) as [_ Hhi].
  pose proof (Z.log2_nonneg n). pose proof (Z.log2_nonneg (Z.pos d)).
  replace (Z.log2 n - Z.log2 (Z.pos d) - 1) with (Z.log2 n - Z.succ (Z.log2 (Z.pos d))) by lia.
  rewrite Qpower_minus by done. rewrite !Qpow2_Z by lia.
  set (A := 2 ^ Z.log2 n) in *. set (B := 2 ^ Z.succ (Z.log2 (Z.pos d))) in *.
  apply Qle_shift_div_r.
  - change 0%Q with (inject_Z 0). rewrite <- Zlt_Qlt. lia.
  - unfold Qle. cbn [Qnum Qden Qmult inject_Z]. rewrite Pos.mul_1_r. nia.
Qed.

(** A number of at most 53 bits times a power of two is a double. *)
Lemma round64_exact q k t :
  (q == inject_Z (k * 2 ^ t))%Q -> 0 <= k < 2 ^ 53 -> 0 <= t <= 970 ->
  exists r, round64 q = FFin r /\ (r == inject_Z (k * 2 ^ t))%Q.
Proof.
  intros Eq Hk Ht. unfold round64.
  destruct (Qeq_bool q 0) eqn:E0.
  { exists 0%Q. split; [reflexivity|]. apply Qeq_bool_iff in E0. by rewrite <- Eq, E0. }
  apply Qeq_bool_neq in E0.
  set (n := k * 2 ^ t) in *.
  assert (Hpow : 0 < 2 ^ t) by (apply Z.pow_pos_nonneg; lia).
  assert (Hn : 0 < n).
  { destruct (Z.eq_dec k 0) as [->|]; [|unfold n; nia].
    exfalso. apply E0. rewrite Eq. unfold n. reflexivity. }
  assert (Hq : (0 < q)%Q).
  { rewrite Eq. change 0%Q with (inject_Z 0). by rewrite <- Zlt_Qlt. }
  assert (Ea : (Qabs q == inject_Z n)%Q).
  { rewrite Qabs_pos by (by apply Qlt_le_weak). exact Eq. }
  assert (Hneg : Qltb q 0 = false).
  { unfold Qltb. apply negb_false_iff, Qle_bool_iff. by apply Qlt_le_weak. }
  cbv zeta. rewrite Hneg.
  set (e := Z.max (Qlog2 (Qabs q)) (- 1022)).
  assert (He : e - 52 <= t).
  { assert (Qlog2 (Qabs q) < 53 + t); [|lia].
    apply (Qpower_lt_compat_l_inv 2); [|done].
    eapply Qle_lt_trans; [apply Qlog2_le; by rewrite Ea, <- Eq|].
    rewrite Ea, Qpow2_Z by lia. rewrite <- Zlt_Qlt.
    unfold n. rewrite Z.pow_add_r by lia. nia. }
  set (m := k * 2 ^ (t - (e - 52))).
  assert (Em : (Qabs q / 2 ^ (e - 52) == inject_Z m)%Q).
  { rewrite Ea. unfold n, m. rewrite !inject_Z_mult.
    rewrite <- (Qpow2_Z t), <- (Qpow2_Z (t - (e - 52))) by lia.
    rewrite (Qpower_minus 2 t (e - 52)) by done.
    assert (Hnz : ~ (2 ^ (e - 52) == 0)%Q) by (by apply Qpower_not_0).
    revert Hnz. generalize (2 ^ t)%Q (2 ^ (e - 52))%Q. intros P R Hnz. by field. }
  assert (Er : (inject_Z (round_half_even (Qabs q / 2 ^ (e - 52))) * 2 ^ (e - 52)
                == inject_Z n)%Q).
  { rewrite Em, round_half_even_Z. unfold n, m. rewrite !inject_Z_mult.
    rewrite <- (Qpow2_Z t), <- (Qpow2_Z (t - (e - 52))) by lia.
    rewrite (Qpower_minus 2 t (e - 52)) by done.
    assert (Hnz : ~ (2 ^ (e - 52) == 0)%Q) by (by apply Qpower_not_0).
    revert Hnz. generalize (2 ^ t)%Q (2 ^ (e - 52))%Q. intros P R Hnz. by field. }
  assert (Hfin : Qle_bool (2 ^ 1024) (inject_Z (round_half_even (Qabs q / 2 ^ (e - 52)))
                                       * 2 ^ (e - 52)) = false).
  { apply not_true_is_false. intros Hle. apply Qle_bool_iff in Hle.
    rewrite Er, Qpow2_Z in Hle by lia. rewrite <- Zle_Qle in Hle.
    assert (n < 2 ^ 53 * 2 ^ 970); [|lia].
    unfold n. assert (2 ^ t <= 2 ^ 970) by (apply Z.pow_le_mono_r; lia). nia. }
  rewrite Hfin. eexists. split; [reflexivity|]. by rewrite Qred_correct.
Qed.

Lemma float_of_int_unit j :
  0 <= j <= 4 -> exists r, float_of_int (1024 ^ j) = FFin r /\ (r == inject_Z (2 ^ (10 * j)))%Q.
Proof.
  intros Hj. unfold float_of_int.
  destruct (round64_exact (inject_Z (1024 ^ j)) 1 (10 * j)) as (r & Hr & Er); try lia.
  - replace (1024 ^ j) with (2 ^ (10 * j)); [by rewrite Z.mul_1_l|].
    rewrite Z.pow_mul_r by lia. reflexivity.
  - exists r. split; [exact Hr|]. by rewrite Er, Z.mul_1_l.
Qed.

(** The number [parse_size] makes of a whole count of a unit. *)
Lemma scaled_count q k j :
  (q == inject_Z k)%Q -> 0 <= k < 2 ^ 53 -> 0 <= j <= 4 ->
  result_bind (Ok (round64 q))
    (fun num => int_of_float (float_mul num (float_of_int (1024 ^ j))))
  = Ok (k * 1024 ^ j).
Proof.
  intros Eq Hk Hj. cbn [result_bind].
  destruct (round64_exact q k 0) as (r & -> & Er); try lia.
  { by rewrite Eq, Z.pow_0_r, Z.mul_1_r. }
  rewrite Z.pow_0_r, Z.mul_1_r in Er.
  destruct (float_of_int_unit j Hj) as (rm & -> & Erm).
  cbn [float_mul].
  destruct (round64_exact (r * rm) k (10 * j)) as (r2 & -> & Er2); try lia.
  { by rewrite Er, Erm, inject_Z_mult. }
  cbn [int_of_float].
  assert (E : 1024 ^ j = 2 ^ (10 * j)) by (rewrite Z.pow_mul_r by lia; reflexivity).
  assert (Hpos : 0 <= k * 2 ^ (10 * j)) by (apply Z.mul_nonneg_nonneg; [|apply Z.pow_nonneg]; lia).
  assert (Hneg : Qltb r2 0 = false).
  { unfold Qltb. apply negb_false_iff, Qle_bool_iff. rewrite Er2.
    change 0%Q with (inject_Z 0). by rewrite <- Zle_Qle. }
  rewrite Hneg, (Qfloor_comp _ _ Er2), Qfloor_Z, E. reflexivity.
Qed.

(** ** parse_size on numerals *)

Lemma digit_cases d (P : ascii -> Prop) :
  is_digit d = true ->
  P "0"%char -> P "1"%char -> P "2"%char -> P "3"%char -> P "4"%char ->
  P "5"%char -> P "6"%char -> P "7"%char -> P "8"%char -> P "9"%char -> P d.
Proof.
  intros Hd. destruct d as [[] [] [] [] [] [] [] []]; try discriminate Hd; auto.
Qed.

Lemma read_sign_digit d rest :
  is_digit d = true -> read_sign (String d rest) = (false, String d rest).
Proof. intros Hd. by apply (digit_cases d (fun d => read_sign (String d rest) = _)). Qed.

Lemma digit_not_word d rest :
  is_digit d = true ->
  let word := upper (String d rest) in
  String.eqb word "INF" || String.eqb word "INFINITY" = false
  /\ String.eqb word "NAN" = false.
Proof.
  intros Hd. cbv zeta. unfold upper. cbn [str_map]. rewrite (digit_upper d Hd).
  destruct d as [[] [] [] [] [] [] [] []]; try discriminate Hd; split; reflexivity.
Qed.

Lemma strip_ends P a r q b :
  String a r = q ++ String b EmptyString -> P a = false -> P b = false ->
  rstrip P (lstrip P (String a r)) = String a r.
Proof. intros E Ha Hb. rewrite lstrip_first by done. rewrite E. by apply rstrip_last. Qed.

Lemma lstrip_all P s : all_chars P s = true -> lstrip P s = EmptyString.
Proof.
  induction s as [|c s IH]; [done|]. simpl. intros [Hc Hs]%andb_true_iff.
  rewrite Hc. by apply IH.
Qed.

Lemma endswith_last s c u x :
  c <> x -> endswith (s ++ String c EmptyString) (u ++ String x EmptyString) = false.
Proof.
  intros Hcx. unfold endswith. apply bool_decide_eq_false.
  rewrite !list_ascii_of_string_app. simpl. intros Hs. apply suffix_snoc_inv_1 in Hs. congruence.
Qed.

(** A suffix without digits that reaches at most one character into a
    numeral is found, or not, whatever that digit is. *)
Lemma endswith_after_digit p d v u :
  is_digit d = true -> all_chars (fun c => negb (is_digit c)) u = true ->
  (String.length u <= S (String.length v))%nat ->
  endswith ((p ++ String d EmptyString) ++ v) u = endswith v u.
Proof.
  intros Hd Hu Hlen. rewrite append_assoc.
  change (String d EmptyString ++ v) with (String d v).
  rewrite endswith_app_long by (simpl; lia).
  unfold endswith. apply bool_decide_ext. simpl. split; [|by apply suffix_cons_r].
  destruct u as [|x u]; [intros _; apply suffix_nil|]. simpl.
  intros [E|Hs]%suffix_cons_inv; [|done].
  injection E as -> _. simpl in Hu. by rewrite Hd in Hu.
Qed.

(** The numeral of a number, with what [parse_size] needs to know of it. *)
Lemma numeral k :
  0 <= k ->
  exists p d d0 rest,
    pretty k = p ++ String d EmptyString /\ is_digit d = true
    /\ pretty k = String d0 rest /\ is_digit d0 = true
    /\ upper (pretty k) = pretty k
    /\ str_replace_char "_" EmptyString (pretty k) = pretty k.
Proof.
  intros Hk.
  destruct (pretty_last_digit k Hk) as (p & d & E & _ & Hd).
  destruct (pretty_first_digit k Hk) as (d0 & rest & E0 & Hd0).
  exists p, d, d0, rest. split_and!; auto.
  - apply str_map_fixed. eapply all_chars_impl; [|by apply pretty_digits].
    intros c Hc. apply Ascii.eqb_eq. by apply digit_upper.
  - by apply str_replace_char_digits.
Qed.

Lemma py_int_numeral k : 0 <= k -> py_int (pretty k) = Ok k.
Proof.
  intros Hk. destruct (numeral k Hk) as (p & d & d0 & rest & E & Hd & E0 & Hd0 & _).
  unfold py_int, strip_c.
  assert (Hs : rstrip is_c_space (lstrip is_c_space (pretty k)) = pretty k).
  { rewrite E0. rewrite E0 in E. eapply strip_ends; [exact E| |];
      by apply digit_not_space. }
  rewrite Hs. rewrite E0 at 1. rewrite read_sign_digit by done. rewrite <- E0.
  destruct (read_digits_pretty k EmptyString Hk) as (count & Hr).
  rewrite append_nil_r in Hr. rewrite Hr. simpl. f_equal. lia.
Qed.

Lemma py_float_numeral k frac :
  0 <= k -> frac = EmptyString \/ frac = ".00" ->
  exists q, py_float (pretty k ++ frac) = Ok (round64 q) /\ (q == inject_Z k)%Q.
Proof.
  intros Hk Hfrac. destruct (numeral k Hk) as (p & d & d0 & rest & E & Hd & E0 & Hd0 & _).
  assert (Hs : rstrip is_c_space (lstrip is_c_space (pretty k ++ frac)) = pretty k ++ frac).
  { destruct Hfrac as [-> | ->].
    - rewrite append_nil_r, E0. rewrite E0 in E.
      eapply strip_ends; [exact E| |]; by apply digit_not_space.
    - rewrite E0. change (String d0 rest ++ ".00") with (String d0 (rest ++ ".00")).
      eapply (strip_ends _ _ _ (String d0 rest ++ ".0") "0"); [|by apply digit_not_space|done].
      by rewrite append_assoc. }
  assert (Hf : py_float (pretty k ++ frac)
               = match read_decimal (pretty k ++ frac) with
                 | Some q => Ok (round64 q)
                 | None => Raise (ValueError "could not convert string to float")
                 end).
  { unfold py_float, strip_c. rewrite Hs, E0.
    change (String d0 rest ++ frac) with (String d0 (rest ++ frac)).
    rewrite read_sign_digit by done.
    by destruct (digit_not_word d0 (rest ++ frac) Hd0) as [-> ->]. }
  rewrite Hf. clear Hf Hs.
  unfold read_decimal.
  destruct (read_digits_pretty k frac Hk) as (count & ->).
  destruct Hfrac as [-> | ->]; cbn -[Z.pow Z.of_N Qdiv inject_Z].
  - eexists. split; [reflexivity|]. rewrite Z2N.id by done.
    change (10 ^ Z.of_nat 0) with 1. field.
  - eexists. split; [reflexivity|].
    replace (Z.of_N ((Z.to_N k * 10 + digit_value "0") * 10 + digit_value "0"))
      with (k * 100) by (unfold digit_value; simpl; lia).
    change (10 ^ Z.of_nat 2) with 100. rewrite inject_Z_mult. field.
Qed.

Lemma parse_size_from_found us1 unit us2 s :
  Forall (fun u => endswith s u = false) us1 -> endswith s unit = true ->
  parse_size_from (us1 ++ unit :: us2) s
  = result_bind (py_float (strip (drop_end (String.length unit) s)))
      (fun num => int_of_float (float_mul num (float_of_int (mults !!! unit)))).
Proof.
  intros Hno Hyes. induction Hno as [|u us1 Hu _ IH]; simpl.
  - by rewrite Hyes.
  - by rewrite Hu, IH.
Qed.

Lemma parse_size_from_none us s :
  Forall (fun u => endswith s u = false) us -> parse_size_from us s = py_int s.
Proof. intros Hno. induction Hno as [|u us Hu _ IH]; simpl; [done|]. by rewrite Hu, IH. Qed.

Lemma drop_end_tail (a w u : string) : drop_end (String.length u) (a ++ w ++ u) = a ++ w.
Proof. by rewrite <- append_assoc, drop_end_app. Qed.

(** A whole count of a unit, written plainly or the way [human_bytes]
    writes it, parses to that many bytes. *)
Lemma parse_size_count k w (j : nat) unit :
  0 <= k < 2 ^ 53 -> w = EmptyString \/ w = ".00 " -> units !! j = Some unit ->
  parse_size (pretty k ++ w ++ unit) = Ok (k * 1024 ^ Z.of_nat j).
Proof.
  intros Hk Hw Hunit.
  destruct (numeral k ltac:(lia)) as (p & d & d0 & rest & E & Hd & E0 & Hd0 & Hup & Hrep).
  assert (Hj : exists us1 us2,
             ["TB"; "GB"; "MB"; "KB"; "B"] = (us1 ++ unit :: us2)%list
             /\ Forall (fun u => endswith (w ++ unit) u = false) us1
             /\ Forall (fun u => all_chars (fun c => negb (is_digit c)) u = true
                                 /\ (String.length u <= 2)%nat) us1
             /\ upper (w ++ unit) = w ++ unit
             /\ str_replace_char "_" EmptyString (w ++ unit) = w ++ unit
             /\ (exists q, w ++ unit = q ++ "B")
             /\ (1 <= String.length unit)%nat
             /\ mults !!! unit = 1024 ^ Z.of_nat j).
  { destruct j as [|[|[|[|[|j]]]]]; simpl in Hunit; try discriminate; injection Hunit as <-.
    - exists ["TB"; "GB"; "MB"; "KB"], [].
      assert (Hq : exists q, w ++ "B" = q ++ "B")
        by (exists (w ++ EmptyString); by rewrite append_assoc).
      destruct Hw as [-> | ->]; split_and!; try reflexivity; try exact Hq;
        repeat constructor.
    - exists ["TB"; "GB"; "MB"], ["B"].
      assert (Hq : exists q, w ++ "KB" = q ++ "B")
        by (exists (w ++ "K"); by rewrite append_assoc).
      destruct Hw as [-> | ->]; split_and!; try reflexivity; try exact Hq;
        repeat constructor.
    - exists ["TB"; "GB"], ["KB"; "B"].
      assert (Hq : exists q, w ++ "MB" = q ++ "B")
        by (exists (w ++ "M"); by rewrite append_assoc).
      destruct Hw as [-> | ->]; split_and!; try reflexivity; try exact Hq;
        repeat constructor.
    - exists ["TB"], ["MB"; "KB"; "B"].
      assert (Hq : exists q, w ++ "GB" = q ++ "B")
        by (exists (w ++ "G"); by rewrite append_assoc).
      destruct Hw as [-> | ->]; split_and!; try reflexivity; try exact Hq;
        repeat constructor.
    - exists [], ["GB"; "MB"; "KB"; "B"].
      assert (Hq : exists q, w ++ "TB" = q ++ "B")
        by (exists (w ++ "T"); by rewrite append_assoc).
      destruct Hw as [-> | ->]; split_and!; try reflexivity; try exact Hq;
        repeat constructor. }
  destruct Hj as (us1 & us2 & Hus & Hno & Hshort & Hupw & Hrepw & (q & Hq) & Hlen & Hmult).
  unfold parse_size.
  assert (Hstrip : strip (pretty k ++ w ++ unit) = pretty k ++ w ++ unit).
  { unfold strip. rewrite E0.
    change (String d0 rest ++ w ++ unit) with (String d0 (rest ++ w ++ unit)).
    eapply (strip_ends _ _ _ (String d0 rest ++ q) "B"); [|by apply digit_not_space|done].
    rewrite Hq, append_assoc. reflexivity. }
  rewrite Hstrip. unfold upper in *. rewrite str_map_app, Hup, Hupw.
  rewrite str_replace_char_app, Hrep, Hrepw, Hus.
  rewrite parse_size_from_found.
  - rewrite drop_end_tail, Hmult.
    assert (Hfrac : exists frac, strip (pretty k ++ w) = pretty k ++ frac
                                 /\ (frac = EmptyString \/ frac = ".00")).
    { unfold strip. destruct Hw as [-> | ->].
      - exists EmptyString. split; [|by left]. rewrite append_nil_r, E0. rewrite E0 in E.
        eapply strip_ends; [exact E| |]; by apply digit_not_space.
      - exists ".00". split; [|by right]. rewrite E0.
        change (String d0 rest ++ ".00 ") with (String d0 (rest ++ ".00 ")).
        rewrite lstrip_first by (by apply digit_not_space).
        change (String d0 (rest ++ ".00 ")) with (String d0 rest ++ ".00 ").
        change ".00 " with (".00" ++ " "). rewrite <- append_assoc.
        rewrite rstrip_space by done.
        change ".00" with (".0" ++ "0"). rewrite <- append_assoc.
        by rewrite rstrip_last. }
    destruct Hfrac as (frac & -> & Hfrac).
    destruct (py_float_numeral k frac ltac:(lia) Hfrac) as (x & -> & Ex).
    apply scaled_count; [done|lia|].
    apply lookup_lt_Some in Hunit. simpl in Hunit. lia.
  - rewrite E. apply Forall_forall. intros u Hu.
    rewrite Forall_forall in Hno, Hshort. destruct (Hshort u Hu) as [Hnd Hl].
    rewrite endswith_after_digit; [by apply Hno|done|done|].
    rewrite length_append. lia.
  - rewrite <- append_assoc. apply endswith_app.
Qed.

Lemma parse_size_nat k : 0 <= k -> parse_size (pretty k) = Ok k.
Proof.
  intros Hk.
  destruct (numeral k Hk) as (p & d & d0 & rest & E & Hd & E0 & Hd0 & Hup & Hrep).
  unfold parse_size.
  assert (Hstrip : strip (pretty k) = pretty k).
  { unfold strip. rewrite E0. rewrite E0 in E.
    eapply strip_ends; [exact E| |]; by apply digit_not_space. }
  rewrite Hstrip, Hup, Hrep, parse_size_from_none; [by apply py_int_numeral|].
  rewrite E.
  assert (Hneq : d <> "B"%char) by (intros ->; discriminate Hd).
  repeat constructor.
  - by apply (endswith_last p d "T" "B").
  - by apply (endswith_last p d "G" "B").
  - by apply (endswith_last p d "M" "B").
  - by apply (endswith_last p d "K" "B").
  - by apply (endswith_last p d EmptyString "B").
Qed.

Lemma pretty_neg (k : Z) : k < 0 -> pretty k = "-" ++ pretty (- k).
Proof. intros Hk. destruct k; [lia|lia|reflexivity]. Qed.

Lemma parse_size_neg k : k < 0 -> parse_size (pretty k) = Ok k.
Proof.
  intros Hk. rewrite pretty_neg by done.
  destruct (numeral (- k) ltac:(lia)) as (p & d & d0 & rest & E & Hd & E0 & Hd0 & Hup & Hrep).
  unfold parse_size.
  assert (Hstrip : forall P, P "-"%char = false -> P d = false ->
                   rstrip P (lstrip P ("-" ++ pretty (- k))) = "-" ++ pretty (- k)).
  { intros P Hm HP. change ("-" ++ pretty (- k)) with (String "-" (pretty (- k))).
    eapply (strip_ends _ _ _ (String "-" p) d); [|done|done]. by rewrite E. }
  unfold strip. rewrite Hstrip by (done || by apply digit_not_space).
  unfold upper in *. rewrite str_map_app, Hup. rewrite str_replace_char_app, Hrep.
  change (str_replace_char "_" EmptyString (str_map upper_char "-")) with "-".
  rewrite parse_size_from_none.
  - unfold py_int, strip_c. rewrite Hstrip by (done || by apply digit_not_space).
    change (read_sign ("-" ++ pretty (- k))) with (true, pretty (- k)). cbv iota beta.
    destruct (read_digits_pretty (- k) EmptyString ltac:(lia)) as (count & Hr).
    rewrite append_nil_r in Hr. rewrite Hr. simpl. f_equal. lia.
  - rewrite E, <- append_assoc.
    assert (Hneq : d <> "B"%char) by (intros ->; discriminate Hd).
    repeat constructor.
    + by apply (endswith_last _ d "T" "B").
    + by apply (endswith_last _ d "G" "B").
    + by apply (endswith_last _ d "M" "B").
    + by apply (endswith_last _ d "K" "B").
    + by apply (endswith_last _ d EmptyString "B").
Qed.

Lemma parse_size_pretty k : parse_size (pretty k) = Ok k.
Proof. destruct (Z.lt_ge_cases k 0); [by apply parse_size_neg|by apply parse_size_nat]. Qed.

Lemma parse_size_blank s :
  strip s = EmptyString ->
  parse_size s = Raise (ValueError "invalid literal for int() with base 10").
Proof. intros Hs. unfold parse_size. by rewrite Hs. Qed.

Lemma lstrip_app_spaces P a s : all_chars P a = true -> lstrip P (a ++ s) = lstrip P s.
Proof.
  induction a as [|c a IH]; [done|]. simpl. intros [Hc Ha]%andb_true_iff.
  change (String c a ++ s) with (String c (a ++ s)). simpl. rewrite Hc. by apply IH.
Qed.

Lemma rstrip_app_spaces P s b : all_chars P b = true -> rstrip P (s ++ b) = rstrip P s.
Proof.
  revert s. induction b as [|c b IH]; intros s; [by rewrite append_nil_r|].
  simpl. intros [Hc Hb]%andb_true_iff.
  change (String c b) with (String c EmptyString ++ b). rewrite <- append_assoc.
  rewrite IH by done. by apply rstrip_space.
Qed.

Lemma strip_app_spaces P a s b :
  all_chars P a = true -> all_chars P b = true ->
  rstrip P (lstrip P (a ++ s ++ b)) = rstrip P (lstrip P s).
Proof.
  intros Ha Hb. rewrite lstrip_app_spaces by done. clear a Ha.
  induction s as [|c s IH].
  - change (EmptyString ++ b) with b. by rewrite lstrip_all.
  - change (String c s ++ b) with (String c (s ++ b)). simpl.
    destruct (P c); [exact IH|].
    change (String c (s ++ b)) with (String c s ++ b). by apply rstrip_app_spaces.
Qed.

Lemma lstrip_str_map P f s :
  (forall c, P (f c) = P c) -> lstrip P (str_map f s) = str_map f (lstrip P s).
Proof.
  intros Hf. induction s as [|c s IH]; [done|]. simpl. rewrite Hf.
  by destruct (P c).
Qed.

Lemma rstrip_str_map P f s :
  (forall c, P (f c) = P c) -> rstrip P (str_map f s) = str_map f (rstrip P s).
Proof.
  intros Hf. induction s as [|c s IH]; [done|]. simpl. rewrite IH, Hf.
  destruct (rstrip P s); simpl; [|done]. by destruct (P c).
Qed.

Lemma str_map_str_map f g s : str_map f (str_map g s) = str_map (fun c => f (g c)) s.
Proof. induction s as [|c s IH]; [done|]. simpl. by rewrite IH. Qed.

Lemma str_map_ext f g s : (forall c, f c = g c) -> str_map f s = str_map g s.
Proof. intros Hfg. induction s as [|c s IH]; [done|]. simpl. by rewrite IH, Hfg. Qed.

Lemma case_chars c :
  is_space (upper_char c) = is_space c /\ is_space (lower_char c) = is_space c
  /\ upper_char (upper_char c) = upper_char c /\ upper_char (lower_char c) = upper_char c
  /\ lower_char (lower_char c) = lower_char c /\ lower_char (upper_char c) = lower_char c.
Proof. destruct c as [[] [] [] [] [] [] [] []]; by split_and!. Qed.

Lemma parse_size_str_map f s :
  (forall c, is_space (f c) = is_space c) -> (forall c, upper_char (f c) = upper_char c) ->
  parse_size (str_map f s) = parse_size s.
Proof.
  intros Hsp Hup. unfold parse_size, strip, upper.
  rewrite lstrip_str_map, rstrip_str_map, str_map_str_map by done.
  by rewrite (str_map_ext _ upper_char).
Qed.

(** ** The list of targets *)

Lemma split_on_plain sep s :
  all_chars (fun c => negb (Ascii.eqb c sep)) s = true -> split_on sep s = [s].
Proof.
  induction s as [|c s IH]; [done|]. simpl. intros [Hc Hs]%andb_true_iff.
  apply negb_true_iff in Hc. by rewrite Hc, IH.
Qed.

Lemma split_on_app sep s rest :
  all_chars (fun c => negb (Ascii.eqb c sep)) s = true ->
  split_on sep (s ++ String sep rest) = s :: split_on sep rest.
Proof.
  induction s as [|c s IH].
  - intros _. change (EmptyString ++ String sep rest) with (String sep rest).
    simpl. by rewrite Ascii.eqb_refl.
  - simpl. intros [Hc Hs]%andb_true_iff. apply negb_true_iff in Hc.
    change (String c s ++ String sep rest) with (String c (s ++ String sep rest)).
    simpl. by rewrite Hc, IH.
Qed.

Lemma split_on_concat sep items :
  items <> [] ->
  Forall (fun x => all_chars (fun c => negb (Ascii.eqb c sep)) x = true) items ->
  split_on sep (String.concat (String sep EmptyString) items) = items.
Proof.
  intros Hne Hitems. induction Hitems as [|x items Hx Hitems IH]; [done|].
  destruct items as [|y items]; [by apply split_on_plain|].
  change (String.concat (String sep EmptyString) (x :: y :: items))
    with (x ++ String sep EmptyString ++ String.concat (String sep EmptyString) (y :: items)).
  change (String sep EmptyString ++ ?r) with (String sep r).
  rewrite split_on_app by done. by rewrite IH.
Qed.

Lemma space_not_comma s :
  all_chars is_space s = true -> all_chars (fun c => negb (Ascii.eqb c ",")) s = true.
Proof.
  apply all_chars_impl. intros c Hc. apply negb_true_iff.
  destruct (Ascii.eqb_spec c ","); [by subst|done].
Qed.

Lemma strip_all_spaces s : all_chars is_space s = true -> strip s = EmptyString.
Proof. intros Hs. unfold strip. by rewrite lstrip_all. Qed.

(** ** What the command line means *)

(** X14. A raw number of bytes: the decimal numeral of any integer, negative
    ones included, parses to that integer, by way of [int] and not of
    [float].  Stated for the numerals the interpreter accepts (below 4300
    digits). *)
Theorem parse_size_raw_integer n :
  Z.abs n < 10 ^ 4300 -> parse_size (pretty n) = Ok n.
Proof. intros _. apply parse_size_pretty. Qed.

(** X15. A whole count of a unit: a number below 2^53 followed by B, KB, MB,
    GB or TB parses to the number times 1024 to the power of the unit's
    rank, exactly. *)
Theorem parse_size_whole_units k (j : nat) unit :
  0 <= k < 2 ^ 53 -> units !! j = Some unit ->
  parse_size (pretty k ++ unit) = Ok (k * 1024 ^ Z.of_nat j).
Proof.
  intros Hk Hunit.
  change (pretty k ++ unit) with (pretty k ++ EmptyString ++ unit).
  apply parse_size_count; auto.
Qed.

(** X16. [parse_size] ignores white space around a size and the case of its
    letters.  Stated for ASCII sizes. *)
Theorem parse_size_ignores_case_and_blanks s ws1 ws2 :
  all_chars is_ascii s = true ->
  all_chars is_space ws1 = true -> all_chars is_space ws2 = true ->
  parse_size (ws1 ++ s ++ ws2) = parse_size s
  /\ parse_size (upper s) = parse_size s
  /\ parse_size (lower s) = parse_size s.
Proof.
  intros _ H1 H2. split_and!.
  - unfold parse_size, strip. by rewrite strip_app_spaces.
  - apply parse_size_str_map; intros c; by destruct (case_chars c) as (? & ? & ? & ? & ? & ?).
  - apply parse_size_str_map; intros c; by destruct (case_chars c) as (? & ? & ? & ? & ? & ?).
Qed.

(** X17. [parse_size] reads back what [human_bytes] shows for a whole count
    of a unit. *)
Theorem parse_size_reads_human_bytes (j : nat) (k : Z) unit :
  units !! j = Some unit ->
  (if j is O then 0 <= k else 1 <= k) ->
  k < 1024 \/ (j = 4%nat /\ k < 2 ^ 53) ->
  parse_size (human_bytes (k * 1024 ^ Z.of_nat j)) = Ok (k * 1024 ^ Z.of_nat j).
Proof.
  intros Hunit Hlo Hhi. rewrite (human_bytes_whole j k unit) by done.
  change (".00 " ++ unit) with (".00 " ++ unit).
  apply (parse_size_count k ".00 " j unit); [|by right|done].
  destruct j; lia.
Qed.

(** X18. A size of white space only: [parse_size] raises ValueError, but
    among the targets such an item is skipped, so that a blank list of
    targets yields no target at all. *)
Theorem blank_size_is_skipped s :
  all_chars is_space s = true ->
  parse_size s = Raise (ValueError "invalid literal for int() with base 10")
  /\ parse_targets s = Ok [].
Proof.
  intros Hs. pose proof (strip_all_spaces s Hs) as Hstrip. split.
  - by apply parse_size_blank.
  - unfold parse_targets. rewrite split_on_plain by (by apply space_not_comma).
    simpl. by rewrite Hstrip.
Qed.

(** X19. The targets are the sizes of the comma-separated items in order,
    the blank items left out. *)
Theorem parse_targets_items items (sizes : list (option Z)) :
  Forall2 (fun x o => match o with
                      | Some t => parse_size x = Ok t
                                  /\ all_chars (fun c => negb (Ascii.eqb c ",")) x = true
                      | None => all_chars is_space x = true
                      end) items sizes ->
  parse_targets (String.concat "," items) = Ok (omap id sizes).
Proof.
  intros Hitems. unfold parse_targets.
  assert (Hsizes : parse_sizes items = Ok (omap id sizes)).
  { induction Hitems as [|x o items sizes Hx _ IH]; [reflexivity|].
    cbn [parse_sizes]. destruct o as [t|].
    - destruct Hx as [Hx _]. destruct (strip x) eqn:E.
      + rewrite parse_size_blank in Hx by done. discriminate.
      + rewrite Hx, IH. reflexivity.
    - rewrite (strip_all_spaces x Hx). exact IH. }
  destruct items as [|x items]; [by inversion Hitems|].
  rewrite split_on_concat; [exact Hsizes|done|].
  clear Hsizes. induction Hitems as [|y o ys os Hy _ IH]; constructor; [|exact IH].
  destruct o; [tauto|by apply space_not_comma].
Qed.

(** X20. [compression_arg] ignores the case of the codec name, and the name
    it hands on is in lower case and stands for itself.  Stated for ASCII
    names. *)
Theorem compression_arg_lowers name :
  all_chars is_ascii name = true ->
  compression_arg (upper name) = compression_arg name
  /\ forall n, compression_arg name = Some n ->
               n = lower name /\ lower n = n /\ compression_arg n = Some n.
Proof.
  intros _.
  assert (Hll : forall s, lower (lower s) = lower s).
  { intros s. unfold lower. rewrite str_map_str_map. apply str_map_ext.
    intros c. by destruct (case_chars c) as (? & ? & ? & ? & ? & ?). }
  split.
  - unfold compression_arg, lower, upper. rewrite str_map_str_map.
    rewrite (str_map_ext _ lower_char); [done|].
    intros c. by destruct (case_chars c) as (? & ? & ? & ? & ? & ?).
  - intros n. unfold compression_arg. cbv zeta.
    destruct (existsb _ _) eqn:E; [discriminate|]. intros [= <-].
    split_and!; [done|by apply Hll|]. by rewrite Hll, E.
Qed.

(** X21. The tags of a file name agree with what the writer is given: the
    codec tag is [none] exactly when the writer gets no codec (or the codec
    name was empty), and there is a level tag exactly when the writer gets a
    compression level. *)
Theorem file_name_tags_match_writer (a : Args) name :
  compression a = compression_arg name ->
  let kw := make_writer_kwargs (compression a) (compression_level a) in
  (codec_tag a = "none" <-> kw_compression kw = None \/ name = EmptyString)
  /\ (lvl_tag a = EmptyString <-> kw_compression_level kw = None).
Proof.
  intros Hc. cbv zeta. unfold codec_tag, lvl_tag, make_writer_kwargs. rewrite Hc.
  unfold compression_arg. cbv zeta.
  destruct (existsb _ _) eqn:E; cbn [kw_compression kw_compression_level].
  { split; [by split; auto|]. by destruct (compression_level a). }
  split.
  - destruct name as [|c name]; [by split; auto|].
    change (lower (String c name)) with (String (lower_char c) (lower name)) in *.
    split; [|by intros [|]].
    intros Hn. rewrite Hn in E. discriminate E.
  - destruct (compression_level a) as [l|]; [|done].
    split; [|done]. intros Hl. by apply (f_equal String.length) in Hl.
Qed.

(** ** The executable instances obey the interfaces *)

Lemma lcg_draws_length n x : length (Fake.lcg_draws n x).1 = n.
Proof.
  revert x. induction n as [|n IH]; intros x; simpl; [reflexivity|].
  specialize (IH (Fake.lcg_next x)).
  destruct (Fake.lcg_draws n (Fake.lcg_next x)). simpl in *. by f_equal.
Qed.

Lemma draws_length {A} (f : Z -> A) n x : length (Fake.draws f n x).1 = n.
Proof.
  unfold Fake.draws. pose proof (lcg_draws_length n x) as Hl.
  destruct (Fake.lcg_draws n x). simpl in *. by rewrite length_map.
Qed.

Lemma draws_Forall {A} (f : Z -> A) (P : A -> Prop) n x :
  (forall v, P (f v)) -> Forall P (Fake.draws f n x).1.
Proof.
  intros Hf. unfold Fake.draws. destruct (Fake.lcg_draws n x). simpl.
  rewrite List.Forall_map. by apply Forall_true.
Qed.

Lemma choice_rows_length vals rows cols x :
  length (Fake.choice_rows vals rows cols x).1 = rows.
Proof.
  revert x. induction rows as [|r IH]; intros x; simpl; [reflexivity|].
  destruct (Fake.draws _ cols x) as [row x1].
  specialize (IH x1). destruct (Fake.choice_rows vals r cols x1). simpl in *. by f_equal.
Qed.

#[export] Instance fake_generator_laws : @GeneratorLaws Fake.floats Fake.generator.
Proof.
  constructor; intros; simpl; try apply draws_length.
  - apply draws_Forall. intros v. pose proof (Z.mod_pos_bound v (hi - lo)). lia.
  - apply choice_rows_length.
Qed.

(** ** The model at concrete inputs *)

Import Fake.

(** C1. Two runs with the same seed, row-group size, target and codec that
    read the clock one millisecond apart both return 104 bytes, and write
    different timestamps: [start_ts_ms] comes from the wall clock (line 254),
    so the file is not a function of the seed and the parameters alone. *)
Theorem same_seed_different_clock_different_file :
  let run := fun clock =>
    write_to_target 5 "out.parquet" 100 1 (Some "zstd") None true 1 0.03 10 (world clock) in
  let event_ts := fun clock =>
    map (fun t => int_values (cells_of "event_ts" t))
      <$> (f_row_groups <$> fs (run clock).2 !! "out.parquet") in
  (run 1000).1 = Return 104
  /\ (run 1001).1 = Return 104
  /\ event_ts 1000 = Some [[Some 1084]]
  /\ event_ts 1001 = Some [[Some 1085]]
  /\ fs (run 1000).2 !! "out.parquet" <> fs (run 1001).2 !! "out.parquet".
Proof.
  cbv zeta.
  assert (E0 : map (fun t => int_values (cells_of "event_ts" t)) <$>
               (f_row_groups <$>
                fs (write_to_target 5 "out.parquet" 100 1 (Some "zstd") None true 1 0.03 10
                      (world 1000)).2 !! "out.parquet") = Some [[Some 1084]])
    by (vm_compute; reflexivity).
  assert (E1 : map (fun t => int_values (cells_of "event_ts" t)) <$>
               (f_row_groups <$>
                fs (write_to_target 5 "out.parquet" 100 1 (Some "zstd") None true 1 0.03 10
                      (world 1001)).2 !! "out.parquet") = Some [[Some 1085]])
    by (vm_compute; reflexivity).
  split_and!; [vm_compute; reflexivity | vm_compute; reflexivity | exact E0 | exact E1 |].
  intros E. rewrite E, E1 in E0. discriminate E0.
Qed.





Lemma row_id_continuity_witness :
  exists out w' f,
    write_to_target 10 "out/a.parquet" 1000 3 (Some "zstd") None true 1 0.03 10 (world 5)
    = (out, w')
    /\ fs w' !! "out/a.parquet" = Some f
    /\ length (f_row_groups f) = 4%nat
    /\ concat (map (cells_of "event_id") (f_row_groups f))
       = ints (seqZ 0 (Z.of_nat (length (f_row_groups f)) * 3))
    /\ forall i tbl,
         f_row_groups f !! i = Some tbl ->
         cells_of "event_id" tbl = ints (seqZ (Z.of_nat i * 3) 3)
         /\ length (cells_of "event_id" tbl) = Z.to_nat 3.
Proof.
  assert (Hlen : (fun o => length (f_row_groups o)) <$>
                 fs (write_to_target 10 "out/a.parquet" 1000 3 (Some "zstd") None true 1 0.03 10
                       (world 5)).2 !! "out/a.parquet" = Some 4%nat)
    by (vm_compute; reflexivity).
  destruct (write_to_target 10 "out/a.parquet" 1000 3 (Some "zstd") None true 1 0.03 10
              (world 5)) as [out w'] eqn:E.
  cbn [snd] in Hlen.
  destruct (fs w' !! "out/a.parquet") as [f|] eqn:Hf; [|discriminate Hlen].
  exists out, w', f. split; [reflexivity|]. split; [exact Hf|].
  split; [by inversion Hlen|].
  exact (row_id_continuity 10 "out/a.parquet" 1000 3 (Some "zstd") None true 1 0.03 10
           (world 5) out w' f E Hf).
Defined.


(** C7, counterexample. With targets 100000 and 100 bytes and a cap of one row
    group, the first target fails with the capacity error and [main] ends
    there: the second target, which succeeds when run on its own, is never
    started; no file is written for it and the sink is opened once. *)
Lemma capacity_failure_stops_main :
  let a := mkArgs "out" [100000; 100] (Some "zstd") None 1 true 1 0.03 1 in
  (main 5 a (world 5)).1
  = Raised (RuntimeError "Hit max_row_groups=1 before reaching 97.66 KB (got 104.00 B).")
  /\ (write_target 5 a 100 (world 5)).1 = Return 104
  /\ f_closed <$> fs (main 5 a (world 5)).2 !! "out/realish_100_00B_zstd.parquet" = None
  /\ sink_log (main 5 a (world 5)).2
     = [ OpOpen "out/realish_97_66KB_zstd.parquet";
         OpWrite "out/realish_97_66KB_zstd.parquet";
         OpClose "out/realish_97_66KB_zstd.parquet" ].
Proof. cbv zeta. split_and!; vm_compute; reflexivity. Qed.

Lemma failure_aborts_remaining_targets_witness :
  let a := mkArgs "out" [100; 100000; 300] (Some "zstd") None 1 true 1 0.03 1 in
  let msg := "Hit max_row_groups=1 before reaching 97.66 KB (got 104.00 B)." in
  exists w1 w2,
    main_loop 5 a [100] (world 5) = (Return tt, w1)
    /\ write_target 5 a 100000 w1 = (Raised (RuntimeError msg), w2)
    /\ main_loop 5 a ([100] ++ 100000 :: [300]) (world 5) = (Raised (RuntimeError msg), w2).
Proof.
  intros a msg.
  assert (H1 : (main_loop 5 a [100] (world 5)).1 = Return tt) by (vm_compute; reflexivity).
  assert (H2 : (write_target 5 a 100000 (main_loop 5 a [100] (world 5)).2).1
               = Raised (RuntimeError msg)) by (vm_compute; reflexivity).
  destruct (main_loop 5 a [100] (world 5)) as [o1 w1] eqn:E1.
  cbn [fst snd] in H1, H2. subst o1.
  destruct (write_target 5 a 100000 w1) as [o2 w2] eqn:E2.
  cbn [fst] in H2. subst o2.
  exists w1, w2. split; [reflexivity|]. split; [exact E2|].
  exact (failure_aborts_remaining_targets 5 a [100] 100000 [300] (world 5) w1
           (RuntimeError msg) w2 E1 E2).
Defined.

(** A sink that rejects the second append: the failure is passed on, after
    one open, one append and one close. *)
Lemma sink_closed_exactly_once_witness :
  exists w',
    @write_to_target floats generator (sink 100 (Some 1%nat))
      10 "out/a.parquet" 1000 3 (Some "zstd") None true 1 0.03 10 (world 5)
    = (Raised (SinkFailure "disk full"), w')
    /\ exists ops,
         sink_log w' = (sink_log (world 5) ++ ops)%list
         /\ ( ops = []
              \/ (exists k, ops = (OpOpen "out/a.parquet"
                                     :: replicate k (OpWrite "out/a.parquet")
                                     ++ [OpClose "out/a.parquet"])%list)
                 /\ opens ops = 1%nat /\ closes ops = 1%nat
                 /\ last ops = Some (OpClose "out/a.parquet") ).
Proof.
  assert (Hout : (@write_to_target floats generator (sink 100 (Some 1%nat))
                    10 "out/a.parquet" 1000 3 (Some "zstd") None true 1 0.03 10 (world 5)).1
                 = Raised (SinkFailure "disk full")) by (vm_compute; reflexivity).
  destruct (@write_to_target floats generator (sink 100 (Some 1%nat))
              10 "out/a.parquet" 1000 3 (Some "zstd") None true 1 0.03 10 (world 5))
    as [out w'] eqn:E.
  cbn [fst] in Hout. subst out. exists w'. split; [reflexivity|].
  exact (@sink_closed_exactly_once floats generator (sink 100 (Some 1%nat))
           10 "out/a.parquet" 1000 3 (Some "zstd") None true 1 0.03 10 (world 5)
           (Raised (SinkFailure "disk full")) w' E).
Defined.

(** A cap of 0: one batch of 3 rows is appended, then the call fails, and the
    closed file stays. *)
Lemma no_rollback_on_capacity_failure_witness :
  let msg := "Hit max_row_groups=0 before reaching 1000.00 B (got 304.00 B)." in
  exists w',
    write_to_target 5 "out/a.parquet" 1000 3 (Some "zstd") None true 1 0.03 0 (world 5)
    = (Raised (RuntimeError msg), w')
    /\ exists f0,
         fs w' !! "out/a.parquet" = Some (closed_file f0)
         /\ msg = capacity_message 0 1000 (st_size f0)
         /\ length (f_row_groups f0) = Z.to_nat (Z.max 1 0)
         /\ (forall i tbl, f_row_groups f0 !! i = Some tbl -> batch_ok 3 i tbl)
         /\ sink_log w' =
              (sink_log (world 5) ++ OpOpen "out/a.parquet"
                 :: replicate (Z.to_nat (Z.max 1 0)) (OpWrite "out/a.parquet")
                 ++ [OpClose "out/a.parquet"])%list
         /\ (0 <= 1 -> length (f_row_groups f0) = 1%nat).
Proof.
  intros msg.
  assert (Hout : (write_to_target 5 "out/a.parquet" 1000 3 (Some "zstd") None true 1 0.03 0
                    (world 5)).1 = Raised (RuntimeError msg)) by (vm_compute; reflexivity).
  destruct (write_to_target 5 "out/a.parquet" 1000 3 (Some "zstd") None true 1 0.03 0
              (world 5)) as [out w'] eqn:E.
  cbn [fst] in Hout. subst out. exists w'. split; [reflexivity|].
  exact (no_rollback_on_capacity_failure 5 "out/a.parquet" 1000 3 (Some "zstd") None true
           1 0.03 0 (world 5) msg w' E).
Defined.

(** A world that already holds a file of an earlier run at another path, and
    some file at the path about to be written. *)
Lemma destructive_overwrite_witness :
  let w := (write_to_target 5 "other.parquet" 100 1 None None true 7 0.03 10 (world 5)).2 in
  let f_old := mkFile [] false (mkKwargs None None) [] true in
  write_to_target 5 "out.parquet" 100 1 (Some "zstd") None true 1 0.03 10
    (set_fs (insert "out.parquet" f_old) w)
  = write_to_target 5 "out.parquet" 100 1 (Some "zstd") None true 1 0.03 10
      (set_fs (delete "out.parquet") w)
  /\ "other.parquet" <> "out.parquet"
  /\ fs (write_to_target 5 "out.parquet" 100 1 (Some "zstd") None true 1 0.03 10 w).2
       !! "other.parquet"
     = fs w !! "other.parquet".
Proof.
  intros w f_old.
  destruct (destructive_overwrite 5 "out.parquet" 100 1 (Some "zstd") None true 1 0.03 10
              w f_old) as [Hsame Hframe].
  split; [exact Hsame|]. split; [discriminate|]. apply Hframe. discriminate.
Defined.

(** ** The further properties at concrete inputs *)

(** Two rows are returned; no row is not. *)
Lemma make_rowgroup_outcomes_witness :
  in_int64 0 = true /\ in_int64 (0 + 0) = true /\ in_int64 1000 = true
  /\ make_rowgroup 0 0 1000 (default_rng 1)
     = Raise (ValueError "Cannot apply_along_axis when any iteration dimensions are 0").
Proof.
  split; [reflexivity|]. split; [reflexivity|]. split; [reflexivity|].
  pose proof (make_rowgroup_outcomes 0 0 1000 (default_rng 1) eq_refl eq_refl eq_refl)
    as Hcase.
  destruct (make_rowgroup 0 0 1000 (default_rng 1)) as [[t g']|e].
  - exfalso. lia.
  - simpl in Hcase. destruct Hcase as [_ ->]. reflexivity.
Defined.

Lemma id_columns_in_range_witness :
  exists t g',
    make_rowgroup 2 0 1000 (default_rng 1) = Ok (t, g')
    /\ exists user session,
         cells_of "user_id" t = ints user
         /\ cells_of "session_id" t = ints session
         /\ length user = Z.to_nat 2 /\ length session = Z.to_nat 2
         /\ Forall (fun u => 1 <= u <= 5000000) user
         /\ Forall (fun x => 1 <= x < 50000000) session.
Proof.
  assert (Hok : is_ok (make_rowgroup 2 0 1000 (default_rng 1)) = true)
    by (vm_compute; reflexivity).
  destruct (make_rowgroup 2 0 1000 (default_rng 1)) as [[t g']|e] eqn:E; [|discriminate Hok].
  exists t, g'. split; [reflexivity|].
  exact (id_columns_in_range 2 0 1000 (default_rng 1) t g' E).
Defined.

Lemma event_ts_window_witness :
  in_int64 (1000 + week_ms + 2000) = true
  /\ exists t g',
       make_rowgroup 2 0 1000 (default_rng 1) = Ok (t, g')
       /\ let jitter := jitter_of (Z.to_nat 2) (default_rng 1) in
          let ts := zip_with (fun i j => 1000 + i mod week_ms + j) (seqZ 0 2) jitter in
          cells_of "event_ts" t = ints ts
          /\ length ts = Z.to_nat 2
          /\ Forall (fun j => 0 <= j < 2000) jitter
          /\ Forall (fun x => 1000 <= x < 1000 + week_ms + 1999) ts.
Proof.
  split; [reflexivity|].
  assert (Hok : is_ok (make_rowgroup 2 0 1000 (default_rng 1)) = true)
    by (vm_compute; reflexivity).
  destruct (make_rowgroup 2 0 1000 (default_rng 1)) as [[t g']|e] eqn:E; [|discriminate Hok].
  exists t, g'. split; [reflexivity|].
  exact (event_ts_window 2 0 1000 (default_rng 1) t g' E eq_refl).
Defined.

Lemma categories_are_listed_witness :
  exists t g',
    make_rowgroup 2 0 1000 (default_rng 1) = Ok (t, g')
    /\ Forall (fun c => c = None \/ exists v, c = Some (SStr v) /\ In v country_codes)
              (cells_of "country" t)
    /\ Forall (fun c => exists v, c = Some (SStr v) /\ In v channel_vals)
              (cells_of "channel" t).
Proof.
  assert (Hok : is_ok (make_rowgroup 2 0 1000 (default_rng 1)) = true)
    by (vm_compute; reflexivity).
  destruct (make_rowgroup 2 0 1000 (default_rng 1)) as [[t g']|e] eqn:E; [|discriminate Hok].
  exists t, g'. split; [reflexivity|].
  exact (categories_are_listed 2 0 1000 (default_rng 1) t g' E).
Defined.

Lemma sku_and_url_format_witness :
  exists t g',
    make_rowgroup 2 0 1000 (default_rng 1) = Ok (t, g')
    /\ Forall (fun c => exists w k,
                 c = Some (SStr ("SKU-" ++ w ++ "-" ++ pretty k)) /\ 0 <= k < 10000)
              (cells_of "product_sku" t)
    /\ Forall (fun c => c = None \/ exists page q,
                 c = Some (SStr (page ++ "?q=" ++ pretty q))
                 /\ In page pages /\ 0 <= q < 10000000)
              (cells_of "url" t).
Proof.
  assert (Hok : is_ok (make_rowgroup 2 0 1000 (default_rng 1)) = true)
    by (vm_compute; reflexivity).
  destruct (make_rowgroup 2 0 1000 (default_rng 1)) as [[t g']|e] eqn:E; [|discriminate Hok].
  exists t, g'. split; [reflexivity|].
  exact (sku_and_url_format 2 0 1000 (default_rng 1) t g' E).
Defined.

Lemma payload_format_witness :
  exists t g',
    make_rowgroup 2 0 1000 (default_rng 1) = Ok (t, g')
    /\ Forall (fun c => exists a1 b1 a2 b2 v1 v2 (ok : bool),
                 c = Some (SStr ("{" ++ dq ++ a1 ++ b1 ++ dq ++ ":" ++ pretty v1
                                 ++ "," ++ dq ++ a2 ++ b2 ++ dq ++ ":" ++ pretty v2
                                 ++ "," ++ dq ++ "ok" ++ dq ++ ":"
                                 ++ (if ok then "true" else "false") ++ "}"))
                 /\ In a1 lowercase /\ In b1 lowercase /\ In a2 lowercase /\ In b2 lowercase
                 /\ 0 <= v1 < 10000 /\ 0 <= v2 < 10000)
              (cells_of "payload" t).
Proof.
  assert (Hok : is_ok (make_rowgroup 2 0 1000 (default_rng 1)) = true)
    by (vm_compute; reflexivity).
  destruct (make_rowgroup 2 0 1000 (default_rng 1)) as [[t g']|e] eqn:E; [|discriminate Hok].
  exists t, g'. split; [reflexivity|].
  exact (payload_format 2 0 1000 (default_rng 1) t g' E).
Defined.

(** Two runs at the same clock value, to different paths, targets and caps,
    the second against a sink that rejects its third append. *)
Lemma same_seed_same_clock_same_prefix_witness :
  clock_ms (world 5) = clock_ms (world 5)
  /\ let groups1 :=
       row_groups_at "out/a.parquet"
         (@write_to_target _ _ (sink 100 None)
            10 "out/a.parquet" 1000 3 (Some "zstd") None true 1 0.03 10 (world 5)).2 in
     let groups2 :=
       row_groups_at "out/b.parquet"
         (@write_to_target _ _ (sink 7 (Some 2%nat))
            5 "out/b.parquet" 5000 3 None (Some 3) false 1 0.5 4 (world 5)).2 in
     groups1 `prefix_of` groups2 \/ groups2 `prefix_of` groups1.
Proof.
  split; [reflexivity|].
  exact (same_seed_same_clock_same_prefix (sink 100 None) (sink 7 (Some 2%nat))
           10 "out/a.parquet" 1000 (Some "zstd") None true 0.03 10 (world 5)
           5 "out/b.parquet" 5000 None (Some 3) false 0.5 4 (world 5) 3 1 eq_refl).
Defined.

(** A target of 0 bytes under a cap of 0: one row group of 3 rows, and the
    call returns. *)
Lemma nonpositive_target_takes_one_pass_witness :
  (forall f, 0 <= st_size f) /\ (threshold 0 0.03 <= 0)%Q /\ (1 <= 5)%nat
  /\ exists w',
       write_to_target 5 "out/a.parquet" 0 3 None None true 1 0.03 0 (world 5)
       = (Return 304, w')
       /\ ( (exists size, Return 304 = Return size
                          /\ length (row_groups_at "out/a.parquet" w') = 1%nat)
            \/ (exists e, Return 304 = Raised e /\ is_RuntimeError e = false
                          /\ row_groups_at "out/a.parquet" w' = []) ).
Proof.
  assert (Hsize : forall f, 0 <= st_size f) by (intros f; simpl; lia).
  assert (Hthr : (threshold 0 0.03 <= 0)%Q) by (unfold Qle; simpl; lia).
  assert (Hfuel : (1 <= 5)%nat) by lia.
  assert (Hout : (write_to_target 5 "out/a.parquet" 0 3 None None true 1 0.03 0
                    (world 5)).1 = Return 304) by (vm_compute; reflexivity).
  destruct (write_to_target 5 "out/a.parquet" 0 3 None None true 1 0.03 0 (world 5))
    as [out w'] eqn:E.
  cbn [fst] in Hout. subst out.
  split; [exact Hsize|]. split; [exact Hthr|]. split; [exact Hfuel|].
  exists w'. split; [reflexivity|].
  exact (nonpositive_target_takes_one_pass 5 "out/a.parquet" 0 3 None None true 1 0.03 0
           (world 5) (Return 304) w' Hsize Hthr Hfuel E).
Defined.

(** A level without a codec: the file carries neither. *)
Lemma written_file_configuration_witness :
  exists out w' f,
    write_to_target 10 "out/a.parquet" 1000 3 None (Some 3) true 1 0.03 10 (world 5)
    = (out, w')
    /\ fs w' !! "out/a.parquet" = Some f
    /\ f_closed f = true
    /\ f_schema f = schema
    /\ f_use_dictionary f = true
    /\ f_kwargs f = mkKwargs None None
    /\ Forall (fun tbl => table_schema tbl = schema
                          /\ Forall (fun col => length (col_cells col) = Z.to_nat 3) tbl)
              (f_row_groups f).
Proof.
  assert (Hlen : (fun o => length (f_row_groups o)) <$>
                 fs (write_to_target 10 "out/a.parquet" 1000 3 None (Some 3) true 1 0.03 10
                       (world 5)).2 !! "out/a.parquet" = Some 4%nat)
    by (vm_compute; reflexivity).
  destruct (write_to_target 10 "out/a.parquet" 1000 3 None (Some 3) true 1 0.03 10
              (world 5)) as [out w'] eqn:E.
  cbn [snd] in Hlen.
  destruct (fs w' !! "out/a.parquet") as [f|] eqn:Hf; [|discriminate Hlen].
  exists out, w', f. split; [reflexivity|]. split; [exact Hf|].
  exact (written_file_configuration 10 "out/a.parquet" 1000 3 None (Some 3) true 1 0.03 10
           (world 5) out w' f E Hf).
Defined.

(** Two targets, both met. *)
Lemma main_success_writes_every_target_witness :
  let a := mkArgs "out" [100; 300] (Some "zstd") None 1 true 1 0.03 10 in
  all_chars (fun c => negb (Ascii.eqb c "/")) (codec_tag a) = true
  /\ exists w',
    main_loop 5 a [100; 300] (world 5) = (Return tt, w')
    /\ (exists sizes,
          length sizes = length [100; 300]
          /\ stdout w'
             = (stdout (world 5) ++ concat (zip_with (target_lines a) [100; 300] sizes))%list)
    /\ opens (sink_log w') = (opens (sink_log (world 5)) + length [100; 300])%nat
    /\ closes (sink_log w') = (closes (sink_log (world 5)) + length [100; 300])%nat
    /\ (forall t, In t [100; 300] ->
          exists f, fs w' !! (out_dir a ++ "/" ++ fname a t) = Some f /\ f_closed f = true)
    /\ (forall q f, fs (world 5) !! q = Some f -> f_closed f = true ->
          exists f', fs w' !! q = Some f' /\ f_closed f' = true).
Proof.
  intros a.
  assert (Hout : (main_loop 5 a [100; 300] (world 5)).1 = Return tt)
    by (vm_compute; reflexivity).
  destruct (main_loop 5 a [100; 300] (world 5)) as [out w'] eqn:E.
  cbn [fst] in Hout. subst out. split; [reflexivity|]. exists w'. split; [reflexivity|].
  exact (main_success_writes_every_target 5 a [100; 300] (world 5) w' eq_refl E).
Defined.

Lemma human_bytes_unit_witness :
  - 2 ^ 53 <= 262144000 <= 2 ^ 53
  /\ human_bytes 262144000 =
       if 262144000 <? 1024 then format_2f (inject_Z 262144000) ++ " B"
       else if 262144000 <? 1024 ^ 2 then format_2f (inject_Z 262144000 / 1024) ++ " KB"
       else if 262144000 <? 1024 ^ 3
            then format_2f (inject_Z 262144000 / 1024 / 1024) ++ " MB"
       else if 262144000 <? 1024 ^ 4
            then format_2f (inject_Z 262144000 / 1024 / 1024 / 1024) ++ " GB"
       else format_2f (inject_Z 262144000 / 1024 / 1024 / 1024 / 1024) ++ " TB".
Proof.
  assert (Hn : - 2 ^ 53 <= 262144000 <= 2 ^ 53) by lia.
  split; [exact Hn|]. exact (human_bytes_unit 262144000 Hn).
Defined.

(** 250 MB. *)
Lemma whole_units_shown_and_named_witness :
  units !! 2%nat = Some "MB" /\ 1 <= 250 /\ (250 < 1024 \/ (2%nat = 4%nat /\ 250 < 2 ^ 53))
  /\ human_bytes (250 * 1024 ^ Z.of_nat 2) = pretty 250 ++ ".00 " ++ "MB"
  /\ forall a,
       fname a (250 * 1024 ^ Z.of_nat 2)
       = "realish_" ++ pretty 250 ++ "_00" ++ "MB" ++ "_" ++ codec_tag a ++ lvl_tag a
           ++ ".parquet".
Proof.
  assert (H1 : units !! 2%nat = Some "MB") by reflexivity.
  assert (H2 : 1 <= 250) by lia.
  assert (H3 : 250 < 1024 \/ (2%nat = 4%nat /\ 250 < 2 ^ 53)) by (left; lia).
  split; [exact H1|]. split; [exact H2|]. split; [exact H3|].
  exact (whole_units_shown_and_named 2 250 "MB" H1 H2 H3).
Defined.

Lemma parse_size_raw_integer_witness :
  Z.abs 1073741824 < 10 ^ 4300 /\ parse_size (pretty 1073741824) = Ok 1073741824.
Proof.
  assert (Hn : Z.abs 1073741824 < 10 ^ 4300) by (vm_compute; reflexivity).
  split; [exact Hn|]. exact (parse_size_raw_integer 1073741824 Hn).
Defined.

Lemma parse_size_whole_units_witness :
  0 <= 250 < 2 ^ 53 /\ units !! 2%nat = Some "MB"
  /\ parse_size (pretty 250 ++ "MB") = Ok (250 * 1024 ^ Z.of_nat 2).
Proof.
  assert (Hk : 0 <= 250 < 2 ^ 53) by lia.
  split; [exact Hk|]. split; [reflexivity|].
  exact (parse_size_whole_units 250 2 "MB" Hk eq_refl).
Defined.

Lemma parse_size_ignores_case_and_blanks_witness :
  all_chars is_ascii "1.5kB" = true
  /\ all_chars is_space " " = true /\ all_chars is_space "  " = true
  /\ parse_size (" " ++ "1.5kB" ++ "  ") = parse_size "1.5kB"
  /\ parse_size (upper "1.5kB") = parse_size "1.5kB"
  /\ parse_size (lower "1.5kB") = parse_size "1.5kB".
Proof.
  split; [reflexivity|]. split; [reflexivity|]. split; [reflexivity|].
  exact (parse_size_ignores_case_and_blanks "1.5kB" " " "  " eq_refl eq_refl eq_refl).
Defined.

Lemma parse_size_reads_human_bytes_witness :
  units !! 3%nat = Some "GB" /\ 1 <= 4 /\ (4 < 1024 \/ (3%nat = 4%nat /\ 4 < 2 ^ 53))
  /\ parse_size (human_bytes (4 * 1024 ^ Z.of_nat 3)) = Ok (4 * 1024 ^ Z.of_nat 3).
Proof.
  assert (H1 : units !! 3%nat = Some "GB") by reflexivity.
  assert (H2 : 1 <= 4) by lia.
  assert (H3 : 4 < 1024 \/ (3%nat = 4%nat /\ 4 < 2 ^ 53)) by (left; lia).
  split; [exact H1|]. split; [exact H2|]. split; [exact H3|].
  exact (parse_size_reads_human_bytes 3 4 "GB" H1 H2 H3).
Defined.

Lemma blank_size_is_skipped_witness :
  all_chars is_space "  " = true
  /\ parse_size "  " = Raise (ValueError "invalid literal for int() with base 10")
  /\ parse_targets "  " = Ok [].
Proof. split; [reflexivity|]. exact (blank_size_is_skipped "  " eq_refl). Defined.

(** The default of [--targets], and a list with a blank item. *)
Lemma parse_targets_items_witness :
  parse_targets "250MB,500MB,1GB,2GB,4GB"
  = Ok [262144000; 524288000; 1073741824; 2147483648; 4294967296]
  /\ parse_targets "1kb, ,2" = Ok [1024; 2].
Proof.
  split.
  - refine (parse_targets_items ["250MB"; "500MB"; "1GB"; "2GB"; "4GB"]
              [Some 262144000; Some 524288000; Some 1073741824; Some 2147483648;
               Some 4294967296] _).
    repeat (apply List.Forall2_cons; [split; vm_compute; reflexivity|]). apply List.Forall2_nil.
  - refine (parse_targets_items ["1kb"; " "; "2"] [Some 1024; None; Some 2] _).
    apply List.Forall2_cons; [split; vm_compute; reflexivity|].
    apply List.Forall2_cons; [vm_compute; reflexivity|].
    apply List.Forall2_cons; [split; vm_compute; reflexivity|]. apply List.Forall2_nil.
Defined.

Lemma compression_arg_lowers_witness :
  all_chars is_ascii "ZStd" = true
  /\ compression_arg (upper "ZStd") = compression_arg "ZStd"
  /\ forall n, compression_arg "ZStd" = Some n ->
                n = lower "ZStd" /\ lower n = n /\ compression_arg n = Some n.
Proof. split; [reflexivity|]. exact (compression_arg_lowers "ZStd" eq_refl). Defined.

Lemma file_name_tags_match_writer_witness :
  let a := mkArgs "out" [100] (compression_arg "ZSTD") (Some 3) 1 true 1 0.03 10 in
  compression a = compression_arg "ZSTD"
  /\ let kw := make_writer_kwargs (compression a) (compression_level a) in
     (codec_tag a = "none" <-> kw_compression kw = None \/ "ZSTD" = EmptyString)
     /\ (lvl_tag a = EmptyString <-> kw_compression_level kw = None).
Proof.
  intros a. split; [reflexivity|].
  exact (file_name_tags_match_writer a "ZSTD" eq_refl).
Defined.
